(** * Turtle's Adventure: a shallow embedding of [turtle_adventure.py]

    The game is a single-threaded event loop over mutable objects.  Each
    Python class becomes a record and each of its methods a function; a
    method that mutates [self] or the game returns the new values.
    Numbers are modelled as follows:

    - a Python [int] is a [Z];
    - a Python [float] is a real number of [R]: rounding is idealised
      away, so [+], [-], [*], [/], [sqrt], [sin], [cos] and [atan] are the
      exact operations;
    - a comparison is a [bool] obtained from the decision procedures of
      [R];
    - the shared generator of module [random] is an explicit source of raw
      integers, threaded through every function that draws from it;
    - a raised exception is a value of type [res].  *)

From Stdlib Require Import Reals Lra Lia ZArith List Bool String.
Import ListNotations.
Local Open Scope R_scope.

(** ** Python primitives *)

Inductive exn : Type :=
| ZeroDivisionError
| ValueError
| IndexError.

(** The outcome of a call: a value, a raised exception, or [Timeout] when
    the iteration budget handed to a [while True] loop is used up (the
    Python loop would still be running). *)
Inductive res (A : Type) : Type :=
| Ok (a : A)
| Raise (e : exn)
| Timeout.
Arguments Ok {A} a.
Arguments Raise {A} e.
Arguments Timeout {A}.

Definition bind {A B : Type} (c : res A) (k : A -> res B) : res B :=
  match c with
  | Ok a => k a
  | Raise e => Raise e
  | Timeout => Timeout
  end.

Notation "x <- c ;; k" := (bind c (fun x => k))
  (at level 61, c at next level, right associativity).
Notation "' pat <- c ;; k" :=
  (bind c (fun returned => match returned with pat => k end))
  (at level 61, pat pattern, c at next level, right associativity).

Definition Rleb (a b : R) : bool := if Rle_dec a b then true else false.
Definition Rltb (a b : R) : bool := if Rlt_dec a b then true else false.
Definition Rgeb (a b : R) : bool := if Rge_dec a b then true else false.
Definition Reqb (a b : R) : bool := if Req_dec_T a b then true else false.

Infix "<=?" := Rleb (at level 70, no associativity) : R_scope.
Infix "<?" := Rltb (at level 70, no associativity) : R_scope.
Infix ">=?" := Rgeb (at level 70, no associativity) : R_scope.
Infix "=?" := Reqb (at level 70, no associativity) : R_scope.

(** Python's chained comparison [a <= b <= c]. *)
Definition between (a b c : R) : bool := (a <=? b) && (b <=? c).

(** True division [a / b] on floats. *)
Definition py_div (a b : R) : res R :=
  if b =? 0 then Raise ZeroDivisionError else Ok (a / b).

(** [int(r)]: truncation towards zero. *)
Definition py_int (r : R) : Z :=
  if 0 <=? r then Int_part r else (- Int_part (- r))%Z.

(** The random source: an endless supply of raw integers. *)
Definition RNG : Type := nat -> Z.

Definition draw (r : RNG) : Z * RNG := (r O, fun n => r (S n)).

(** [random.randrange(a, b)]: an integer of the half-open range [a, b);
    an empty range raises [ValueError]. *)
Definition randrange (a b : Z) (r : RNG) : res (Z * RNG) :=
  if (a <? b)%Z
  then let (v, r') := draw r in Ok ((a + v mod (b - a))%Z, r')
  else Raise ValueError.

(** [random.choice(l)]. *)
Definition choice {A : Type} (l : list A) (r : RNG) : res (A * RNG) :=
  match l with
  | [] => Raise IndexError
  | d :: _ =>
      let (v, r') := draw r in
      Ok (nth (Z.to_nat (v mod Z.of_nat (List.length l))) l d, r')
  end.

(** ** The turtle of Python's standard library

    [RawTurtle] is not code of the game; the methods the game calls are
    modelled after their documentation.  The heading is kept in radians. *)

Module RawTurtle.

Record t : Type := mk { xcor : R; ycor : R; heading : R }.

(** [math.atan2(y, x)]. *)
Definition atan2 (b a : R) : R :=
  if 0 <? a then atan (b / a)
  else if a <? 0 then
         if 0 <=? b then atan (b / a) + PI else atan (b / a) - PI
  else if 0 <? b then PI / 2
  else if b <? 0 then - (PI / 2)
  else 0.

(** The angle of the line from the turtle to the point [(a, b)]. *)
Definition towards (tt : t) (a b : R) : R :=
  atan2 (b - ycor tt) (a - xcor tt).

Definition setheading (tt : t) (angle : R) : t :=
  mk (xcor tt) (ycor tt) angle.

(** Move by [d] in the direction the turtle is headed. *)
Definition forward (tt : t) (d : R) : t :=
  mk (xcor tt + d * cos (heading tt)) (ycor tt + d * sin (heading tt))
     (heading tt).

Definition distance (tt : t) (a b : R) : R :=
  sqrt ((a - xcor tt) * (a - xcor tt) + (b - ycor tt) * (b - ycor tt)).

Definition setx (tt : t) (v : R) : t := mk v (ycor tt) (heading tt).
Definition sety (tt : t) (v : R) : t := mk (xcor tt) v (heading tt).

End RawTurtle.

(** ** The game's objects

    A class is a record named after it and a method [m] of class [C] is
    the function [C_m].  The records come first because the game holds
    its elements and every method reaches the game through [self.game]. *)

Record Waypoint : Type := mkWaypoint {
  waypoint_x : R;
  waypoint_y : R;
  is_active : bool
}.

Record Home : Type := mkHome {
  home_x : R;
  home_y : R;
  home_size : Z
}.

Record Player : Type := mkPlayer {
  turtle : RawTurtle.t;
  player_speed : R
}.

(** The properties [x] and [y] of [Player] read the turtle. *)
Definition player_x (p : Player) : R := RawTurtle.xcor (turtle p).
Definition player_y (p : Player) : R := RawTurtle.ycor (turtle p).

(** The fields every enemy inherits from [Enemy] and [GameElement]. *)
Record Enemy : Type := mkEnemy {
  x : R;
  y : R;
  size : R;
  color : string
}.

Definition set_x (e : Enemy) (v : R) : Enemy := mkEnemy v (y e) (size e) (color e).
Definition set_y (e : Enemy) (v : R) : Enemy := mkEnemy (x e) v (size e) (color e).

(** The movement methods an enemy stores in its state attributes. *)
Inductive Move : Type :=
| moving_right
| moving_down
| moving_left
| moving_up.

Record RandomMovingEnemy : Type := mkRandomMovingEnemy {
  rm_base : Enemy
}.

Record BouncingEnemy : Type := mkBouncingEnemy {
  bo_base : Enemy;
  bo_xspeed : R;
  bo_yspeed : R;
  bo_xstate : Move;
  bo_ystate : Move
}.

Record HomingEnemy : Type := mkHomingEnemy {
  ho_base : Enemy;
  ho_speed : R;
  ho_xstate : Move;
  ho_ystate : Move
}.

Record CampingEnemy : Type := mkCampingEnemy {
  ca_base : Enemy;
  ca_speed : R;
  ca_state : Move;
  multiplier : R
}.

Record Bullet : Type := mkBullet {
  bu_base : Enemy;
  bu_xspeed : R;
  bu_yspeed : R
}.

(** [tu_fire_rate] is the attribute [__fire_rate]: the firing period
    [(1/fire_rate)*1000], not the rate handed to the constructor. *)
Record Turret : Type := mkTurret {
  tu_base : Enemy;
  bullet_size : R;
  velocity : R;
  tu_fire_rate : R;
  timer : Z
}.

Inductive Element : Type :=
| ERandomMoving (e : RandomMovingEnemy)
| EBouncing (e : BouncingEnemy)
| EHoming (e : HomingEnemy)
| ECamping (e : CampingEnemy)
| EBullet (e : Bullet)
| ETurret (e : Turret).

Definition element_base (el : Element) : Enemy :=
  match el with
  | ERandomMoving e => rm_base e
  | EBouncing e => bo_base e
  | EHoming e => ho_base e
  | ECamping e => ca_base e
  | EBullet e => bu_base e
  | ETurret e => tu_base e
  end.

(** The callbacks the game hands to the timer service [after]. *)
Inductive Callback : Type :=
| animate
| spawn_more.

(** The session.  [elements] holds the enemies in insertion order; the
    waypoint, the home and the player, which the Python collection holds
    too, are kept in their own fields.  [texts] are the text items drawn
    on the canvas and [timers] the callbacks pending in the timer
    service, each with its delay. *)
Record Game : Type := mkGame {
  is_running : bool;
  elements : list Element;
  texts : list string;
  timers : list (Z * Callback);
  level : Z;
  screen_width : Z;
  screen_height : Z;
  winfo_width : Z;
  winfo_height : Z;
  canvas_winfo_width : Z;
  canvas_winfo_height : Z;
  waypoint : Waypoint;
  home : Home;
  player : Player
}.

Definition set_is_running (b : bool) (g : Game) : Game :=
  mkGame b (elements g) (texts g) (timers g) (level g)
    (screen_width g) (screen_height g) (winfo_width g) (winfo_height g)
    (canvas_winfo_width g) (canvas_winfo_height g)
    (waypoint g) (home g) (player g).

Definition set_elements (l : list Element) (g : Game) : Game :=
  mkGame (is_running g) l (texts g) (timers g) (level g)
    (screen_width g) (screen_height g) (winfo_width g) (winfo_height g)
    (canvas_winfo_width g) (canvas_winfo_height g)
    (waypoint g) (home g) (player g).

Definition set_texts (l : list string) (g : Game) : Game :=
  mkGame (is_running g) (elements g) l (timers g) (level g)
    (screen_width g) (screen_height g) (winfo_width g) (winfo_height g)
    (canvas_winfo_width g) (canvas_winfo_height g)
    (waypoint g) (home g) (player g).

Definition set_timers (l : list (Z * Callback)) (g : Game) : Game :=
  mkGame (is_running g) (elements g) (texts g) l (level g)
    (screen_width g) (screen_height g) (winfo_width g) (winfo_height g)
    (canvas_winfo_width g) (canvas_winfo_height g)
    (waypoint g) (home g) (player g).

Definition set_waypoint (w : Waypoint) (g : Game) : Game :=
  mkGame (is_running g) (elements g) (texts g) (timers g) (level g)
    (screen_width g) (screen_height g) (winfo_width g) (winfo_height g)
    (canvas_winfo_width g) (canvas_winfo_height g)
    w (home g) (player g).

Definition set_player (p : Player) (g : Game) : Game :=
  mkGame (is_running g) (elements g) (texts g) (timers g) (level g)
    (screen_width g) (screen_height g) (winfo_width g) (winfo_height g)
    (canvas_winfo_width g) (canvas_winfo_height g)
    (waypoint g) (home g) p.

(** What is fixed once the modules are loaded, before any game exists.
    [CampingEnemy_speed_default] is the default value of the parameter
    [speed] of [CampingEnemy.__init__].  [element_x0] and [element_y0]
    are the position [GameElement.__init__] of module [gamelib] gives a
    new element; [create_enemy] and [Turret.shoot] overwrite it
    before the element joins the game. *)
Record Env : Type := mkEnv {
  CampingEnemy_speed_default : R;
  element_x0 : R;
  element_y0 : R
}.

(** ** The services of [gamelib.Game] *)

(** Modelled from the spec: [Game.stop] of module [gamelib] is missing;
    it halts the tick loop by clearing the running flag. *)
Definition stop (g : Game) : Game := set_is_running false g.

(** Modelled from the spec: [Game.add_element] of module [gamelib] is
    missing; it inserts the element at the end of the collection. *)
Definition add_element (el : Element) (g : Game) : Game :=
  set_elements (elements g ++ [el]) g.

(** Modelled from the spec: [Game.delete_element] of module [gamelib] is
    missing; it removes the element from the collection.  The element is
    named by its place in the collection. *)
Definition delete_element (i : nat) (g : Game) : Game :=
  set_elements (firstn i (elements g) ++ skipn (S i) (elements g)) g.

(** [after(delay, callback)] of the timer service: the callback is queued
    and runs once when its delay has passed. *)
Definition after (delay : Z) (cb : Callback) (g : Game) : Game :=
  set_timers (timers g ++ [(delay, cb)]) g.

(** ** Waypoint *)

Definition Waypoint_init : Waypoint := mkWaypoint 0 0 false.

Definition Waypoint_activate (w : Waypoint) (a b : R) : Waypoint :=
  mkWaypoint a b true.

Definition Waypoint_deactivate (w : Waypoint) : Waypoint :=
  mkWaypoint (waypoint_x w) (waypoint_y w) false.

(** ** Home *)

Definition Home_contains (h : Home) (a b : R) : bool :=
  let x1 := home_x h - IZR (home_size h) / 2 in
  let x2 := home_x h + IZR (home_size h) / 2 in
  let y1 := home_y h - IZR (home_size h) / 2 in
  let y2 := home_y h + IZR (home_size h) / 2 in
  between x1 a x2 && between y1 b y2.

(** ** TurtleAdventureGame: the end of the session *)

Definition game_over_win (g : Game) : Game :=
  let g1 := stop g in
  set_texts (texts g1 ++ ["You Win"%string]) g1.

Definition game_over_lose (g : Game) : Game :=
  let g1 := stop g in
  set_texts (texts g1 ++ ["You Lose"%string]) g1.

(** ** Player *)

Definition Player_update (g : Game) : Game :=
  let g1 :=
    if Home_contains (home g) (player_x (player g)) (player_y (player g))
    then game_over_win g else g in
  let tt := turtle (player g1) in
  let wp := waypoint g1 in
  if is_active (waypoint g1) then
    let tt1 :=
      RawTurtle.setheading tt
        (RawTurtle.towards tt (waypoint_x wp) (waypoint_y wp)) in
    let tt2 := RawTurtle.forward tt1 (player_speed (player g1)) in
    let g2 := set_player (mkPlayer tt2 (player_speed (player g1))) g1 in
    if RawTurtle.distance tt2 (waypoint_x wp) (waypoint_y wp)
         <? player_speed (player g2)
    then set_waypoint (Waypoint_deactivate wp) g2
    else g2
  else g1.

(** ** Enemy *)

Definition hits_player (g : Game) (e : Enemy) : bool :=
  (between (x e - size e / 2) (player_x (player g)) (x e + size e / 2)
   && between (y e - size e / 2) (player_y (player g)) (y e + size e / 2))
  || (between (player_x (player g) - 7) (x e) (player_x (player g) + 7)
      && between (player_y (player g) - 7) (y e) (player_y (player g) + 7)).

Definition Enemy_init (env : Env) (sz : R) (col : string) : Enemy :=
  mkEnemy (element_x0 env) (element_y0 env) sz col.

(** ** RandomMovingEnemy *)

Definition RandomMovingEnemy_init (env : Env) (sz : R) (col : string)
  : RandomMovingEnemy :=
  mkRandomMovingEnemy (Enemy_init env sz col).

Definition RandomMovingEnemy_update (g : Game) (e : RandomMovingEnemy)
    (rng : RNG) : res (RandomMovingEnemy * Game * RNG) :=
  let b := rm_base e in
  '(dx, rng1) <-
    (if x b <=? 0 then randrange 0 15 rng
     else if x b >=? IZR (winfo_width g) then randrange (-15) 0 rng
     else randrange (-15) 15 rng) ;;
  let b1 := set_x b (x b + IZR dx) in
  '(dy, rng2) <-
    (if y b1 <=? 0 then randrange 0 15 rng1
     else if y b1 >=? IZR (winfo_height g) then randrange (-15) 0 rng1
     else randrange (-15) 15 rng1) ;;
  let b2 := set_y b1 (y b1 + IZR dy) in
  let g1 := if hits_player g b2 then game_over_lose g else g in
  Ok (mkRandomMovingEnemy b2, g1, rng2).

(** ** BouncingEnemy *)

Definition BouncingEnemy_init (env : Env) (sz : R) (col : string)
    (xspeed yspeed : R) : BouncingEnemy :=
  mkBouncingEnemy (Enemy_init env sz col) xspeed yspeed
    moving_right moving_down.

Definition BouncingEnemy_moving_down (g : Game) (e : BouncingEnemy)
  : BouncingEnemy :=
  let b := set_y (bo_base e) (y (bo_base e) + bo_yspeed e) in
  mkBouncingEnemy b (bo_xspeed e) (bo_yspeed e) (bo_xstate e)
    (if y b >=? IZR (canvas_winfo_height g) then moving_up else bo_ystate e).

Definition BouncingEnemy_moving_up (g : Game) (e : BouncingEnemy)
  : BouncingEnemy :=
  let b := set_y (bo_base e) (y (bo_base e) - bo_yspeed e) in
  mkBouncingEnemy b (bo_xspeed e) (bo_yspeed e) (bo_xstate e)
    (if y b <=? 0 then moving_down else bo_ystate e).

Definition BouncingEnemy_moving_right (g : Game) (e : BouncingEnemy)
  : BouncingEnemy :=
  let b := set_x (bo_base e) (x (bo_base e) + bo_xspeed e) in
  mkBouncingEnemy b (bo_xspeed e) (bo_yspeed e)
    (if x b >=? IZR (canvas_winfo_width g) then moving_left else bo_xstate e)
    (bo_ystate e).

Definition BouncingEnemy_moving_left (g : Game) (e : BouncingEnemy)
  : BouncingEnemy :=
  let b := set_x (bo_base e) (x (bo_base e) - bo_xspeed e) in
  mkBouncingEnemy b (bo_xspeed e) (bo_yspeed e)
    (if x b <=? 0 then moving_right else bo_xstate e)
    (bo_ystate e).

(** Calling the bound method kept in a state attribute. *)
Definition BouncingEnemy_call (m : Move) (g : Game) (e : BouncingEnemy)
  : BouncingEnemy :=
  match m with
  | moving_right => BouncingEnemy_moving_right g e
  | moving_down => BouncingEnemy_moving_down g e
  | moving_left => BouncingEnemy_moving_left g e
  | moving_up => BouncingEnemy_moving_up g e
  end.

Definition BouncingEnemy_update (g : Game) (e : BouncingEnemy)
  : BouncingEnemy * Game :=
  let e1 := BouncingEnemy_call (bo_xstate e) g e in
  let e2 := BouncingEnemy_call (bo_ystate e1) g e1 in
  (e2, if hits_player g (bo_base e2) then game_over_lose g else g).

(** ** HomingEnemy *)

(** Over the reals one of [player.x <= self.x] and [player.x >= self.x]
    holds, so the [elif] of the constructor is an [else]. *)
Definition HomingEnemy_init (env : Env) (g : Game) (sz : R) (col : string)
    (speed : R) : HomingEnemy :=
  let b := Enemy_init env sz col in
  mkHomingEnemy b speed
    (if player_x (player g) <=? x b then moving_left else moving_right)
    (if player_y (player g) <=? y b then moving_up else moving_down).

Definition HomingEnemy_moving_right (g : Game) (e : HomingEnemy)
  : res HomingEnemy :=
  let b := ho_base e in
  x1 <-
    (if player_x (player g) - x b =? 0 then Ok (x b + 0)
     else
       q <- py_div (Rabs (player_y (player g) - y b))
                   (Rabs (player_x (player g) - x b)) ;;
       Ok (x b + ho_speed e * cos (atan q))) ;;
  Ok (mkHomingEnemy (set_x b x1) (ho_speed e)
        (if player_x (player g) <=? x1 then moving_left else ho_xstate e)
        (ho_ystate e)).

Definition HomingEnemy_moving_left (g : Game) (e : HomingEnemy)
  : res HomingEnemy :=
  let b := ho_base e in
  x1 <-
    (if player_x (player g) - x b =? 0 then Ok (x b + 0)
     else
       q <- py_div (Rabs (player_y (player g) - y b))
                   (Rabs (player_x (player g) - x b)) ;;
       Ok (x b - ho_speed e * cos (atan q))) ;;
  Ok (mkHomingEnemy (set_x b x1) (ho_speed e)
        (if player_x (player g) >=? x1 then moving_right else ho_xstate e)
        (ho_ystate e)).

Definition HomingEnemy_moving_down (g : Game) (e : HomingEnemy)
  : res HomingEnemy :=
  let b := ho_base e in
  y1 <-
    (if player_x (player g) - x b =? 0 then Ok (y b + ho_speed e)
     else
       q <- py_div (Rabs (player_y (player g) - y b))
                   (Rabs (player_x (player g) - x b)) ;;
       Ok (y b + ho_speed e * sin (atan q))) ;;
  Ok (mkHomingEnemy (set_y b y1) (ho_speed e) (ho_xstate e)
        (if player_y (player g) <=? y1 then moving_up else ho_ystate e)).

Definition HomingEnemy_moving_up (g : Game) (e : HomingEnemy)
  : res HomingEnemy :=
  let b := ho_base e in
  y1 <-
    (if player_x (player g) - x b =? 0 then Ok (y b - ho_speed e)
     else
       q <- py_div (Rabs (player_y (player g) - y b))
                   (Rabs (player_x (player g) - x b)) ;;
       Ok (y b - ho_speed e * sin (atan q))) ;;
  Ok (mkHomingEnemy (set_y b y1) (ho_speed e) (ho_xstate e)
        (if player_y (player g) >=? y1 then moving_down else ho_ystate e)).

Definition HomingEnemy_call (m : Move) (g : Game) (e : HomingEnemy)
  : res HomingEnemy :=
  match m with
  | moving_right => HomingEnemy_moving_right g e
  | moving_down => HomingEnemy_moving_down g e
  | moving_left => HomingEnemy_moving_left g e
  | moving_up => HomingEnemy_moving_up g e
  end.

Definition HomingEnemy_update (g : Game) (e : HomingEnemy)
  : res (HomingEnemy * Game) :=
  e1 <- HomingEnemy_call (ho_xstate e) g e ;;
  e2 <- HomingEnemy_call (ho_ystate e1) g e1 ;;
  Ok (e2, if hits_player g (ho_base e2) then game_over_lose g else g).

(** ** CampingEnemy *)

(** [speed = None] is a call that leaves the parameter out: the default
    value, computed when the class was defined, is used. *)
Definition CampingEnemy_init (env : Env) (g : Game) (sz : R) (col : string)
    (speed : option R) : CampingEnemy :=
  mkCampingEnemy (Enemy_init env sz col)
    (match speed with
     | Some v => v
     | None => CampingEnemy_speed_default env
     end)
    moving_right
    ((IZR (home_size (home g)) / 2) * 5).

Definition CampingEnemy_moving_right (g : Game) (e : CampingEnemy)
  : CampingEnemy :=
  let b := set_x (ca_base e) (x (ca_base e) + ca_speed e) in
  if x b >=? home_x (home g) + multiplier e then
    mkCampingEnemy
      (set_y (set_x b (home_x (home g) + multiplier e))
             (home_y (home g) - multiplier e))
      (ca_speed e) moving_down (multiplier e)
  else mkCampingEnemy b (ca_speed e) (ca_state e) (multiplier e).

Definition CampingEnemy_moving_left (g : Game) (e : CampingEnemy)
  : CampingEnemy :=
  let b := set_x (ca_base e) (x (ca_base e) - ca_speed e) in
  if x b <=? home_x (home g) - multiplier e then
    mkCampingEnemy
      (set_y (set_x b (home_x (home g) - multiplier e))
             (home_y (home g) + multiplier e))
      (ca_speed e) moving_up (multiplier e)
  else mkCampingEnemy b (ca_speed e) (ca_state e) (multiplier e).

Definition CampingEnemy_moving_down (g : Game) (e : CampingEnemy)
  : CampingEnemy :=
  let b := set_y (ca_base e) (y (ca_base e) + ca_speed e) in
  if y b >=? home_y (home g) + multiplier e then
    mkCampingEnemy
      (set_y (set_x b (home_x (home g) + multiplier e))
             (home_y (home g) + multiplier e))
      (ca_speed e) moving_left (multiplier e)
  else mkCampingEnemy b (ca_speed e) (ca_state e) (multiplier e).

Definition CampingEnemy_moving_up (g : Game) (e : CampingEnemy)
  : CampingEnemy :=
  let b := set_y (ca_base e) (y (ca_base e) - ca_speed e) in
  if y b <=? home_y (home g) - multiplier e then
    mkCampingEnemy
      (set_y (set_x b (home_x (home g) - multiplier e))
             (home_y (home g) - multiplier e))
      (ca_speed e) moving_right (multiplier e)
  else mkCampingEnemy b (ca_speed e) (ca_state e) (multiplier e).

Definition CampingEnemy_call (m : Move) (g : Game) (e : CampingEnemy)
  : CampingEnemy :=
  match m with
  | moving_right => CampingEnemy_moving_right g e
  | moving_down => CampingEnemy_moving_down g e
  | moving_left => CampingEnemy_moving_left g e
  | moving_up => CampingEnemy_moving_up g e
  end.

Definition CampingEnemy_update (g : Game) (e : CampingEnemy)
  : CampingEnemy * Game :=
  let e1 := CampingEnemy_call (ca_state e) g e in
  (e1, if hits_player g (ca_base e1) then game_over_lose g else g).

(** ** Bullet *)

Definition Bullet_init (env : Env) (g : Game) (sz : R) (col : string)
    (speed : R) (coordinate : R * R) : res Bullet :=
  let px := player_x (player g) in
  let py := player_y (player g) in
  '(yspeed, xspeed) <-
    (if px - fst coordinate =? 0 then Ok (speed, 0)
     else
       q1 <- py_div (Rabs (py - snd coordinate))
                    (Rabs (px - fst coordinate)) ;;
       q2 <- py_div (Rabs (py - snd coordinate))
                    (Rabs (px - fst coordinate)) ;;
       Ok (speed * sin (atan q1), speed * cos (atan q2))) ;;
  let xspeed1 := if fst coordinate >=? px then - xspeed else xspeed in
  let yspeed1 := if snd coordinate >=? py then - yspeed else yspeed in
  Ok (mkBullet (Enemy_init env sz col) xspeed1 yspeed1).

Definition Bullet_hits_border (g : Game) (b : Bullet) : bool :=
  (x (bu_base b) <=? 0) || (x (bu_base b) >=? IZR (winfo_width g))
  || (y (bu_base b) <=? 0) || (y (bu_base b) >=? IZR (winfo_height g)).

(** The body of the loop [for _ in range(10)], run [n] times. *)
Fixpoint Bullet_steps (n : nat) (g : Game) (b : Bullet) : Bullet * Game :=
  match n with
  | O => (b, g)
  | S n' =>
      let b1 :=
        mkBullet
          (set_y (set_x (bu_base b) (x (bu_base b) + bu_xspeed b / 10))
                 (y (bu_base b) + bu_yspeed b / 10))
          (bu_xspeed b) (bu_yspeed b) in
      Bullet_steps n' (if hits_player g (bu_base b1) then game_over_lose g else g) b1
  end.

(** [self] is the place of the bullet in the collection. *)
Definition Bullet_update (self : nat) (g : Game) (b : Bullet)
  : Bullet * Game :=
  let (b1, g1) := Bullet_steps 10 g b in
  if Bullet_hits_border g1 b1 then (b1, delete_element self g1) else (b1, g1).

(** ** Turret *)

Definition Turret_init (env : Env) (sz : R) (col : string)
    (bsize vel fire_rate : R) : res Turret :=
  q <- py_div 1 fire_rate ;;
  Ok (mkTurret (Enemy_init env sz col) bsize vel (q * 1000) 0).

Definition Turret_shoot (env : Env) (g : Game) (t : Turret)
  : res (Turret * Game) :=
  let t1 :=
    mkTurret (tu_base t) (bullet_size t) (velocity t) (tu_fire_rate t)
      (timer t + 33) in
  if IZR (timer t1) >=? tu_fire_rate t1 then
    bullet <- Bullet_init env g (bullet_size t1) (color (tu_base t1))
                (velocity t1) (x (tu_base t1), y (tu_base t1)) ;;
    let bullet1 :=
      mkBullet (set_y (set_x (bu_base bullet) (x (tu_base t1)))
                      (y (tu_base t1)))
        (bu_xspeed bullet) (bu_yspeed bullet) in
    Ok (mkTurret (tu_base t1) (bullet_size t1) (velocity t1)
          (tu_fire_rate t1) 0,
        add_element (EBullet bullet1) g)
  else Ok (t1, g).

Definition Turret_update (env : Env) (g : Game) (t : Turret)
  : res (Turret * Game) :=
  '(t1, g1) <- Turret_shoot env g t ;;
  Ok (t1, if hits_player g1 (tu_base t1) then game_over_lose g1 else g1).

(** ** EnemyGenerator *)

(** The classes held in the attribute [__enemies]. *)
Inductive EnemyType : Type :=
| RandomMovingEnemy_class
| HomingEnemy_class
| CampingEnemy_class
| BouncingEnemy_class
| Turret_class.

Record EnemyGenerator : Type := mkEnemyGenerator {
  generator_level : Z;
  enemies : list EnemyType
}.

Definition safe_area (g : Game) (a b : R) : bool :=
  between (player_x (player g) - 100) a (player_x (player g) + 100)
  && between (player_y (player g) - 100) b (player_y (player g) + 100).

Definition home_area (g : Game) (a b : R) : bool :=
  let dist := (IZR (home_size (home g)) / 2) * 5 in
  between (home_x (home g) - dist) a (home_x (home g) + dist)
  && between (player_y (player g) - dist) b (player_y (player g) + dist).

(** The call [enemy_type(self.__game, size)]: every other parameter
    takes its default value. *)
Definition construct (env : Env) (g : Game) (ty : EnemyType) (sz : R)
  : res Element :=
  match ty with
  | RandomMovingEnemy_class =>
      Ok (ERandomMoving (RandomMovingEnemy_init env sz "#7e7e7e"))
  | HomingEnemy_class =>
      Ok (EHoming (HomingEnemy_init env g sz "#42ffbf" (38 / 10)))
  | CampingEnemy_class =>
      Ok (ECamping (CampingEnemy_init env g sz "#ff0000" None))
  | BouncingEnemy_class =>
      Ok (EBouncing (BouncingEnemy_init env sz "#a72afe" 5 5))
  | Turret_class =>
      t <- Turret_init env sz "#ff8929" 5 18 (13 / 10) ;;
      Ok (ETurret t)
  end.

(** The assignments [enemy.x = a] and [enemy.y = b]. *)
Definition place (el : Element) (a b : R) : Element :=
  match el with
  | ERandomMoving e => ERandomMoving (mkRandomMovingEnemy (set_y (set_x (rm_base e) a) b))
  | EBouncing e =>
      EBouncing (mkBouncingEnemy (set_y (set_x (bo_base e) a) b)
                   (bo_xspeed e) (bo_yspeed e) (bo_xstate e) (bo_ystate e))
  | EHoming e =>
      EHoming (mkHomingEnemy (set_y (set_x (ho_base e) a) b)
                 (ho_speed e) (ho_xstate e) (ho_ystate e))
  | ECamping e =>
      ECamping (mkCampingEnemy (set_y (set_x (ca_base e) a) b)
                  (ca_speed e) (ca_state e) (multiplier e))
  | EBullet e =>
      EBullet (mkBullet (set_y (set_x (bu_base e) a) b)
                 (bu_xspeed e) (bu_yspeed e))
  | ETurret e =>
      ETurret (mkTurret (set_y (set_x (tu_base e) a) b)
                 (bullet_size e) (velocity e) (tu_fire_rate e) (timer e))
  end.

(** The loop [while True] of [create_enemy]: candidate points are drawn
    until one is outside both areas.  [fuel] bounds the number of
    candidates tried. *)
Fixpoint sample_position (fuel : nat) (g : Game) (sz : R) (rng : RNG)
  : res (Z * Z * RNG) :=
  match fuel with
  | O => Timeout
  | S fuel' =>
      '(tempx, rng1) <-
        randrange (0 + py_int (sz / 2)) (winfo_width g - py_int (sz / 2)) rng ;;
      '(tempy, rng2) <-
        randrange (0 + py_int (sz / 2)) (winfo_height g - py_int (sz / 2)) rng1 ;;
      if negb (safe_area g (IZR tempx) (IZR tempy))
         && negb (home_area g (IZR tempx) (IZR tempy))
      then Ok (tempx, tempy, rng2)
      else sample_position fuel' g sz rng2
  end.

Definition create_enemy (env : Env) (gen : EnemyGenerator) (fuel : nat)
    (enemy_type : option EnemyType) (g : Game) (rng : RNG)
  : res (Game * RNG) :=
  '(ty, rng1) <-
    (match enemy_type with
     | None => choice (enemies gen) rng
     | Some ty => Ok (ty, rng)
     end) ;;
  '(sz, rng2) <- randrange 15 30 rng1 ;;
  enemy <- construct env g ty (IZR sz) ;;
  match enemy with
  | ECamping c =>
      Ok (add_element
            (place enemy (home_x (home g) - multiplier c)
                         (home_y (home g) - multiplier c)) g,
          rng2)
  | _ =>
      '(tempx, tempy, rng3) <-
        sample_position fuel g (size (element_base enemy)) rng2 ;;
      Ok (add_element (place enemy (IZR tempx) (IZR tempy)) g, rng3)
  end.

(** [for _ in range(n): self.create_enemy(enemy_type)]. *)
Fixpoint create_enemies (env : Env) (gen : EnemyGenerator) (fuel : nat)
    (tys : list (option EnemyType)) (g : Game) (rng : RNG)
  : res (Game * RNG) :=
  match tys with
  | [] => Ok (g, rng)
  | ty :: tys' =>
      '(g1, rng1) <- create_enemy env gen fuel ty g rng ;;
      create_enemies env gen fuel tys' g1 rng1
  end.

Definition initial_enemies (env : Env) (gen : EnemyGenerator) (fuel : nat)
    (g : Game) (rng : RNG) : res (Game * RNG) :=
  create_enemies env gen fuel
    (List.concat (repeat (map Some (enemies gen))
                    (Z.to_nat (generator_level gen))))
    g rng.

Definition EnemyGenerator_spawn_more (env : Env) (gen : EnemyGenerator)
    (fuel : nat) (g : Game) (rng : RNG) : res (Game * RNG) :=
  '(g1, rng1) <-
    create_enemies env gen fuel
      (repeat None
         (Z.to_nat (py_int (IZR (generator_level gen) * (15 / 10)) + 1)))
      g rng ;;
  '(delay, rng2) <- randrange 1000 1500 rng1 ;;
  Ok (after delay spawn_more g1, rng2).

Definition EnemyGenerator_init (env : Env) (lvl : Z) (fuel : nat)
    (g : Game) (rng : RNG) : res (EnemyGenerator * Game * RNG) :=
  let gen :=
    mkEnemyGenerator lvl
      [RandomMovingEnemy_class; HomingEnemy_class; CampingEnemy_class;
       BouncingEnemy_class; Turret_class] in
  '(g1, rng1) <- initial_enemies env gen fuel g rng ;;
  '(delay, rng2) <- randrange 500 1000 rng1 ;;
  Ok (gen, after delay spawn_more g1, rng2).

(** ** Loading the module

    Python evaluates the default value of a parameter once, when the
    [def] statement runs.  Executing [class CampingEnemy] therefore draws
    [random.randrange(3, 5)] a single time; the value is kept with the
    function and is what every later call that omits [speed] receives.
    [x0] and [y0] are the default position of [gamelib.GameElement]. *)
Definition load_module (x0 y0 : R) (rng : RNG) : res (Env * RNG) :=
  '(v, rng1) <- randrange 3 5 rng ;;
  Ok (mkEnv (IZR v) x0 y0, rng1).

(** ** The session *)

Definition TurtleAdventureGame_init_game (env : Env) (fuel : nat) (g : Game)
    (rng : RNG) : res (EnemyGenerator * Game * RNG) :=
  let tt := RawTurtle.mk 0 0 0 in
  let g1 :=
    mkGame (is_running g) (elements g) (texts g) (timers g) (level g)
      (screen_width g) (screen_height g) (winfo_width g) (winfo_height g)
      (canvas_winfo_width g) (canvas_winfo_height g)
      Waypoint_init
      (mkHome (IZR (screen_width g - 100)) (IZR (screen_height g / 2)) 20)
      (mkPlayer
         (RawTurtle.sety (RawTurtle.setx tt 50) (IZR (screen_height g / 2)))
         5) in
  EnemyGenerator_init env (level g1) fuel g1 rng.

(** The object at place [i] of the collection after its [update]. *)
Definition store (i : nat) (el : Element) (g : Game) : Game :=
  set_elements (firstn i (elements g) ++ el :: skipn (S i) (elements g)) g.

(** [update] of the element at place [self].  The boolean tells whether
    the element is still in the collection afterwards. *)
Definition Element_update (env : Env) (self : nat) (el : Element) (g : Game)
    (rng : RNG) : res (Game * bool * RNG) :=
  match el with
  | ERandomMoving e =>
      '(e1, g1, rng1) <- RandomMovingEnemy_update g e rng ;;
      Ok (store self (ERandomMoving e1) g1, true, rng1)
  | EBouncing e =>
      let (e1, g1) := BouncingEnemy_update g e in
      Ok (store self (EBouncing e1) g1, true, rng)
  | EHoming e =>
      '(e1, g1) <- HomingEnemy_update g e ;;
      Ok (store self (EHoming e1) g1, true, rng)
  | ECamping e =>
      let (e1, g1) := CampingEnemy_update g e in
      Ok (store self (ECamping e1) g1, true, rng)
  | EBullet e =>
      let (e1, g1) := Bullet_update self g e in
      if Bullet_hits_border g1 e1 then Ok (g1, false, rng)
      else Ok (store self (EBullet e1) g1, true, rng)
  | ETurret e =>
      '(e1, g1) <- Turret_update env g e ;;
      Ok (store self (ETurret e1) g1, true, rng)
  end.

(** Modelled from the spec: [Game.update] of module [gamelib] is missing;
    every element that is in the collection when the tick starts is
    updated once, in insertion order, and an element added during the
    tick waits for the next one.  [n] is the number of elements still to
    visit and [i] the place of the next one. *)
Fixpoint update_elements (env : Env) (n i : nat) (g : Game) (rng : RNG)
  : res (Game * RNG) :=
  match n with
  | O => Ok (g, rng)
  | S n' =>
      match nth_error (elements g) i with
      | None => Ok (g, rng)
      | Some el =>
          '(g1, kept, rng1) <- Element_update env i el g rng ;;
          update_elements env n' (if kept : bool then S i else i) g1 rng1
      end
  end.

Definition Game_update (env : Env) (g : Game) (rng : RNG)
  : res (Game * RNG) :=
  let g1 := Player_update g in
  update_elements env (List.length (elements g1)) 0 g1 rng.

(** Modelled from the spec: [Game.animate] of module [gamelib] is missing;
    one tick of the fixed-interval loop: nothing happens once the session
    has stopped, otherwise every element is updated and the next tick is
    scheduled. *)
Definition Game_animate (env : Env) (g : Game) (rng : RNG)
  : res (Game * RNG) :=
  if is_running g then
    '(g1, rng1) <- Game_update env g rng ;;
    Ok (after 33 animate g1, rng1)
  else Ok (g, rng).

(** The timer service runs the pending callback at place [k]. *)
Definition fire (env : Env) (gen : EnemyGenerator) (fuel : nat) (k : nat)
    (g : Game) (rng : RNG) : res (Game * RNG) :=
  match nth_error (timers g) k with
  | None => Ok (g, rng)
  | Some (_, cb) =>
      let g1 := set_timers (firstn k (timers g) ++ skipn (S k) (timers g)) g in
      match cb with
      | animate => Game_animate env g1 rng
      | spawn_more => EnemyGenerator_spawn_more env gen fuel g1 rng
      end
  end.

(** ** Vocabulary of the specification *)

(** The point [(a, b)] lies in the square centred at [(cx, cy)] whose
    half side is [h], edges included. *)
Definition in_square (cx cy h a b : R) : Prop :=
  cx - h <= a <= cx + h /\ cy - h <= b <= cy + h.

(** The Euclidean distance of two points. *)
Definition dist (x1 y1 x2 y2 : R) : R :=
  sqrt ((x2 - x1) * (x2 - x1) + (y2 - y1) * (y2 - y1)).

(** The corners of the patrol square of a camping enemy.  The origin of
    the field is its top-left corner, so [y] grows downwards. *)
Definition top_left (g : Game) (m : R) : R * R :=
  (home_x (home g) - m, home_y (home g) - m).
Definition top_right (g : Game) (m : R) : R * R :=
  (home_x (home g) + m, home_y (home g) - m).
Definition bottom_right (g : Game) (m : R) : R * R :=
  (home_x (home g) + m, home_y (home g) + m).
Definition bottom_left (g : Game) (m : R) : R * R :=
  (home_x (home g) - m, home_y (home g) + m).

(** The movement part of [n] successive updates of a camping enemy. *)
Fixpoint CampingEnemy_run (n : nat) (g : Game) (e : CampingEnemy)
  : CampingEnemy :=
  match n with
  | O => e
  | S n' => CampingEnemy_run n' g (fst (CampingEnemy_update g e))
  end.

Definition position (e : Enemy) : R * R := (x e, y e).

(** ** Vocabulary of the proofs and sample sessions *)

(** The state the player's part of [Player.update] starts from: the game
    after the home test. *)
Definition after_home_test (g : Game) : Game :=
  if Home_contains (home g) (player_x (player g)) (player_y (player g))
  then game_over_win g else g.

(** The mode that follows [m] in the patrol. *)
Definition next_mode (m : Move) : Move :=
  match m with
  | moving_right => moving_down
  | moving_down => moving_left
  | moving_left => moving_up
  | moving_up => moving_right
  end.

(** The corner at the end of the side walked in mode [m]. *)
Definition corner_after (m : Move) (g : Game) (h : R) : R * R :=
  match m with
  | moving_right => top_right g h
  | moving_down => bottom_right g h
  | moving_left => bottom_left g h
  | moving_up => top_left g h
  end.

(** One more step of length [ca_speed] in the current mode reaches or
    passes the end of the side. *)
Definition reaches_corner (g : Game) (e : CampingEnemy) : bool :=
  match ca_state e with
  | moving_right =>
      x (ca_base e) + ca_speed e >=? home_x (home g) + multiplier e
  | moving_down =>
      y (ca_base e) + ca_speed e >=? home_y (home g) + multiplier e
  | moving_left =>
      x (ca_base e) - ca_speed e <=? home_x (home g) - multiplier e
  | moving_up =>
      y (ca_base e) - ca_speed e <=? home_y (home g) - multiplier e
  end.

(** The camping enemy [e] put at the point [c] in mode [m]. *)
Definition camping_at (e : CampingEnemy) (c : R * R) (m : Move)
  : CampingEnemy :=
  mkCampingEnemy
    (mkEnemy (fst c) (snd c) (size (ca_base e)) (color (ca_base e)))
    (ca_speed e) m (multiplier e).

(** One side of the patrol: walking in mode [m] from a point of the
    side, the enemy stays in mode [m] until a step reaches the end of the
    side, where it is put on the corner in the next mode. *)
Definition remaining (g : Game) (e : CampingEnemy) : R :=
  match ca_state e with
  | moving_right => home_x (home g) + multiplier e - x (ca_base e)
  | moving_down => home_y (home g) + multiplier e - y (ca_base e)
  | moving_left => x (ca_base e) - (home_x (home g) - multiplier e)
  | moving_up => y (ca_base e) - (home_y (home g) - multiplier e)
  end.

(** [n] successive updates of a turret, the game threaded through. *)
Fixpoint Turret_run (env : Env) (n : nat) (g : Game) (t : Turret)
  : res (Turret * Game) :=
  match n with
  | O => Ok (t, g)
  | S n' =>
      '(t1, g1) <- Turret_update env g t ;;
      Turret_run env n' g1 t1
  end.

Definition with_timer (t : Turret) (v : Z) : Turret :=
  mkTurret (tu_base t) (bullet_size t) (velocity t) (tu_fire_rate t) v.

(** The offset [d] is one the specification allows for a coordinate [c]
    of a field of the given extent. *)
Definition jitter_allowed (c : R) (extent : Z) (d : Z) : Prop :=
  (c <= 0 -> (0 <= d < 15)%Z)
  /\ (IZR extent <= c -> (-15 <= d < 0)%Z)
  /\ (0 < c < IZR extent -> (-15 <= d < 15)%Z).

(** The enemy [e] moved by the offsets [dx] and [dy]. *)
Definition jittered (e : RandomMovingEnemy) (dx dy : Z) : RandomMovingEnemy :=
  mkRandomMovingEnemy
    (mkEnemy (x (rm_base e) + IZR dx) (y (rm_base e) + IZR dy)
             (size (rm_base e)) (color (rm_base e))).

(** The random source after [k] draws. *)
Definition drop (k : nat) (rng : RNG) : RNG := fun n => rng (k + n)%nat.

(** A session as [init_game] sets it up for a window of 800 by 500 at
    level 1, before any enemy is created. *)
Definition sample_game : Game :=
  mkGame true [] [] [] 1 800 500 800 500 800 500
    Waypoint_init
    (mkHome 700 250 20)
    (mkPlayer (RawTurtle.mk 50 250 0) 5).

(** The modules as loaded when the draw of the default speed gave 3. *)
Definition sample_env : Env := mkEnv 3 0 0.

(** A random enemy well inside the field. *)
Definition sample_random_enemy : RandomMovingEnemy :=
  mkRandomMovingEnemy (mkEnemy 100 100 20 "#7e7e7e").

(** [isinstance(enemy, CampingEnemy)]. *)
Definition is_camping (el : Element) : bool :=
  match el with ECamping _ => true | _ => false end.

(** The [k]-th candidate point drawn by the loop of [create_enemy] when
    the margin [int(size/2)] is [lo]. *)
Definition candidate (g : Game) (lo : Z) (rng : RNG) (k : nat) : Z * Z :=
  ((0 + lo + rng (2 * k)%nat mod (winfo_width g - lo - (0 + lo)))%Z,
   (0 + lo + rng (2 * k + 1)%nat mod (winfo_height g - lo - (0 + lo)))%Z).

(** The test that ends the loop of [create_enemy]. *)
Definition accepted (g : Game) (c : Z * Z) : bool :=
  negb (safe_area g (IZR (fst c)) (IZR (snd c)))
  && negb (home_area g (IZR (fst c)) (IZR (snd c))).

(** The generator of a session at level 1. *)
Definition sample_generator : EnemyGenerator :=
  mkEnemyGenerator 1
    [RandomMovingEnemy_class; HomingEnemy_class; CampingEnemy_class;
     BouncingEnemy_class; Turret_class].

(** A random source whose first raw integers are listed, followed by
    zeros. *)
Definition sample_rng : RNG := fun n => nth n [0; 5; 300; 100; 2; 7]%Z 0%Z.

(** A game that shows the same field, home and player as [sample_game]. *)
Definition same_view (g : Game) : Prop :=
  player g = player sample_game /\ home g = home sample_game
  /\ winfo_width g = 800%Z /\ winfo_height g = 500%Z.

(** The session as the constructor leaves it for a window of 800 by 500
    at level 1, before [init_game] has created its objects. *)
Definition blank_game : Game :=
  mkGame true [] [] [] 1 800 500 800 500 800 500
    Waypoint_init (mkHome 0 0 0) (mkPlayer (RawTurtle.mk 0 0 0) 5).

(** The raw integers drawn while [init_game] creates the five enemies of
    level 1 and schedules [spawn_more], followed by those drawn by the
    first run of [spawn_more]. *)
Definition init_rng : RNG :=
  fun n =>
    nth n [5; 300; 100; 0; 400; 50; 7; 10; 200; 400; 3; 500; 30; 100;
           0; 5; 300; 100; 2; 7]%Z 0%Z.

(** A session in which the player stands exactly [speed] away from the
    active waypoint. *)
Definition arrival_game : Game :=
  mkGame true [] [] [] 1 800 500 800 500 800 500
    (mkWaypoint 53 254 true)
    (mkHome 700 250 20)
    (mkPlayer (RawTurtle.mk 50 250 0) 5).

(** A session in which the player stands on the home while the waypoint
    is active. *)
Definition home_game : Game :=
  mkGame true [] [] [] 1 800 500 800 500 800 500
    (mkWaypoint 100 250 true)
    (mkHome 700 250 20)
    (mkPlayer (RawTurtle.mk 700 250 0) 5).

Definition sample_camping_enemy : CampingEnemy :=
  CampingEnemy_init sample_env sample_game 20 "#ff0000" None.

Definition sample_turret : Turret :=
  mkTurret (mkEnemy 400 100 20 "#ff8929") 5 18 (1000 / (13 / 10)) 0.

(** A homing enemy straight below the player of [sample_game]. *)
Definition sample_homing_enemy : HomingEnemy :=
  mkHomingEnemy (mkEnemy 50 400 20 "#42ffbf") (38 / 10)
    moving_left moving_up.

(** ** Runs of several ticks and their invariants *)

(** [n] successive updates of the player. *)
Fixpoint Player_run (n : nat) (g : Game) : Game :=
  match n with
  | O => g
  | S n' => Player_run n' (Player_update g)
  end.

(** The distance from the player to the waypoint. *)
Definition waypoint_distance (g : Game) : R :=
  dist (player_x (player g)) (player_y (player g))
       (waypoint_x (waypoint g)) (waypoint_y (waypoint g)).

(** The movement part of [n] successive updates of a bouncing enemy. *)
Fixpoint BouncingEnemy_run (n : nat) (g : Game) (e : BouncingEnemy)
  : BouncingEnemy :=
  match n with
  | O => e
  | S n' => BouncingEnemy_run n' g (fst (BouncingEnemy_update g e))
  end.

(** A bouncing enemy heads for the far edge from inside the field or
    from one step before it, and heads back from at most one step beyond
    it. *)
Definition bouncing (g : Game) (e : BouncingEnemy) : Prop :=
  (bo_xstate e = moving_right
   /\ - bo_xspeed e <= x (bo_base e) < IZR (canvas_winfo_width g)
   \/ bo_xstate e = moving_left
      /\ 0 < x (bo_base e) <= IZR (canvas_winfo_width g) + bo_xspeed e)
  /\ (bo_ystate e = moving_down
      /\ - bo_yspeed e <= y (bo_base e) < IZR (canvas_winfo_height g)
      \/ bo_ystate e = moving_up
         /\ 0 < y (bo_base e) <= IZR (canvas_winfo_height g) + bo_yspeed e).

(** The position is inside the field enlarged by [mx] and [my]. *)
Definition within (g_width g_height : Z) (mx my : R) (e : Enemy) : Prop :=
  - mx <= x e <= IZR g_width + mx /\ - my <= y e <= IZR g_height + my.

(** A camping enemy is on the side of the patrol square that its mode
    walks. *)
Definition on_patrol (g : Game) (e : CampingEnemy) : Prop :=
  let hx := home_x (home g) in
  let hy := home_y (home g) in
  let m := multiplier e in
  match ca_state e with
  | moving_right =>
      y (ca_base e) = hy - m /\ hx - m <= x (ca_base e) <= hx + m
  | moving_down =>
      x (ca_base e) = hx + m /\ hy - m <= y (ca_base e) <= hy + m
  | moving_left =>
      y (ca_base e) = hy + m /\ hx - m <= x (ca_base e) <= hx + m
  | moving_up =>
      x (ca_base e) = hx - m /\ hy - m <= y (ca_base e) <= hy + m
  end.

(** Where the bullet [b] is after [k] of the ten sub-steps of an update. *)
Definition Bullet_at (b : Bullet) (k : nat) : Enemy :=
  mkEnemy (x (bu_base b) + INR k * (bu_xspeed b / 10))
          (y (bu_base b) + INR k * (bu_yspeed b / 10))
          (size (bu_base b)) (color (bu_base b)).

(** The class of an element, when it is one the generator creates. *)
Definition class_of (el : Element) : option EnemyType :=
  match el with
  | ERandomMoving _ => Some RandomMovingEnemy_class
  | EBouncing _ => Some BouncingEnemy_class
  | EHoming _ => Some HomingEnemy_class
  | ECamping _ => Some CampingEnemy_class
  | EBullet _ => None
  | ETurret _ => Some Turret_class
  end.

(** The element [el] answers the request [ty] of [create_enemy]: it is
    of the class asked for, or of one of the generator's classes when
    none was asked for. *)
Definition answers (gen : EnemyGenerator) (ty : option EnemyType)
    (el : Element) : Prop :=
  match ty with
  | Some c => class_of el = Some c
  | None => exists c, In c (enemies gen) /\ class_of el = Some c
  end.

(** Everything in the game but its collection of elements. *)
Definition same_but_elements (g g' : Game) : Prop :=
  is_running g' = is_running g /\ texts g' = texts g
  /\ timers g' = timers g /\ level g' = level g
  /\ winfo_width g' = winfo_width g /\ winfo_height g' = winfo_height g
  /\ waypoint g' = waypoint g /\ home g' = home g /\ player g' = player g.

(** A session whose window of 150 by 150 lies inside the safe zone of
    its player. *)
Definition tiny_game : Game :=
  mkGame true [] [] [] 1 150 150 150 150 150 150
    Waypoint_init (mkHome 50 75 20) (mkPlayer (RawTurtle.mk 50 75 0) 5).

(** A session whose player has walked far below the home. *)
Definition far_game : Game :=
  mkGame true [] [] [] 1 800 500 800 500 800 500
    Waypoint_init (mkHome 700 250 20) (mkPlayer (RawTurtle.mk 400 450 0) 5).

(** A session whose window is 10 wide: too narrow for any enemy. *)
Definition narrow_game : Game :=
  mkGame true [] [] [] 1 10 500 10 500 10 500
    Waypoint_init (mkHome (-90) 250 20) (mkPlayer (RawTurtle.mk 50 250 0) 5).

(** A bouncing enemy and a homing enemy as [create_enemy] places them in
    [sample_game]. *)
Definition sample_bouncing_enemy : BouncingEnemy :=
  mkBouncingEnemy (mkEnemy 212 412 25 "#a72afe") 5 5 moving_right moving_down.

Definition sample_placed_homing : HomingEnemy :=
  mkHomingEnemy (mkEnemy 407 57 15 "#42ffbf") (38 / 10)
    moving_right moving_down.

(** The raw integers that make [create_enemy] build an enemy of size 15
    at [(407, 57)]. *)
Definition homing_rng : RNG := fun n => nth n [0; 400; 50]%Z 0%Z.

(** ** Vocabulary of the processes

    A process starts when the module is loaded and goes on with the
    session and its timers. *)

(** A camping enemy moves at the default speed of the loaded module. *)
Definition default_speed (env : Env) (el : Element) : Prop :=
  match el with
  | ECamping c => ca_speed c = CampingEnemy_speed_default env
  | _ => True
  end.

(** The process after [init_game]: the timer service runs, one after the
    other, the pending callbacks at the places [ks]. *)
Fixpoint session (env : Env) (gen : EnemyGenerator) (fuel : nat)
    (ks : list nat) (g : Game) (rng : RNG) : res (Game * RNG) :=
  match ks with
  | [] => Ok (g, rng)
  | k :: ks' =>
      '(g1, rng1) <- fire env gen fuel k g rng ;;
      session env gen fuel ks' g1 rng1
  end.

(** The raw integers of a process: the draw made while the module is
    loaded, then those of [init_rng]. *)
Definition load_rng : RNG :=
  fun n => match n with O => 0%Z | S m => init_rng m end.

(** The raw integers that make [create_enemy] choose the first class and
    the size 20, then draw the candidates [(70, 270)], [(700, 250)] and
    [(310, 110)]. *)
Definition resample_rng : RNG :=
  fun n => nth n [0; 5; 60; 260; 690; 240; 300; 100]%Z 0%Z.

(** * Properties *)

(** ** Comparisons *)

Lemma Rleb_true (a b : R) : (a <=? b) = true <-> a <= b.
Proof. unfold Rleb; destruct (Rle_dec a b); split; intros; congruence || lra. Qed.

Lemma Rleb_false (a b : R) : (a <=? b) = false <-> b < a.
Proof. unfold Rleb; destruct (Rle_dec a b); split; intros; congruence || lra. Qed.

Lemma Rltb_true (a b : R) : (a <? b) = true <-> a < b.
Proof. unfold Rltb; destruct (Rlt_dec a b); split; intros; congruence || lra. Qed.

Lemma Rltb_false (a b : R) : (a <? b) = false <-> b <= a.
Proof. unfold Rltb; destruct (Rlt_dec a b); split; intros; congruence || lra. Qed.

Lemma Rgeb_true (a b : R) : (a >=? b) = true <-> b <= a.
Proof. unfold Rgeb; destruct (Rge_dec a b); split; intros; congruence || lra. Qed.

Lemma Rgeb_false (a b : R) : (a >=? b) = false <-> a < b.
Proof. unfold Rgeb; destruct (Rge_dec a b); split; intros; congruence || lra. Qed.

Lemma Reqb_true (a b : R) : (a =? b) = true <-> a = b.
Proof. unfold Reqb; destruct (Req_dec_T a b); split; intros; congruence || lra. Qed.

Lemma Reqb_false (a b : R) : (a =? b) = false <-> a <> b.
Proof. unfold Reqb; destruct (Req_dec_T a b); split; intros; congruence. Qed.

Lemma between_true (a b c : R) : between a b c = true <-> a <= b <= c.
Proof.
  unfold between. rewrite andb_true_iff, !Rleb_true. tauto.
Qed.

Lemma between_false (a b c : R) : between a b c = false <-> b < a \/ c < b.
Proof.
  unfold between. rewrite andb_false_iff, !Rleb_false. tauto.
Qed.

(** ** Collision *)

(** C1.  [hits_player] answers true exactly when the player's position
    lies in the square of side [size] centred on the enemy, or the
    enemy's centre lies in the square of half side 7 centred on the
    player; every edge of both squares is included. *)
Theorem hits_player_iff (g : Game) (e : Enemy) :
  hits_player g e = true <->
  in_square (x e) (y e) (size e / 2)
            (player_x (player g)) (player_y (player g))
  \/ in_square (player_x (player g)) (player_y (player g)) 7 (x e) (y e).
Proof.
  unfold hits_player, in_square.
  rewrite orb_true_iff, !andb_true_iff, !between_true.
  tauto.
Qed.

(** ** Trigonometry *)

Lemma sqrt_ratio (a b : R) :
  a <> 0 -> sqrt (1 + (b / a)²) = sqrt (a * a + b * b) / Rabs a.
Proof.
  intros Ha.
  assert (Hd : 0 <= a * a + b * b) by nra.
  assert (Hab : 0 < Rabs a) by (apply Rabs_pos_lt; exact Ha).
  apply sqrt_lem_1.
  - unfold Rsqr. nra.
  - apply Rmult_le_pos; [apply sqrt_pos | left; apply Rinv_0_lt_compat; exact Hab].
  - unfold Rdiv, Rsqr.
    replace (sqrt (a * a + b * b) * / Rabs a * (sqrt (a * a + b * b) * / Rabs a))
      with ((sqrt (a * a + b * b) * sqrt (a * a + b * b)) * / (Rabs a * Rabs a))
      by (field; lra).
    rewrite sqrt_sqrt by exact Hd.
    replace (Rabs a * Rabs a) with (a * a)
      by (unfold Rabs; destruct (Rcase_abs a); ring).
    field. exact Ha.
Qed.

Lemma cos_atan_ratio (a b : R) :
  a <> 0 -> cos (atan (b / a)) * sqrt (a * a + b * b) = Rabs a.
Proof.
  intros Ha. rewrite cos_atan, sqrt_ratio by exact Ha.
  assert (0 < Rabs a) by (apply Rabs_pos_lt; exact Ha).
  assert (0 < sqrt (a * a + b * b)) by (apply sqrt_lt_R0; nra).
  field. split; lra.
Qed.

Lemma sin_atan_ratio (a b : R) :
  a <> 0 -> sin (atan (b / a)) * sqrt (a * a + b * b) = b / a * Rabs a.
Proof.
  intros Ha. rewrite sin_atan, sqrt_ratio by exact Ha.
  assert (0 < Rabs a) by (apply Rabs_pos_lt; exact Ha).
  assert (0 < sqrt (a * a + b * b)) by (apply sqrt_lt_R0; nra).
  field. repeat split; lra.
Qed.

Lemma atan2_direction (b a : R) :
  a <> 0 \/ b <> 0 ->
  cos (RawTurtle.atan2 b a) * sqrt (a * a + b * b) = a
  /\ sin (RawTurtle.atan2 b a) * sqrt (a * a + b * b) = b.
Proof.
  intros Hnz. unfold RawTurtle.atan2.
  destruct (0 <? a) eqn:Hpos.
  - apply Rltb_true in Hpos.
    rewrite cos_atan_ratio, sin_atan_ratio by lra.
    rewrite Rabs_right by lra. split; [reflexivity | field; lra].
  - apply Rltb_false in Hpos.
    destruct (a <? 0) eqn:Hneg.
    + apply Rltb_true in Hneg.
      assert (Hc := cos_atan_ratio a b ltac:(lra)).
      assert (Hs := sin_atan_ratio a b ltac:(lra)).
      rewrite Rabs_left in Hc, Hs by lra.
      assert (Hs' : sin (atan (b / a)) * sqrt (a * a + b * b) = - b)
        by (rewrite Hs; field; lra).
      destruct (0 <=? b).
      * rewrite neg_cos, neg_sin. split; nra.
      * rewrite cos_minus, sin_minus, cos_PI, sin_PI. split; nra.
    + apply Rltb_false in Hneg.
      assert (a = 0) by lra. subst a.
      replace (0 * 0 + b * b) with (Rsqr b) by (unfold Rsqr; ring).
      rewrite sqrt_Rsqr_abs.
      destruct (0 <? b) eqn:Hb.
      * apply Rltb_true in Hb. rewrite cos_PI2, sin_PI2, Rabs_right by lra.
        split; ring.
      * apply Rltb_false in Hb.
        destruct (b <? 0) eqn:Hb'.
        -- apply Rltb_true in Hb'.
           rewrite cos_neg, sin_neg, cos_PI2, sin_PI2, Rabs_left by lra.
           split; ring.
        -- apply Rltb_false in Hb'. exfalso. destruct Hnz; lra.
Qed.

(** ** Player *)

Lemma game_over_win_waypoint g : waypoint (game_over_win g) = waypoint g.
Proof. reflexivity. Qed.

Lemma game_over_win_player g : player (game_over_win g) = player g.
Proof. reflexivity. Qed.

Lemma sqrt_scaled_unit (s c d : R) :
  c * c + d * d = 1 -> sqrt ((s * c) * (s * c) + (s * d) * (s * d)) = Rabs s.
Proof.
  intros H.
  replace ((s * c) * (s * c) + (s * d) * (s * d)) with (Rsqr s)
    by (unfold Rsqr; nra).
  apply sqrt_Rsqr_abs.
Qed.

Lemma after_home_test_waypoint g : waypoint (after_home_test g) = waypoint g.
Proof. unfold after_home_test; destruct Home_contains; reflexivity. Qed.

Lemma after_home_test_player g : player (after_home_test g) = player g.
Proof. unfold after_home_test; destruct Home_contains; reflexivity. Qed.

Lemma Player_update_active (g : Game) :
  is_active (waypoint g) = true ->
  let tt := turtle (player g) in
  let wp := waypoint g in
  let h := RawTurtle.towards tt (waypoint_x wp) (waypoint_y wp) in
  let tt2 := RawTurtle.forward (RawTurtle.setheading tt h) (player_speed (player g)) in
  player (Player_update g) = mkPlayer tt2 (player_speed (player g))
  /\ waypoint (Player_update g) =
     if RawTurtle.distance tt2 (waypoint_x wp) (waypoint_y wp) <? player_speed (player g)
     then Waypoint_deactivate wp else wp.
Proof.
  intros Hact. unfold Player_update. fold (after_home_test g).
  rewrite after_home_test_waypoint, after_home_test_player, Hact.
  cbn zeta. cbn [player set_player player_speed].
  destruct (_ <? _); split; cbn; rewrite ?after_home_test_waypoint; reflexivity.
Qed.

(** C3.  With the waypoint active, [Player.update] turns the player
    towards the waypoint and moves it by exactly [speed] along that
    heading; the waypoint is deactivated exactly when the distance from
    the new position to the waypoint is strictly less than [speed], so a
    player exactly [speed] away lands on the waypoint and deactivates it
    in one tick.  With the waypoint inactive the position does not
    change. *)
Theorem Player_update_waypoint (g : Game) :
  let px := player_x (player g) in
  let py := player_y (player g) in
  let wx := waypoint_x (waypoint g) in
  let wy := waypoint_y (waypoint g) in
  let speed := player_speed (player g) in
  let g' := Player_update g in
  let px' := player_x (player g') in
  let py' := player_y (player g') in
  (is_active (waypoint g) = true ->
   let h := RawTurtle.heading (turtle (player g')) in
   (wx <> px \/ wy <> py ->
    cos h * dist px py wx wy = wx - px /\ sin h * dist px py wx wy = wy - py)
   /\ px' = px + speed * cos h
   /\ py' = py + speed * sin h
   /\ dist px py px' py' = Rabs speed
   /\ (is_active (waypoint g') = false <-> dist px' py' wx wy < speed)
   /\ (0 < speed -> dist px py wx wy = speed ->
       is_active (waypoint g') = false /\ px' = wx /\ py' = wy))
  /\ (is_active (waypoint g) = false -> px' = px /\ py' = py).
Proof.
  intros px py wx wy speed g' px' py'.
  subst px py px' py'. unfold player_x, player_y.
  set (px := RawTurtle.xcor (turtle (player g))).
  set (py := RawTurtle.ycor (turtle (player g))).
  split.
  - intros Hact.
    destruct (Player_update_active g Hact) as [Hp Hw].
    fold g' in Hp, Hw. rewrite Hp. cbn.
    fold px py wx wy speed.
    set (h := RawTurtle.atan2 (wy - py) (wx - px)).
    change (RawTurtle.towards (turtle (player g)) wx wy) with h.
    assert (Hdir : wx <> px \/ wy <> py ->
                   cos h * dist px py wx wy = wx - px
                   /\ sin h * dist px py wx wy = wy - py).
    { intros Hne. apply atan2_direction. destruct Hne; [left | right]; lra. }
    assert (Hunit : cos h * cos h + sin h * sin h = 1).
    { generalize (sin2_cos2 h). unfold Rsqr. lra. }
    assert (Hw' : waypoint g' =
                  if dist (px + speed * cos h) (py + speed * sin h) wx wy <? speed
                  then Waypoint_deactivate (waypoint g) else waypoint g).
    { rewrite Hw. reflexivity. }
    clear Hw.
    split; [exact Hdir |].
    split; [reflexivity |].
    split; [reflexivity |].
    split.
    { unfold dist.
      replace (px + speed * cos h - px) with (speed * cos h) by ring.
      replace (py + speed * sin h - py) with (speed * sin h) by ring.
      apply sqrt_scaled_unit. exact Hunit. }
    split.
    { rewrite Hw'. unfold dist.
      destruct (_ <? _) eqn:Hlt.
      - apply Rltb_true in Hlt. unfold dist in Hlt. cbn. split; [intros _; exact Hlt | reflexivity].
      - apply Rltb_false in Hlt. unfold dist in Hlt.
        split; [ | intros; lra]. congruence. }
    intros Hs Hd.
    assert (Hne : wx <> px \/ wy <> py).
    { destruct (Req_dec wx px) as [Hx|Hx]; [|left; exact Hx].
      destruct (Req_dec wy py) as [Hy|Hy]; [|right; exact Hy].
      exfalso. unfold dist in Hd. rewrite Hx, Hy in Hd.
      replace ((px - px) * (px - px) + (py - py) * (py - py)) with 0 in Hd by ring.
      rewrite sqrt_0 in Hd. lra. }
    destruct (Hdir Hne) as [Hc Hsn]. rewrite Hd in Hc, Hsn.
    assert (Hx' : px + speed * cos h = wx) by lra.
    assert (Hy' : py + speed * sin h = wy) by lra.
    split; [| split; assumption].
    rewrite Hw', Hx', Hy'. unfold dist.
    replace ((wx - wx) * (wx - wx) + (wy - wy) * (wy - wy)) with 0 by ring.
    rewrite sqrt_0.
    destruct (0 <? speed) eqn:E; [reflexivity | apply Rltb_false in E; lra].
  - intros Hin. subst g'. unfold Player_update.
    fold (after_home_test g).
    rewrite after_home_test_waypoint, Hin.
    rewrite after_home_test_player. split; reflexivity.
Qed.

Lemma Player_update_flags (g : Game) :
  is_running (Player_update g) = is_running (after_home_test g)
  /\ texts (Player_update g) = texts (after_home_test g).
Proof.
  unfold Player_update. fold (after_home_test g).
  destruct (is_active (waypoint (after_home_test g))); [| split; reflexivity].
  cbn zeta. destruct (_ <? _); split; reflexivity.
Qed.

(** C9.  When the home contains the player at the start of
    [Player.update], [game_over_win] is called (the session stops and the
    banner is drawn) and the method goes on: with the waypoint active the
    player still turns towards it, advances by [speed], and the waypoint
    is deactivated when the new distance is below [speed]. *)
Theorem Player_update_at_home (g : Game) :
  Home_contains (home g) (player_x (player g)) (player_y (player g)) = true ->
  let g' := Player_update g in
  let wx := waypoint_x (waypoint g) in
  let wy := waypoint_y (waypoint g) in
  is_running g' = false
  /\ texts g' = texts g ++ ["You Win"%string]
  /\ (is_active (waypoint g) = true ->
      let h := RawTurtle.towards (turtle (player g)) wx wy in
      RawTurtle.heading (turtle (player g')) = h
      /\ player_x (player g') = player_x (player g) + player_speed (player g) * cos h
      /\ player_y (player g') = player_y (player g) + player_speed (player g) * sin h
      /\ is_active (waypoint g') =
         negb (dist (player_x (player g')) (player_y (player g')) wx wy
               <? player_speed (player g))).
Proof.
  intros Hhome g' wx wy.
  destruct (Player_update_flags g) as [Hrun Htexts].
  unfold after_home_test in Hrun, Htexts. rewrite Hhome in Hrun, Htexts.
  split; [exact Hrun |]. split; [exact Htexts |].
  intros Hact h.
  destruct (Player_update_active g Hact) as [Hp Hw].
  fold g' in Hp, Hw.
  unfold player_x, player_y. rewrite Hp, Hw. cbn.
  repeat split.
  unfold dist, RawTurtle.towards. fold wx wy.
  destruct (_ <? _); cbn; [reflexivity | exact Hact].
Qed.

Lemma home_game_at_home :
  Home_contains (home home_game) (player_x (player home_game))
    (player_y (player home_game)) = true.
Proof.
  unfold Home_contains. cbn. apply andb_true_iff.
  split; apply between_true; lra.
Qed.

Lemma Player_update_at_home_witness :
  is_running (Player_update home_game) = false
  /\ texts (Player_update home_game) = ["You Win"%string]
  /\ player_x (player (Player_update home_game))
     = 700 + 5 * cos (RawTurtle.towards (RawTurtle.mk 700 250 0) 100 250).
Proof.
  destruct (Player_update_at_home home_game home_game_at_home)
    as (Hrun & Htexts & Hmove).
  destruct (Hmove eq_refl) as (_ & Hx & _).
  split; [exact Hrun |]. split; [exact Htexts | exact Hx].
Defined.

Lemma arrival_distance : dist 50 250 53 254 = 5.
Proof.
  unfold dist. apply sqrt_lem_1; lra.
Qed.

Lemma Player_update_waypoint_witness :
  is_active (waypoint (Player_update arrival_game)) = false
  /\ player_x (player (Player_update arrival_game)) = 53
  /\ player_y (player (Player_update arrival_game)) = 254.
Proof.
  destruct (Player_update_waypoint arrival_game) as [Hactive _].
  destruct (Hactive eq_refl) as (_ & _ & _ & _ & _ & Harrive).
  apply Harrive; [cbn; lra | exact arrival_distance].
Defined.

(** ** CampingEnemy *)

Lemma nat_above (r : R) : exists n : nat, r <= INR n.
Proof.
  destruct (Rle_dec r 0) as [Hr | Hr].
  - exists O. simpl. exact Hr.
  - destruct (archimed r) as [Hup _].
    exists (Z.to_nat (up r)).
    rewrite INR_IZR_INZ, Z2Nat.id.
    + lra.
    + apply le_IZR. lra.
Qed.

Lemma CampingEnemy_run_add (n k : nat) (g : Game) (e : CampingEnemy) :
  CampingEnemy_run (n + k) g e = CampingEnemy_run k g (CampingEnemy_run n g e).
Proof.
  revert e. induction n as [|n IH]; intros e; simpl; [reflexivity | apply IH].
Qed.

Lemma CampingEnemy_step (g : Game) (e : CampingEnemy) :
  let e' := fst (CampingEnemy_update g e) in
  (reaches_corner g e = true ->
   e' = camping_at e (corner_after (ca_state e) g (multiplier e))
                   (next_mode (ca_state e)))
  /\ (reaches_corner g e = false ->
      ca_state e' = ca_state e /\ ca_speed e' = ca_speed e
      /\ multiplier e' = multiplier e
      /\ remaining g e' = remaining g e - ca_speed e).
Proof.
  destruct e as [[ex ey es ec] sp st m].
  unfold reaches_corner, remaining, CampingEnemy_update, CampingEnemy_call.
  destruct st; cbn;
    unfold CampingEnemy_moving_right, CampingEnemy_moving_down,
      CampingEnemy_moving_left, CampingEnemy_moving_up; cbn;
    (split; intros H; rewrite H; cbn; [reflexivity | repeat split; ring]).
Qed.

Lemma camping_at_fields (e : CampingEnemy) (c : R * R) (m : Move) :
  ca_speed (camping_at e c m) = ca_speed e
  /\ multiplier (camping_at e c m) = multiplier e
  /\ ca_state (camping_at e c m) = m.
Proof. repeat split. Qed.

Lemma CampingEnemy_side (g : Game) (n : nat) :
  forall e : CampingEnemy,
    0 < ca_speed e ->
    remaining g e <= INR n * ca_speed e ->
    exists k : nat,
      (0 < k)%nat
      /\ CampingEnemy_run k g e =
         camping_at e (corner_after (ca_state e) g (multiplier e))
                      (next_mode (ca_state e))
      /\ forall j : nat, (j < k)%nat ->
           ca_state (CampingEnemy_run j g e) = ca_state e.
Proof.
  induction n as [|n IH]; intros e Hs Hrem.
  - exists 1%nat. split; [lia |]. split.
    + simpl. apply (CampingEnemy_step g e).
      simpl in Hrem. unfold remaining in Hrem. unfold reaches_corner.
      destruct (ca_state e);
        [apply Rgeb_true | apply Rgeb_true | apply Rleb_true | apply Rleb_true];
        lra.
    + intros j Hj. assert (j = O) by lia. subst j. reflexivity.
  - destruct (reaches_corner g e) eqn:Hr.
    + exists 1%nat. split; [lia |]. split.
      * simpl. apply (CampingEnemy_step g e). exact Hr.
      * intros j Hj. assert (j = O) by lia. subst j. reflexivity.
    + destruct (CampingEnemy_step g e) as [_ Hstep].
      destruct (Hstep Hr) as (Hst & Hsp & Hm & Hrem').
      set (e1 := fst (CampingEnemy_update g e)) in *.
      destruct (IH e1) as (k & Hk & Hrun & Hmode).
      * rewrite Hsp. exact Hs.
      * rewrite Hrem', Hsp. rewrite S_INR in Hrem. lra.
      * exists (S k). split; [lia |]. split.
        -- change (CampingEnemy_run (S k) g e) with (CampingEnemy_run k g e1).
           rewrite Hrun, Hst, Hm.
           unfold camping_at. rewrite Hsp, Hm.
           assert (Hb : size (ca_base e1) = size (ca_base e)
                        /\ color (ca_base e1) = color (ca_base e)).
           { subst e1. destruct e as [[ex ey es ec] sp st m].
             unfold CampingEnemy_update, CampingEnemy_call.
             destruct st; cbn;
               unfold CampingEnemy_moving_right, CampingEnemy_moving_down,
                 CampingEnemy_moving_left, CampingEnemy_moving_up; cbn;
               destruct (_ : bool); split; reflexivity. }
           destruct Hb as [-> ->]. reflexivity.
        -- intros j Hj. destruct j as [|j]; [reflexivity |].
           change (CampingEnemy_run (S j) g e) with (CampingEnemy_run j g e1).
           rewrite Hmode by lia. exact Hst.
Qed.

Lemma camping_at_again (e : CampingEnemy) (c c' : R * R) (m m' : Move) :
  camping_at (camping_at e c m) c' m' = camping_at e c' m'.
Proof. reflexivity. Qed.

(** A side walked from any point of it, whatever its length. *)
Lemma CampingEnemy_side_from (g : Game) (e : CampingEnemy) (c : R * R)
    (m : Move) :
  0 < ca_speed e ->
  exists k : nat,
    (0 < k)%nat
    /\ CampingEnemy_run k g (camping_at e c m) =
       camping_at e (corner_after m g (multiplier e)) (next_mode m)
    /\ forall j : nat, (j < k)%nat ->
         ca_state (CampingEnemy_run j g (camping_at e c m)) = m.
Proof.
  intros Hs.
  destruct (nat_above (remaining g (camping_at e c m) / ca_speed e))
    as [n Hn].
  destruct (CampingEnemy_side g n (camping_at e c m)) as (k & Hk & Hrun & Hj).
  - exact Hs.
  - change (ca_speed (camping_at e c m)) with (ca_speed e).
    apply (Rmult_le_compat_r (ca_speed e)) in Hn; [| lra].
    unfold Rdiv in Hn. rewrite Rmult_assoc, Rinv_l, Rmult_1_r in Hn by lra.
    exact Hn.
  - exists k. split; [exact Hk |]. split; [exact Hrun | exact Hj].
Qed.

(** C5.  The half side of the patrol square is [Home.size/2 * 5].  An
    update that reaches the end of the side being walked puts the enemy
    exactly on that corner and switches to the next mode of the cycle
    right, down, left, up; otherwise the mode is kept.  With a positive
    speed an enemy started on the top-left corner in mode right reaches
    the top-right, bottom-right and bottom-left corners in that order and
    comes back to its start, walking each side in the matching mode. *)
Theorem CampingEnemy_patrol (g : Game) (e : CampingEnemy) :
  let m := multiplier e in
  (forall (env : Env) (sz : R) (col : string) (sp : option R),
      multiplier (CampingEnemy_init env g sz col sp)
      = IZR (home_size (home g)) / 2 * 5)
  /\ (let e' := fst (CampingEnemy_update g e) in
      (reaches_corner g e = true ->
       position (ca_base e') = corner_after (ca_state e) g m
       /\ ca_state e' = next_mode (ca_state e))
      /\ (reaches_corner g e = false -> ca_state e' = ca_state e))
  /\ (0 < ca_speed e ->
      let start := camping_at e (top_left g m) moving_right in
      exists n1 n2 n3 n4 : nat,
        (0 < n1 < n2)%nat /\ (n2 < n3 < n4)%nat
        /\ CampingEnemy_run n1 g start = camping_at e (top_right g m) moving_down
        /\ CampingEnemy_run n2 g start = camping_at e (bottom_right g m) moving_left
        /\ CampingEnemy_run n3 g start = camping_at e (bottom_left g m) moving_up
        /\ CampingEnemy_run n4 g start = start
        /\ forall j : nat,
             ((j < n1)%nat -> ca_state (CampingEnemy_run j g start) = moving_right)
             /\ ((n1 <= j < n2)%nat -> ca_state (CampingEnemy_run j g start) = moving_down)
             /\ ((n2 <= j < n3)%nat -> ca_state (CampingEnemy_run j g start) = moving_left)
             /\ ((n3 <= j < n4)%nat -> ca_state (CampingEnemy_run j g start) = moving_up)).
Proof.
  intros m. split; [reflexivity |]. split.
  - destruct (CampingEnemy_step g e) as [Hyes Hno]. split.
    + intros Hr. rewrite (Hyes Hr). split; [| reflexivity].
      destruct (ca_state e); reflexivity.
    + intros Hr. apply (Hno Hr).
  - intros Hs start.
    destruct (CampingEnemy_side_from g e (top_left g m) moving_right Hs)
      as (k1 & Hk1 & Hrun1 & Hj1).
    destruct (CampingEnemy_side_from g e (top_right g m) moving_down Hs)
      as (k2 & Hk2 & Hrun2 & Hj2).
    destruct (CampingEnemy_side_from g e (bottom_right g m) moving_left Hs)
      as (k3 & Hk3 & Hrun3 & Hj3).
    destruct (CampingEnemy_side_from g e (bottom_left g m) moving_up Hs)
      as (k4 & Hk4 & Hrun4 & Hj4).
    cbn [corner_after next_mode] in *. fold m in Hrun1, Hrun2, Hrun3, Hrun4.
    fold start in Hrun1, Hj1.
    assert (H2 : CampingEnemy_run (k1 + k2) g start
                 = camping_at e (bottom_right g m) moving_left)
      by (rewrite CampingEnemy_run_add, Hrun1; exact Hrun2).
    assert (H3 : CampingEnemy_run (k1 + k2 + k3) g start
                 = camping_at e (bottom_left g m) moving_up)
      by (rewrite CampingEnemy_run_add, H2; exact Hrun3).
    assert (H4 : CampingEnemy_run (k1 + k2 + k3 + k4) g start = start)
      by (rewrite CampingEnemy_run_add, H3; exact Hrun4).
    exists k1, (k1 + k2)%nat, (k1 + k2 + k3)%nat, (k1 + k2 + k3 + k4)%nat.
    repeat (split; [first [lia | assumption] |]).
    intros j. repeat split; intros Hj.
    + apply Hj1. exact Hj.
    + replace j with (k1 + (j - k1))%nat by lia.
      rewrite CampingEnemy_run_add, Hrun1. apply Hj2. lia.
    + replace j with (k1 + k2 + (j - (k1 + k2)))%nat by lia.
      rewrite CampingEnemy_run_add, H2. apply Hj3. lia.
    + replace j with (k1 + k2 + k3 + (j - (k1 + k2 + k3)))%nat by lia.
      rewrite CampingEnemy_run_add, H3. apply Hj4. lia.
Qed.

Lemma CampingEnemy_patrol_witness :
  let m := multiplier sample_camping_enemy in
  let start := camping_at sample_camping_enemy (top_left sample_game m) moving_right in
  exists n1 n2 n3 n4 : nat,
    (0 < n1 < n2)%nat /\ (n2 < n3 < n4)%nat
    /\ CampingEnemy_run n1 sample_game start
       = camping_at sample_camping_enemy (top_right sample_game m) moving_down
    /\ CampingEnemy_run n2 sample_game start
       = camping_at sample_camping_enemy (bottom_right sample_game m) moving_left
    /\ CampingEnemy_run n3 sample_game start
       = camping_at sample_camping_enemy (bottom_left sample_game m) moving_up
    /\ CampingEnemy_run n4 sample_game start = start.
Proof.
  intros m start.
  destruct (CampingEnemy_patrol sample_game sample_camping_enemy)
    as (_ & _ & Hcycle).
  destruct (Hcycle ltac:(cbn; lra))
    as (n1 & n2 & n3 & n4 & H12 & H34 & H1 & H2 & H3 & H4 & _).
  exists n1, n2, n3, n4. repeat split; try assumption; lia.
Defined.

(** ** Division guards *)

Lemma py_div_ok (a b : R) : b <> 0 -> py_div a b = Ok (a / b).
Proof.
  intros Hb. unfold py_div.
  destruct (b =? 0) eqn:E; [apply Reqb_true in E; contradiction | reflexivity].
Qed.

Lemma Rabs_diff_nonzero (a b : R) : a - b <> 0 -> Rabs (a - b) <> 0.
Proof. intros H. apply Rabs_no_R0. exact H. Qed.

(** The four movement methods of a homing enemy never raise. *)
Lemma HomingEnemy_moving_right_ok (g : Game) (e : HomingEnemy) :
  exists e', HomingEnemy_moving_right g e = Ok e'.
Proof.
  unfold HomingEnemy_moving_right.
  destruct (_ - _ =? 0) eqn:E; cbn; [eexists; reflexivity |].
  apply Reqb_false in E. rewrite py_div_ok by (apply Rabs_diff_nonzero; exact E).
  cbn. eexists; reflexivity.
Qed.

Lemma HomingEnemy_moving_left_ok (g : Game) (e : HomingEnemy) :
  exists e', HomingEnemy_moving_left g e = Ok e'.
Proof.
  unfold HomingEnemy_moving_left.
  destruct (_ - _ =? 0) eqn:E; cbn; [eexists; reflexivity |].
  apply Reqb_false in E. rewrite py_div_ok by (apply Rabs_diff_nonzero; exact E).
  cbn. eexists; reflexivity.
Qed.

Lemma HomingEnemy_moving_down_ok (g : Game) (e : HomingEnemy) :
  exists e', HomingEnemy_moving_down g e = Ok e'.
Proof.
  unfold HomingEnemy_moving_down.
  destruct (_ - _ =? 0) eqn:E; cbn; [eexists; reflexivity |].
  apply Reqb_false in E. rewrite py_div_ok by (apply Rabs_diff_nonzero; exact E).
  cbn. eexists; reflexivity.
Qed.

Lemma HomingEnemy_moving_up_ok (g : Game) (e : HomingEnemy) :
  exists e', HomingEnemy_moving_up g e = Ok e'.
Proof.
  unfold HomingEnemy_moving_up.
  destruct (_ - _ =? 0) eqn:E; cbn; [eexists; reflexivity |].
  apply Reqb_false in E. rewrite py_div_ok by (apply Rabs_diff_nonzero; exact E).
  cbn. eexists; reflexivity.
Qed.

Lemma HomingEnemy_call_ok (m : Move) (g : Game) (e : HomingEnemy) :
  exists e', HomingEnemy_call m g e = Ok e'.
Proof.
  destruct m; cbn;
    [apply HomingEnemy_moving_right_ok | apply HomingEnemy_moving_down_ok
     | apply HomingEnemy_moving_left_ok | apply HomingEnemy_moving_up_ok].
Qed.

Lemma HomingEnemy_update_ok (g : Game) (e : HomingEnemy) :
  exists e' g', HomingEnemy_update g e = Ok (e', g').
Proof.
  unfold HomingEnemy_update.
  destruct (HomingEnemy_call_ok (ho_xstate e) g e) as [e1 ->]. cbn.
  destruct (HomingEnemy_call_ok (ho_ystate e1) g e1) as [e2 ->]. cbn.
  eexists; eexists; reflexivity.
Qed.

(** What the movement methods do when the enemy is level with the
    player on the x axis. *)
Lemma HomingEnemy_moves_at_zero (g : Game) (e : HomingEnemy) :
  player_x (player g) - x (ho_base e) = 0 ->
  (exists e', HomingEnemy_moving_right g e = Ok e'
     /\ position (ho_base e') = (x (ho_base e), y (ho_base e)))
  /\ (exists e', HomingEnemy_moving_left g e = Ok e'
     /\ position (ho_base e') = (x (ho_base e), y (ho_base e)))
  /\ (exists e', HomingEnemy_moving_down g e = Ok e'
     /\ position (ho_base e') = (x (ho_base e), y (ho_base e) + ho_speed e))
  /\ (exists e', HomingEnemy_moving_up g e = Ok e'
     /\ position (ho_base e') = (x (ho_base e), y (ho_base e) - ho_speed e)).
Proof.
  intros H0. apply Reqb_true in H0.
  unfold HomingEnemy_moving_right, HomingEnemy_moving_left,
    HomingEnemy_moving_down, HomingEnemy_moving_up.
  rewrite H0. cbn.
  split; [| split; [| split]]; eexists; (split; [reflexivity |]);
    unfold position; cbn; f_equal; ring.
Qed.

(** The bullet never raises, and its velocity is the vector of length
    [speed] that points from the muzzle to the player. *)
Lemma Bullet_init_velocity (env : Env) (g : Game) (sz : R) (col : string)
    (speed : R) (c : R * R) :
  let dx := player_x (player g) - fst c in
  let dy := player_y (player g) - snd c in
  exists xs ys,
    Bullet_init env g sz col speed c = Ok (mkBullet (Enemy_init env sz col) xs ys)
    /\ xs * sqrt (dx * dx + dy * dy) = speed * dx
    /\ ys * sqrt (dx * dx + dy * dy) = speed * dy
    /\ xs * xs + ys * ys = speed * speed
    /\ (dx = 0 -> xs = 0 /\ ys = if snd c >=? player_y (player g) then - speed else speed).
Proof.
  intros dx dy. unfold Bullet_init.
  fold dx dy.
  destruct (dx =? 0) eqn:E.
  - apply Reqb_true in E. cbn.
    assert (Hge : (fst c >=? player_x (player g)) = true)
      by (apply Rgeb_true; subst dx; lra).
    rewrite Hge.
    exists (- 0), (if snd c >=? player_y (player g) then - speed else speed).
    split; [reflexivity |].
    rewrite E.
    replace (0 * 0 + dy * dy) with (Rsqr dy) by (unfold Rsqr; ring).
    rewrite sqrt_Rsqr_abs.
    destruct (snd c >=? player_y (player g)) eqn:Hy.
    + apply Rgeb_true in Hy. rewrite Rabs_left1 by (subst dy; lra).
      repeat split; ring.
    + apply Rgeb_false in Hy. rewrite Rabs_right by (subst dy; lra).
      repeat split; ring.
  - apply Reqb_false in E.
    rewrite py_div_ok by (apply Rabs_no_R0; exact E). cbn.
    assert (Hd : sqrt (Rabs dx * Rabs dx + Rabs dy * Rabs dy)
                 = sqrt (dx * dx + dy * dy)).
    { f_equal. unfold Rabs. destruct (Rcase_abs dx), (Rcase_abs dy); ring. }
    assert (Hc := cos_atan_ratio (Rabs dx) (Rabs dy) (Rabs_no_R0 _ E)).
    assert (Hs := sin_atan_ratio (Rabs dx) (Rabs dy) (Rabs_no_R0 _ E)).
    rewrite Hd, Rabs_Rabsolu in Hc, Hs.
    assert (Hs' : sin (atan (Rabs dy / Rabs dx)) * sqrt (dx * dx + dy * dy)
                  = Rabs dy).
    { rewrite Hs. field. apply Rabs_no_R0. exact E. }
    set (q := Rabs dy / Rabs dx) in *.
    assert (Hunit : cos (atan q) * cos (atan q) + sin (atan q) * sin (atan q) = 1).
    { generalize (sin2_cos2 (atan q)). unfold Rsqr. lra. }
    set (C := cos (atan q)) in *. set (S := sin (atan q)) in *.
    set (D := sqrt (dx * dx + dy * dy)) in *.
    assert (HvC := f_equal (Rmult speed) Hc).
    assert (HvS := f_equal (Rmult speed) Hs').
    assert (HvU := f_equal (Rmult (speed * speed)) Hunit).
    eexists; eexists. split; [reflexivity |].
    destruct (fst c >=? player_x (player g)) eqn:Hx;
      [apply Rgeb_true in Hx; rewrite (Rabs_left1 dx) in HvC by (subst dx; lra)
      | apply Rgeb_false in Hx; rewrite (Rabs_right dx) in HvC by (subst dx; lra)];
      (destruct (snd c >=? player_y (player g)) eqn:Hy;
       [apply Rgeb_true in Hy; rewrite (Rabs_left1 dy) in HvS by (subst dy; lra)
       | apply Rgeb_false in Hy; rewrite (Rabs_right dy) in HvS by (subst dy; lra)]);
      (split; [lra | split; [lra | split; [lra | intros; contradiction]]]).
Qed.

(** With the enemy level with the player on the x axis, a whole update
    leaves [x] alone and moves [y] by the full speed. *)
Lemma HomingEnemy_update_at_zero (g : Game) (e : HomingEnemy) :
  player_x (player g) - x (ho_base e) = 0 ->
  ho_xstate e = moving_right \/ ho_xstate e = moving_left ->
  ho_ystate e = moving_down \/ ho_ystate e = moving_up ->
  exists e' g',
    HomingEnemy_update g e = Ok (e', g')
    /\ x (ho_base e') = x (ho_base e)
    /\ (y (ho_base e') = y (ho_base e) + ho_speed e
        \/ y (ho_base e') = y (ho_base e) - ho_speed e).
Proof.
  intros H0 Hx Hy.
  destruct e as [[ex ey es ec] sp xs ys]. cbn in *.
  assert (H0' : (player_x (player g) - (ex + 0) =? 0) = true)
    by (apply Reqb_true; lra).
  apply Reqb_true in H0.
  unfold HomingEnemy_update.
  destruct Hx as [-> | ->], Hy as [-> | ->];
    cbn; unfold HomingEnemy_moving_right, HomingEnemy_moving_left,
           HomingEnemy_moving_down, HomingEnemy_moving_up; cbn;
    rewrite H0; cbn;
    (destruct (_ <=? ex + 0) || destruct (_ >=? ex + 0)); cbn;
    unfold HomingEnemy_moving_right, HomingEnemy_moving_left,
      HomingEnemy_moving_down, HomingEnemy_moving_up; cbn;
    rewrite H0'; cbn;
    eexists; eexists; (split; [reflexivity |]); cbn; split; try ring; auto.
Qed.

(** C8.  No movement method of a homing enemy and no creation of a
    bullet raises [ZeroDivisionError].  When the horizontal distance to
    the player is exactly 0 the angle is not computed: [moving_right] and
    [moving_left] leave the position alone, [moving_down] and [moving_up]
    move [y] by the full speed, a whole update moves along [y] only by
    the full speed, and a bullet gets the velocity [(0, speed)] up to the
    sign of its second component. *)
Theorem delta_x_zero_short_circuit (env : Env) (g : Game) (e : HomingEnemy)
    (sz : R) (col : string) (speed : R) (c : R * R) :
  (forall m : Move, exists e', HomingEnemy_call m g e = Ok e')
  /\ (exists b, Bullet_init env g sz col speed c = Ok b)
  /\ (player_x (player g) - x (ho_base e) = 0 ->
      (exists e', HomingEnemy_moving_right g e = Ok e'
         /\ position (ho_base e') = (x (ho_base e), y (ho_base e)))
      /\ (exists e', HomingEnemy_moving_left g e = Ok e'
         /\ position (ho_base e') = (x (ho_base e), y (ho_base e)))
      /\ (exists e', HomingEnemy_moving_down g e = Ok e'
         /\ position (ho_base e') = (x (ho_base e), y (ho_base e) + ho_speed e))
      /\ (exists e', HomingEnemy_moving_up g e = Ok e'
         /\ position (ho_base e') = (x (ho_base e), y (ho_base e) - ho_speed e))
      /\ (ho_xstate e = moving_right \/ ho_xstate e = moving_left ->
          ho_ystate e = moving_down \/ ho_ystate e = moving_up ->
          exists e' g',
            HomingEnemy_update g e = Ok (e', g')
            /\ x (ho_base e') = x (ho_base e)
            /\ (y (ho_base e') = y (ho_base e) + ho_speed e
                \/ y (ho_base e') = y (ho_base e) - ho_speed e)))
  /\ (player_x (player g) - fst c = 0 ->
      exists b, Bullet_init env g sz col speed c = Ok b
                /\ bu_xspeed b = 0
                /\ bu_yspeed b =
                   if snd c >=? player_y (player g) then - speed else speed).
Proof.
  split; [intros m; apply HomingEnemy_call_ok |].
  destruct (Bullet_init_velocity env g sz col speed c)
    as (xs & ys & Hb & _ & _ & _ & Hzero).
  split; [eexists; exact Hb |]. split.
  - intros H0.
    destruct (HomingEnemy_moves_at_zero g e H0) as (Hr & Hl & Hd & Hu).
    repeat (split; [assumption |]).
    apply HomingEnemy_update_at_zero. exact H0.
  - intros H0. destruct (Hzero H0) as [Hxs Hys].
    eexists. split; [exact Hb |]. split; assumption.
Qed.

Lemma delta_x_zero_short_circuit_witness :
  (exists e', HomingEnemy_moving_up sample_game sample_homing_enemy = Ok e'
     /\ position (ho_base e') = (50, 400 - 38 / 10))
  /\ (exists b, Bullet_init sample_env sample_game 5 "#ff8929" 18 (50, 400) = Ok b
        /\ bu_xspeed b = 0
        /\ bu_yspeed b = if 400 >=? 250 then - 18 else 18).
Proof.
  destruct (delta_x_zero_short_circuit sample_env sample_game
              sample_homing_enemy 5 "#ff8929" 18 (50, 400))
    as (_ & _ & Hhoming & Hbullet).
  split.
  - destruct (Hhoming ltac:(cbn; lra)) as (_ & _ & _ & Hup & _). exact Hup.
  - apply Hbullet. cbn. lra.
Defined.

(** ** Turret *)

Lemma Turret_init_period (env : Env) (sz : R) (col : string)
    (bsize vel fire_rate : R) :
  fire_rate <> 0 ->
  Turret_init env sz col bsize vel fire_rate
  = Ok (mkTurret (Enemy_init env sz col) bsize vel (1 / fire_rate * 1000) 0)
  /\ 1 / fire_rate * 1000 = 1000 / fire_rate.
Proof.
  intros Hf. unfold Turret_init. rewrite py_div_ok by exact Hf. cbn.
  split; [reflexivity | field; exact Hf].
Qed.

Lemma Turret_shoot_wait (env : Env) (g : Game) (t : Turret) :
  IZR (timer t + 33) < tu_fire_rate t ->
  Turret_shoot env g t = Ok (with_timer t (timer t + 33), g).
Proof.
  intros H. unfold Turret_shoot. cbn.
  apply Rgeb_false in H. rewrite H. reflexivity.
Qed.

Lemma Turret_shoot_fire (env : Env) (g : Game) (t : Turret) :
  tu_fire_rate t <= IZR (timer t + 33) ->
  let dx := player_x (player g) - x (tu_base t) in
  let dy := player_y (player g) - y (tu_base t) in
  exists b : Bullet,
    Turret_shoot env g t = Ok (with_timer t 0, add_element (EBullet b) g)
    /\ position (bu_base b) = position (tu_base t)
    /\ size (bu_base b) = bullet_size t
    /\ bu_xspeed b * sqrt (dx * dx + dy * dy) = velocity t * dx
    /\ bu_yspeed b * sqrt (dx * dx + dy * dy) = velocity t * dy
    /\ bu_xspeed b * bu_xspeed b + bu_yspeed b * bu_yspeed b
       = velocity t * velocity t.
Proof.
  intros H dx dy. unfold Turret_shoot. cbn.
  apply Rgeb_true in H. rewrite H.
  destruct (Bullet_init_velocity env g (bullet_size t) (color (tu_base t))
              (velocity t) (x (tu_base t), y (tu_base t)))
    as (xs & ys & Hb & Hx & Hy & Hn & _).
  cbn in Hb, Hx, Hy. rewrite Hb. cbn.
  eexists. split; [reflexivity |]. cbn.
  repeat split; assumption.
Qed.

Lemma game_over_lose_elements g : elements (game_over_lose g) = elements g.
Proof. reflexivity. Qed.

Lemma game_over_lose_player g : player (game_over_lose g) = player g.
Proof. reflexivity. Qed.

(** While the period has not elapsed a turret only counts. *)
Lemma Turret_run_wait (env : Env) (k : nat) :
  forall (g : Game) (t : Turret),
    IZR (timer t + 33 * Z.of_nat k) < tu_fire_rate t ->
    exists g',
      Turret_run env k g t = Ok (with_timer t (timer t + 33 * Z.of_nat k), g')
      /\ elements g' = elements g /\ player g' = player g.
Proof.
  induction k as [|k IH]; intros g t H.
  - exists g. cbn [Turret_run]. change (Z.of_nat 0) with 0%Z.
    rewrite Z.mul_0_r, Z.add_0_r.
    destruct t; repeat split; reflexivity.
  - assert (Hstep : IZR (timer t + 33) < tu_fire_rate t).
    { eapply Rle_lt_trans; [| exact H]. apply IZR_le. lia. }
    cbn [Turret_run]. unfold Turret_update.
    rewrite (Turret_shoot_wait env g t Hstep). cbn [bind].
    set (g1 := if hits_player g (tu_base (with_timer t (timer t + 33)))
               then game_over_lose g else g).
    destruct (IH g1 (with_timer t (timer t + 33))) as (g' & Hrun & Hel & Hpl).
    + unfold with_timer; cbn [timer tu_fire_rate].
      replace (timer t + 33 + 33 * Z.of_nat k)%Z
        with (timer t + 33 * Z.of_nat (S k))%Z by lia. exact H.
    + exists g'. rewrite Hrun. unfold with_timer; cbn [timer tu_fire_rate tu_base bullet_size velocity].
      replace (timer t + 33 + 33 * Z.of_nat k)%Z
        with (timer t + 33 * Z.of_nat (S k))%Z by lia.
      split; [reflexivity |].
      subst g1. destruct (hits_player _ _) in Hel, Hpl; split; assumption.
Qed.

Lemma Turret_run_add (env : Env) (n k : nat) :
  forall (g : Game) (t : Turret),
    Turret_run env (n + k) g t
    = ('(t1, g1) <- Turret_run env n g t ;; Turret_run env k g1 t1).
Proof.
  induction n as [|n IH]; intros g t; [reflexivity |].
  cbn [Nat.add Turret_run].
  destruct (Turret_update env g t) as [[t1 g1] | |]; cbn [bind];
    [apply IH | reflexivity | reflexivity].
Qed.

(** C4.  The period of a turret is [1000/fire_rate].  [shoot] adds 33
    to the timer; while the new timer is below the period nothing else
    happens, and on the first tick where it reaches the period one bullet
    is added at the turret's position, its velocity of length [velocity]
    pointing at the player's position of that moment, and the timer is
    back to 0.  At the default rate 1.3 the first 23 ticks add no bullet
    and tick 24 adds the first one. *)
Theorem Turret_fires_on_period (env : Env) (g : Game) (t : Turret) :
  let dx := player_x (player g) - x (tu_base t) in
  let dy := player_y (player g) - y (tu_base t) in
  (forall (sz : R) (col : string) (bsize vel fire_rate : R),
      fire_rate <> 0 ->
      exists t0, Turret_init env sz col bsize vel fire_rate = Ok t0
                 /\ timer t0 = 0%Z /\ tu_fire_rate t0 = 1000 / fire_rate)
  /\ (IZR (timer t + 33) < tu_fire_rate t ->
      Turret_shoot env g t = Ok (with_timer t (timer t + 33), g))
  /\ (tu_fire_rate t <= IZR (timer t + 33) ->
      exists b : Bullet,
        Turret_shoot env g t = Ok (with_timer t 0, add_element (EBullet b) g)
        /\ position (bu_base b) = position (tu_base t)
        /\ bu_xspeed b * sqrt (dx * dx + dy * dy) = velocity t * dx
        /\ bu_yspeed b * sqrt (dx * dx + dy * dy) = velocity t * dy
        /\ bu_xspeed b * bu_xspeed b + bu_yspeed b * bu_yspeed b
           = velocity t * velocity t)
  /\ (timer t = 0%Z -> tu_fire_rate t = 1000 / (13 / 10) ->
      (forall k : nat, (k <= 23)%nat ->
         exists g', Turret_run env k g t = Ok (with_timer t (33 * Z.of_nat k), g')
                    /\ elements g' = elements g)
      /\ exists g' b,
           Turret_run env 24 g t = Ok (with_timer t 0, g')
           /\ elements g' = elements g ++ [EBullet b]).
Proof.
  intros dx dy. split; [| split; [| split]].
  - intros sz col bsize vel fr Hfr.
    destruct (Turret_init_period env sz col bsize vel fr Hfr) as [Hi Hp].
    eexists. split; [exact Hi |]. split; [reflexivity | exact Hp].
  - apply Turret_shoot_wait.
  - intros H. destruct (Turret_shoot_fire env g t H)
      as (b & Hs & Hpos & _ & Hx & Hy & Hn).
    exists b. repeat split; assumption.
  - intros Ht Hr.
    assert (Hwait : forall k : nat, (k <= 23)%nat ->
              exists g', Turret_run env k g t
                         = Ok (with_timer t (33 * Z.of_nat k), g')
                         /\ elements g' = elements g /\ player g' = player g).
    { intros k Hk.
      destruct (Turret_run_wait env k g t) as (g' & Hrun & Hel & Hpl).
      - rewrite Ht, Hr. cbn [Z.add].
        apply Rle_lt_trans with (IZR 759); [apply IZR_le; lia | lra].
      - exists g'. rewrite Ht in Hrun. cbn [Z.add] in Hrun.
        repeat split; assumption. }
    split.
    + intros k Hk. destruct (Hwait k Hk) as (g' & Hrun & Hel & _).
      exists g'. split; assumption.
    + destruct (Hwait 23%nat ltac:(lia)) as (g23 & Hrun & Hel & Hpl).
      change 24%nat with (23 + 1)%nat.
      rewrite Turret_run_add, Hrun. cbn [bind Turret_run].
      destruct (Turret_shoot_fire env g23 (with_timer t (33 * Z.of_nat 23)))
        as (b & Hs & _).
      { unfold with_timer; cbn [timer tu_fire_rate]. rewrite Hr.
        apply Rle_trans with (IZR 792); [lra | apply IZR_le; lia]. }
      unfold Turret_update. rewrite Hs. cbn [bind].
      eexists; exists b. split; [reflexivity |].
      destruct (hits_player _ _); cbn; rewrite Hel; reflexivity.
Qed.

Lemma Turret_fires_on_period_witness :
  exists (g' : Game) (b : Bullet),
    Turret_run sample_env 24 sample_game sample_turret
    = Ok (with_timer sample_turret 0, g')
    /\ elements g' = elements sample_game ++ [EBullet b].
Proof.
  destruct (Turret_fires_on_period sample_env sample_game sample_turret)
    as (_ & _ & _ & H24).
  destruct (H24 eq_refl eq_refl) as [_ Hfire]. exact Hfire.
Defined.

(** ** The random source *)

Lemma randrange_ok (a b : Z) (rng : RNG) :
  (a < b)%Z ->
  randrange a b rng = Ok ((a + rng O mod (b - a))%Z, drop 1 rng)
  /\ (a <= a + rng O mod (b - a) < b)%Z.
Proof.
  intros Hab. unfold randrange.
  destruct (a <? b)%Z eqn:E; [| apply Z.ltb_ge in E; lia].
  split; [reflexivity |].
  pose proof (Z.mod_pos_bound (rng O) (b - a)). lia.
Qed.

Lemma randrange_attained (a b v : Z) (rng : RNG) :
  (a <= v < b)%Z -> rng O = (v - a)%Z ->
  randrange a b rng = Ok (v, drop 1 rng).
Proof.
  intros Hv H0. destruct (randrange_ok a b rng) as [-> _]; [lia |].
  rewrite H0, Z.mod_small by lia. do 2 f_equal. lia.
Qed.

Lemma drop_drop (j k : nat) (rng : RNG) (n : nat) :
  drop j (drop k rng) n = drop (k + j) rng n.
Proof. unfold drop. f_equal. lia. Qed.

(** One coordinate of [RandomMovingEnemy.update]. *)
Lemma jitter_drawn (c : R) (extent : Z) (rng : RNG) :
  (0 < extent)%Z ->
  exists d : Z,
    (if c <=? 0 then randrange 0 15 rng
     else if c >=? IZR extent then randrange (-15) 0 rng
     else randrange (-15) 15 rng) = Ok (d, drop 1 rng)
    /\ jitter_allowed c extent d.
Proof.
  intros Hext. apply IZR_lt in Hext. unfold jitter_allowed.
  destruct (c <=? 0) eqn:E0.
  - apply Rleb_true in E0.
    destruct (randrange_ok 0 15 rng) as [-> Hr]; [lia |].
    eexists. split; [reflexivity |]. repeat split; intros; lra || lia.
  - apply Rleb_false in E0. destruct (c >=? IZR extent) eqn:E1.
    + apply Rgeb_true in E1.
      destruct (randrange_ok (-15) 0 rng) as [-> Hr]; [lia |].
      eexists. split; [reflexivity |]. repeat split; intros; lra || lia.
    + apply Rgeb_false in E1.
      destruct (randrange_ok (-15) 15 rng) as [-> Hr]; [lia |].
      eexists. split; [reflexivity |]. repeat split; intros; lra || lia.
Qed.

Lemma jitter_attained (c : R) (extent : Z) (d : Z) :
  (0 < extent)%Z -> jitter_allowed c extent d ->
  exists v : Z, forall rng : RNG, rng O = v ->
    (if c <=? 0 then randrange 0 15 rng
     else if c >=? IZR extent then randrange (-15) 0 rng
     else randrange (-15) 15 rng) = Ok (d, drop 1 rng).
Proof.
  intros Hext (Hlow & Hhigh & Hmid). apply IZR_lt in Hext.
  destruct (c <=? 0) eqn:E0.
  - apply Rleb_true in E0. exists (d - 0)%Z. intros rng Hr.
    apply randrange_attained; auto.
  - apply Rleb_false in E0. destruct (c >=? IZR extent) eqn:E1.
    + apply Rgeb_true in E1. exists (d - -15)%Z. intros rng Hr.
      apply randrange_attained; auto.
    + apply Rgeb_false in E1. exists (d - -15)%Z. intros rng Hr.
      apply randrange_attained; auto.
Qed.

Lemma RandomMovingEnemy_update_drawn (g : Game) (e : RandomMovingEnemy)
    (rng : RNG) :
  (0 < winfo_width g)%Z -> (0 < winfo_height g)%Z ->
  exists (dx dy : Z) (g' : Game),
    RandomMovingEnemy_update g e rng = Ok (jittered e dx dy, g', drop 2 rng)
    /\ jitter_allowed (x (rm_base e)) (winfo_width g) dx
    /\ jitter_allowed (y (rm_base e)) (winfo_height g) dy.
Proof.
  intros HW HH. unfold RandomMovingEnemy_update.
  destruct (jitter_drawn (x (rm_base e)) (winfo_width g) rng HW)
    as (dx & -> & Hdx).
  cbn [bind set_x x y].
  destruct (jitter_drawn (y (rm_base e)) (winfo_height g) (drop 1 rng) HH)
    as (dy & -> & Hdy).
  cbn [bind set_y set_x x y size color].
  exists dx, dy. eexists. split; [reflexivity |]. split; assumption.
Qed.

(** C7, amended.  In a field of positive extent an update moves [x] and
    [y] by two offsets drawn one after the other: from [0, 15) when the
    coordinate is at most 0, from [-15, 0) when it is at least the
    extent, and from [-15, 15) in between (15 itself is never drawn).
    Every pair of offsets of these ranges is produced by some random
    source: the two draws are independent. *)
Theorem RandomMovingEnemy_update_offsets (g : Game) (e : RandomMovingEnemy) :
  (0 < winfo_width g)%Z -> (0 < winfo_height g)%Z ->
  (forall rng : RNG, exists (dx dy : Z) (g' : Game),
      RandomMovingEnemy_update g e rng = Ok (jittered e dx dy, g', drop 2 rng)
      /\ jitter_allowed (x (rm_base e)) (winfo_width g) dx
      /\ jitter_allowed (y (rm_base e)) (winfo_height g) dy)
  /\ (forall dx dy : Z,
      jitter_allowed (x (rm_base e)) (winfo_width g) dx ->
      jitter_allowed (y (rm_base e)) (winfo_height g) dy ->
      exists (rng : RNG) (g' : Game),
        RandomMovingEnemy_update g e rng = Ok (jittered e dx dy, g', drop 2 rng)).
Proof.
  intros HW HH. split.
  - intros rng. apply RandomMovingEnemy_update_drawn; assumption.
  - intros dx dy Hdx Hdy.
    destruct (jitter_attained _ _ _ HW Hdx) as (vx & Hvx).
    destruct (jitter_attained _ _ _ HH Hdy) as (vy & Hvy).
    set (rng := fun n : nat => match n with O => vx | _ => vy end).
    exists rng. unfold RandomMovingEnemy_update.
    rewrite (Hvx rng eq_refl). cbn [bind set_x x y].
    rewrite (Hvy (drop 1 rng) eq_refl).
    cbn [bind set_y set_x x y size color].
    eexists. reflexivity.
Qed.

(** Against C7 as first stated: 15 belongs to [-15, 15], yet no random
    source makes an enemy well inside the field move by 15. *)
Lemma RandomMovingEnemy_never_offsets_15 :
  ~ (exists (rng : RNG) (e' : RandomMovingEnemy) (g' : Game) (rng' : RNG),
        RandomMovingEnemy_update sample_game sample_random_enemy rng
        = Ok (e', g', rng')
        /\ x (rm_base e') = x (rm_base sample_random_enemy) + 15).
Proof.
  intros (rng & e' & g' & rng' & Hup & Hx).
  destruct (RandomMovingEnemy_update_drawn sample_game sample_random_enemy rng)
    as (dx & dy & g1 & Hup' & (_ & _ & Hdx) & _); [reflexivity | reflexivity |].
  rewrite Hup in Hup'. injection Hup' as He _ _. subst e'.
  cbn in Hx, Hdx.
  assert (Hlt : (-15 <= dx < 15)%Z) by (apply Hdx; lra).
  assert (IZR dx = 15) by lra.
  apply eq_IZR in H. lia.
Qed.

Lemma RandomMovingEnemy_update_offsets_witness :
  exists (dx dy : Z) (g' : Game),
    RandomMovingEnemy_update sample_game sample_random_enemy sample_rng
    = Ok (jittered sample_random_enemy dx dy, g', drop 2 sample_rng)
    /\ jitter_allowed (x (rm_base sample_random_enemy))
                      (winfo_width sample_game) dx
    /\ jitter_allowed (y (rm_base sample_random_enemy))
                      (winfo_height sample_game) dy.
Proof.
  destruct (RandomMovingEnemy_update_offsets sample_game sample_random_enemy)
    as [Hdrawn _]; [reflexivity | reflexivity |].
  exact (Hdrawn sample_rng).
Defined.

(** ** EnemyGenerator *)

Lemma py_int_nonneg (r : R) (z : Z) :
  0 <= r -> IZR z <= r < IZR z + 1 -> py_int r = z.
Proof.
  intros Hr Hz. unfold py_int.
  destruct (0 <=? r) eqn:E; [| apply Rleb_false in E; lra].
  symmetry. apply Int_part_spec. lra.
Qed.

Lemma py_int_half (z : Z) : (0 <= z)%Z -> py_int (IZR z / 2) = (z / 2)%Z.
Proof.
  intros Hz.
  pose proof (Z.div_mod z 2 ltac:(lia)) as Hdm.
  pose proof (Z.mod_pos_bound z 2 ltac:(lia)) as Hm.
  assert (Hq : (2 * (z / 2) <= z < 2 * (z / 2) + 2)%Z) by lia.
  destruct Hq as [Hq1 Hq2]. apply IZR_le in Hq1. apply IZR_lt in Hq2.
  rewrite mult_IZR in Hq1. rewrite plus_IZR, mult_IZR in Hq2.
  apply IZR_le in Hz.
  apply py_int_nonneg; lra.
Qed.

Lemma randrange_inv (a b v : Z) (rng rng' : RNG) :
  randrange a b rng = Ok (v, rng') -> (a <= v < b)%Z.
Proof.
  unfold randrange. destruct (a <? b)%Z eqn:E; [| discriminate].
  apply Z.ltb_lt in E. cbn. intros H. injection H as <- _.
  pose proof (Z.mod_pos_bound (rng O) (b - a)). lia.
Qed.

Lemma bind_Ok {A B : Type} (c : res A) (k : A -> res B) (b : B) :
  bind c k = Ok b -> exists a, c = Ok a /\ k a = Ok b.
Proof.
  destruct c as [a | |]; cbn; intros H; [| discriminate | discriminate].
  exists a. split; [reflexivity | exact H].
Qed.

Lemma sample_position_sound (fuel : nat) (g : Game) (sz : R) :
  forall (rng : RNG) (tx ty : Z) (rng' : RNG),
    sample_position fuel g sz rng = Ok (tx, ty, rng') ->
    safe_area g (IZR tx) (IZR ty) = false
    /\ home_area g (IZR tx) (IZR ty) = false
    /\ (py_int (sz / 2) <= tx < winfo_width g - py_int (sz / 2))%Z
    /\ (py_int (sz / 2) <= ty < winfo_height g - py_int (sz / 2))%Z.
Proof.
  induction fuel as [|fuel IH]; intros rng tx ty rng' H; [discriminate |].
  cbn [sample_position] in H.
  apply bind_Ok in H. destruct H as ([cx rng1] & Hx & H).
  apply bind_Ok in H. destruct H as ([cy rng2] & Hy & H).
  destruct (negb (safe_area g (IZR cx) (IZR cy))
            && negb (home_area g (IZR cx) (IZR cy))) eqn:Hacc.
  - injection H as <- <- <-.
    apply andb_true_iff in Hacc. destruct Hacc as [Hs Hh].
    apply negb_true_iff in Hs, Hh.
    apply randrange_inv in Hx, Hy.
    repeat split; try assumption; lia.
  - apply (IH _ _ _ _ H).
Qed.

Lemma safe_area_false (g : Game) (a b : R) :
  safe_area g a b = false <->
  ~ in_square (player_x (player g)) (player_y (player g)) 100 a b.
Proof.
  unfold safe_area, in_square.
  rewrite <- not_true_iff_false, andb_true_iff, !between_true. tauto.
Qed.

Lemma home_area_false (g : Game) (a b : R) :
  home_area g a b = false <->
  ~ (home_x (home g) - IZR (home_size (home g)) / 2 * 5 <= a
       <= home_x (home g) + IZR (home_size (home g)) / 2 * 5
     /\ player_y (player g) - IZR (home_size (home g)) / 2 * 5 <= b
       <= player_y (player g) + IZR (home_size (home g)) / 2 * 5).
Proof.
  unfold home_area. cbn zeta.
  rewrite <- not_true_iff_false, andb_true_iff, !between_true. tauto.
Qed.

Lemma Turret_init_default (env : Env) (sz : R) :
  Turret_init env sz "#ff8929" 5 18 (13 / 10)
  = Ok (mkTurret (Enemy_init env sz "#ff8929") 5 18 (1 / (13 / 10) * 1000) 0).
Proof. unfold Turret_init. rewrite py_div_ok by lra. reflexivity. Qed.

Lemma construct_ok (env : Env) (g : Game) (ty : EnemyType) (sz : R) :
  exists el, construct env g ty sz = Ok el
             /\ size (element_base el) = sz
             /\ (is_camping el = true <-> ty = CampingEnemy_class).
Proof.
  destruct ty; cbn [construct]; rewrite ?Turret_init_default; cbn [bind];
    eexists; (split; [reflexivity |]); (split; [reflexivity |]);
    cbn; split; congruence.
Qed.

Lemma place_position (el : Element) (a b : R) :
  position (element_base (place el a b)) = (a, b)
  /\ size (element_base (place el a b)) = size (element_base el)
  /\ is_camping (place el a b) = is_camping el.
Proof. destruct el; repeat split. Qed.

Lemma create_enemy_added (env : Env) (gen : EnemyGenerator) (fuel : nat)
    (ty : option EnemyType) (g : Game) (rng : RNG) (g' : Game) (rng' : RNG) :
  create_enemy env gen fuel ty g rng = Ok (g', rng') ->
  exists (el : Element) (sz : Z),
    g' = add_element el g
    /\ (15 <= sz < 30)%Z
    /\ size (element_base el) = IZR sz
    /\ (is_camping el = false ->
        exists tx ty : Z,
          position (element_base el) = (IZR tx, IZR ty)
          /\ safe_area g (IZR tx) (IZR ty) = false
          /\ home_area g (IZR tx) (IZR ty) = false
          /\ (sz / 2 <= tx < winfo_width g - sz / 2)%Z
          /\ (sz / 2 <= ty < winfo_height g - sz / 2)%Z).
Proof.
  intros H. unfold create_enemy in H.
  apply bind_Ok in H. destruct H as ([ty0 rng1] & _ & H).
  apply bind_Ok in H. destruct H as ([sz rng2] & Hsz & H).
  apply randrange_inv in Hsz.
  apply bind_Ok in H. destruct H as (el0 & Hel & H).
  destruct (construct_ok env g ty0 (IZR sz)) as (el1 & Hel1 & Hsize & _).
  rewrite Hel in Hel1. injection Hel1 as <-.
  assert (Hplaced :
    forall a b, size (element_base (place el0 a b)) = IZR sz).
  { intros a b. destruct (place_position el0 a b) as (_ & -> & _). exact Hsize. }
  assert (Hnc :
    forall tx ty1 rng3,
      sample_position fuel g (size (element_base el0)) rng2 = Ok (tx, ty1, rng3) ->
      Ok (add_element (place el0 (IZR tx) (IZR ty1)) g, rng3) = Ok (g', rng') ->
      exists (el : Element) (sz0 : Z),
        g' = add_element el g /\ (15 <= sz0 < 30)%Z
        /\ size (element_base el) = IZR sz0
        /\ (is_camping el = false ->
            exists tx ty : Z,
              position (element_base el) = (IZR tx, IZR ty)
              /\ safe_area g (IZR tx) (IZR ty) = false
              /\ home_area g (IZR tx) (IZR ty) = false
              /\ (sz0 / 2 <= tx < winfo_width g - sz0 / 2)%Z
              /\ (sz0 / 2 <= ty < winfo_height g - sz0 / 2)%Z)).
  { intros tx ty1 rng3 Hs Hr. injection Hr as <- _.
    exists (place el0 (IZR tx) (IZR ty1)), sz.
    split; [reflexivity |]. split; [exact Hsz |]. split; [apply Hplaced |].
    intros _. exists tx, ty1.
    apply sample_position_sound in Hs.
    rewrite Hsize, py_int_half in Hs by lia.
    destruct Hs as (Hsa & Hha & Hx & Hy).
    split; [apply place_position |]. repeat split; try assumption; lia. }
  destruct el0;
    try (apply bind_Ok in H; destruct H as ([[tx ty1] rng3] & Hs & H);
         exact (Hnc tx ty1 rng3 Hs H)).
  injection H as <- _.
  eexists; exists sz. split; [reflexivity |]. split; [exact Hsz |].
  split; [apply Hplaced |]. cbn. discriminate.
Qed.

Lemma sample_position_step (fuel : nat) (g : Game) (sz : R) (rng : RNG)
    (lo : Z) :
  py_int (sz / 2) = lo ->
  (0 + lo < winfo_width g - lo)%Z -> (0 + lo < winfo_height g - lo)%Z ->
  sample_position (S fuel) g sz rng =
  if accepted g (candidate g lo rng 0)
  then Ok (fst (candidate g lo rng 0), snd (candidate g lo rng 0), drop 2 rng)
  else sample_position fuel g sz (drop 2 rng).
Proof.
  intros Hlo HW HH. cbn [sample_position]. rewrite Hlo.
  destruct (randrange_ok (0 + lo) (winfo_width g - lo) rng HW) as [-> _].
  cbn [bind].
  destruct (randrange_ok (0 + lo) (winfo_height g - lo) (drop 1 rng) HH)
    as [-> _].
  cbn [bind]. reflexivity.
Qed.

(** [create_enemy()] is [create_enemy(ty)] for the class [ty] that
    [random.choice] returns. *)
Lemma create_enemy_choice (env : Env) (gen : EnemyGenerator) (fuel : nat)
    (g : Game) (rng : RNG) (ty : EnemyType) :
  choice (enemies gen) rng = Ok (ty, drop 1 rng) ->
  create_enemy env gen fuel None g rng
  = create_enemy env gen fuel (Some ty) g (drop 1 rng).
Proof. intros H. unfold create_enemy. rewrite H. reflexivity. Qed.

(** A camping enemy is put on the top-left corner of its patrol. *)
Lemma create_enemy_camping (env : Env) (gen : EnemyGenerator) (fuel : nat)
    (g : Game) (rng : RNG) :
  let c := CampingEnemy_init env g (IZR (15 + rng O mod (30 - 15))) "#ff0000" None in
  create_enemy env gen fuel (Some CampingEnemy_class) g rng
  = Ok (add_element
          (place (ECamping c) (home_x (home g) - multiplier c)
                              (home_y (home g) - multiplier c)) g,
        drop 1 rng).
Proof.
  intros c. unfold create_enemy. cbn [bind].
  destruct (randrange_ok 15 30 rng) as [-> _]; [lia |].
  reflexivity.
Qed.

(** Any other enemy is put on the first candidate when it is accepted. *)
Lemma create_enemy_accept (env : Env) (gen : EnemyGenerator) (fuel : nat)
    (ty : EnemyType) (g : Game) (rng : RNG) (el : Element) (lo : Z) :
  let sz := (15 + rng O mod (30 - 15))%Z in
  construct env g ty (IZR sz) = Ok el ->
  is_camping el = false ->
  (sz / 2)%Z = lo ->
  (0 + lo < winfo_width g - lo)%Z -> (0 + lo < winfo_height g - lo)%Z ->
  accepted g (candidate g lo (drop 1 rng) 0) = true ->
  create_enemy env gen (S fuel) (Some ty) g rng
  = Ok (add_element
          (place el (IZR (fst (candidate g lo (drop 1 rng) 0)))
                    (IZR (snd (candidate g lo (drop 1 rng) 0)))) g,
        drop 3 rng).
Proof.
  intros sz Hel Hcamp Hlo HW HH Hacc.
  unfold create_enemy. cbn [bind].
  destruct (randrange_ok 15 30 rng) as [-> Hsz]; [lia |].
  fold sz in Hsz |- *. cbn [bind]. rewrite Hel. cbn [bind].
  assert (Hsize : size (element_base el) = IZR sz).
  { destruct (construct_ok env g ty (IZR sz)) as (el' & Hel' & Hs & _).
    rewrite Hel in Hel'. injection Hel' as <-. exact Hs. }
  assert (Hpos :
    sample_position (S fuel) g (size (element_base el)) (drop 1 rng)
    = Ok (fst (candidate g lo (drop 1 rng) 0),
          snd (candidate g lo (drop 1 rng) 0), drop 3 rng)).
  { rewrite (sample_position_step fuel g _ (drop 1 rng) lo), Hacc;
      [reflexivity | | exact HW | exact HH].
    rewrite Hsize, py_int_half by lia. exact Hlo. }
  destruct el; try discriminate Hcamp; rewrite Hpos; reflexivity.
Qed.

Lemma accepted_true (g : Game) (cx cy : Z) :
  ~ in_square (player_x (player g)) (player_y (player g)) 100 (IZR cx) (IZR cy) ->
  ~ (home_x (home g) - IZR (home_size (home g)) / 2 * 5 <= IZR cx
       <= home_x (home g) + IZR (home_size (home g)) / 2 * 5
     /\ player_y (player g) - IZR (home_size (home g)) / 2 * 5 <= IZR cy
       <= player_y (player g) + IZR (home_size (home g)) / 2 * 5) ->
  accepted g (cx, cy) = true.
Proof.
  intros Hs Hh. unfold accepted. apply andb_true_iff.
  split; apply negb_true_iff;
    [apply safe_area_false; exact Hs | apply home_area_false; exact Hh].
Qed.

Lemma accepted_false (g : Game) (cx cy : Z) :
  in_square (player_x (player g)) (player_y (player g)) 100 (IZR cx) (IZR cy)
  \/ (home_x (home g) - IZR (home_size (home g)) / 2 * 5 <= IZR cx
        <= home_x (home g) + IZR (home_size (home g)) / 2 * 5
      /\ player_y (player g) - IZR (home_size (home g)) / 2 * 5 <= IZR cy
        <= player_y (player g) + IZR (home_size (home g)) / 2 * 5) ->
  accepted g (cx, cy) = false.
Proof.
  intros H. unfold accepted. cbn [fst snd].
  destruct (safe_area g (IZR cx) (IZR cy)) eqn:Es; [reflexivity |].
  destruct (home_area g (IZR cx) (IZR cy)) eqn:Eh; [reflexivity |].
  apply safe_area_false in Es. apply home_area_false in Eh. tauto.
Qed.

(** The loop selects the first candidate that passes the test: the [k]
    candidates drawn before it were rejected and each was followed by a
    new draw of both coordinates. *)
Lemma sample_position_first (g : Game) (sz : R) (lo : Z) :
  py_int (sz / 2) = lo ->
  (0 + lo < winfo_width g - lo)%Z -> (0 + lo < winfo_height g - lo)%Z ->
  forall (k fuel : nat) (rng : RNG),
    (forall j : nat, (j < k)%nat -> accepted g (candidate g lo rng j) = false) ->
    accepted g (candidate g lo rng k) = true ->
    (k < fuel)%nat ->
    exists rng' : RNG,
      sample_position fuel g sz rng
      = Ok (fst (candidate g lo rng k), snd (candidate g lo rng k), rng')
      /\ forall n : nat, rng' n = rng (2 * S k + n)%nat.
Proof.
  intros Hlo HW HH. induction k as [|k IH]; intros fuel rng Hrej Hacc Hfuel.
  - destruct fuel as [|fuel]; [lia |].
    rewrite (sample_position_step _ g sz rng lo Hlo HW HH), Hacc.
    exists (drop 2 rng). split; [reflexivity |]. intros n. reflexivity.
  - destruct fuel as [|fuel]; [lia |].
    rewrite (sample_position_step _ g sz rng lo Hlo HW HH).
    rewrite (Hrej O) by lia.
    assert (Hshift : forall j : nat,
               candidate g lo (drop 2 rng) j = candidate g lo rng (S j)).
    { intros j. unfold candidate, drop.
      replace (2 + 2 * j)%nat with (2 * S j)%nat by lia.
      replace (2 + (2 * j + 1))%nat with (2 * S j + 1)%nat by lia.
      reflexivity. }
    destruct (IH fuel (drop 2 rng)) as (rng' & Hrun & Hrng).
    + intros j Hj. rewrite Hshift. apply Hrej. lia.
    + rewrite Hshift. exact Hacc.
    + lia.
    + exists rng'. split.
      * rewrite Hrun, Hshift. reflexivity.
      * intros n. rewrite Hrng. unfold drop. f_equal. lia.
Qed.

(** Any enemy but a camping one is put on the first candidate that
    passes the test. *)
Lemma create_enemy_resample (env : Env) (gen : EnemyGenerator) (fuel : nat)
    (ty : option EnemyType) (g : Game) (rng : RNG)
    (cls : EnemyType) (rng1 : RNG) (sz : Z) (rng2 : RNG) (k : nat) :
  match ty with
  | None => choice (enemies gen) rng
  | Some c => Ok (c, rng)
  end = Ok (cls, rng1) ->
  cls <> CampingEnemy_class ->
  randrange 15 30 rng1 = Ok (sz, rng2) ->
  (0 + sz / 2 < winfo_width g - sz / 2)%Z ->
  (0 + sz / 2 < winfo_height g - sz / 2)%Z ->
  (forall j : nat,
      (j < k)%nat -> accepted g (candidate g (sz / 2) rng2 j) = false) ->
  accepted g (candidate g (sz / 2) rng2 k) = true ->
  (k < fuel)%nat ->
  exists (el : Element) (rng' : RNG),
    create_enemy env gen fuel ty g rng = Ok (add_element el g, rng')
    /\ is_camping el = false
    /\ position (element_base el)
       = (IZR (fst (candidate g (sz / 2) rng2 k)),
          IZR (snd (candidate g (sz / 2) rng2 k)))
    /\ forall n : nat, rng' n = rng2 (2 * S k + n)%nat.
Proof.
  intros Hty Hcls Hsz HW HH Hrej Hacc Hfuel.
  pose proof (randrange_inv _ _ _ _ _ Hsz) as Hrange.
  destruct (construct_ok env g cls (IZR sz)) as (el & Hel & Hsize & Hcamp).
  assert (Hnc : is_camping el = false).
  { destruct (is_camping el) eqn:E; [| reflexivity].
    exfalso. apply Hcls. apply Hcamp. reflexivity. }
  destruct (sample_position_first g (size (element_base el)) (sz / 2))
    with (k := k) (fuel := fuel) (rng := rng2) as (rng' & Hrun & Hrng);
    try assumption.
  { rewrite Hsize. apply py_int_half. lia. }
  exists (place el (IZR (fst (candidate g (sz / 2) rng2 k)))
                   (IZR (snd (candidate g (sz / 2) rng2 k)))), rng'.
  split; [| split; [| split]].
  - unfold create_enemy. rewrite Hty. cbn [bind]. rewrite Hsz. cbn [bind].
    rewrite Hel. cbn [bind].
    destruct el; try discriminate Hnc; rewrite Hrun; reflexivity.
  - destruct (place_position el (IZR (fst (candidate g (sz / 2) rng2 k)))
                (IZR (snd (candidate g (sz / 2) rng2 k)))) as (_ & _ & ->).
    exact Hnc.
  - apply place_position.
  - exact Hrng.
Qed.

(** C6.  The position [create_enemy] gives an enemy that is not a camping
    enemy was accepted by the loop: it is outside the safe zone of 200 by
    200 centred on the player, outside [home_area] (whose x bound is taken
    around the home's x and whose y bound around the player's y, both
    with the patrol half side), and inside the field.  A candidate that
    fails either test is never the one selected: the loop draws both
    coordinates again, so the enemy is put on the first candidate that
    passes, however many were rejected before it. *)
Theorem create_enemy_placement (env : Env) (gen : EnemyGenerator)
    (fuel : nat) (ty : option EnemyType) (g : Game) (rng : RNG) :
  (forall (g' : Game) (rng' : RNG),
      create_enemy env gen fuel ty g rng = Ok (g', rng') ->
      exists el : Element,
        elements g' = elements g ++ [el]
        /\ (is_camping el = false ->
            let a := x (element_base el) in
            let b := y (element_base el) in
            safe_area g a b = false
            /\ home_area g a b = false
            /\ ~ in_square (player_x (player g)) (player_y (player g)) 100 a b
            /\ ~ (home_x (home g) - IZR (home_size (home g)) / 2 * 5 <= a
                    <= home_x (home g) + IZR (home_size (home g)) / 2 * 5
                  /\ player_y (player g) - IZR (home_size (home g)) / 2 * 5 <= b
                    <= player_y (player g) + IZR (home_size (home g)) / 2 * 5)
            /\ 0 <= a < IZR (winfo_width g)
            /\ 0 <= b < IZR (winfo_height g)))
  /\ (forall (cls : EnemyType) (rng1 : RNG) (sz : Z) (rng2 : RNG) (k : nat),
         match ty with
         | None => choice (enemies gen) rng
         | Some c => Ok (c, rng)
         end = Ok (cls, rng1) ->
         cls <> CampingEnemy_class ->
         randrange 15 30 rng1 = Ok (sz, rng2) ->
         (0 + sz / 2 < winfo_width g - sz / 2)%Z ->
         (0 + sz / 2 < winfo_height g - sz / 2)%Z ->
         (forall j : nat,
             (j < k)%nat -> accepted g (candidate g (sz / 2) rng2 j) = false) ->
         accepted g (candidate g (sz / 2) rng2 k) = true ->
         (k < fuel)%nat ->
         exists (el : Element) (rng' : RNG),
           create_enemy env gen fuel ty g rng = Ok (add_element el g, rng')
           /\ is_camping el = false
           /\ position (element_base el)
              = (IZR (fst (candidate g (sz / 2) rng2 k)),
                 IZR (snd (candidate g (sz / 2) rng2 k)))
           /\ forall n : nat, rng' n = rng2 (2 * S k + n)%nat).
Proof.
  split.
  - intros g' rng' H.
    destruct (create_enemy_added _ _ _ _ _ _ _ _ H)
      as (el & sz & -> & Hsz & _ & Hpos).
    exists el. split; [reflexivity |].
    intros Hc. destruct (Hpos Hc) as (tx & ty1 & Hp & Hsa & Hha & Hx & Hy).
    unfold position in Hp. injection Hp as Hxa Hyb.
    cbn zeta. rewrite Hxa, Hyb.
    split; [exact Hsa |]. split; [exact Hha |].
    split; [apply safe_area_false; exact Hsa |].
    split; [apply home_area_false; exact Hha |].
    assert (7 <= sz / 2)%Z by (apply Z.div_le_lower_bound; lia).
    split; split; try (apply IZR_le; lia); apply IZR_lt; lia.
  - intros cls rng1 sz rng2 k.
    apply create_enemy_resample.
Qed.

(** Placing an enemy of a game that shows the view of [sample_game] on
    the first candidate [(cx, cy)]. *)
Ltac place_first lo cx cy :=
  erewrite (create_enemy_accept _ _ 4 _ _ _ _ lo);
  [ | cbn [construct]; rewrite ?Turret_init_default; reflexivity
    | reflexivity | reflexivity | cbn; lia | cbn; lia
    | match goal with
      | |- accepted _ ?c = true => change c with (cx, cy)
      end;
      apply accepted_true; [unfold in_square |]; cbn; lra ];
  cbn [bind].

Lemma choice_sample_generator (rng : RNG) (k : Z) (ty : EnemyType) :
  rng O = k ->
  nth (Z.to_nat (k mod 5)) (enemies sample_generator) RandomMovingEnemy_class = ty ->
  choice (enemies sample_generator) rng = Ok (ty, drop 1 rng).
Proof.
  intros Hk Hty. subst k ty. unfold choice.
  cbn [enemies sample_generator draw]. reflexivity.
Qed.

(** What [create_enemy()] does on four given draws: a random enemy of
    size 20 at [(310, 110)]. *)
Lemma sample_create_random (g : Game) (rng : RNG) :
  same_view g ->
  rng 0%nat = 0%Z -> rng 1%nat = 5%Z -> rng 2%nat = 300%Z -> rng 3%nat = 100%Z ->
  create_enemy sample_env sample_generator 5 None g rng
  = Ok (add_element
          (ERandomMoving (mkRandomMovingEnemy (mkEnemy 310 110 20 "#7e7e7e")))
          g,
        drop 4 rng).
Proof.
  intros (Hp & Hh & HW & HH) H0 H1 H2 H3.
  rewrite (create_enemy_choice _ _ _ _ _ RandomMovingEnemy_class)
    by (apply (choice_sample_generator rng 0); [exact H0 | reflexivity]).
  assert (Hsz : (15 + drop 1 rng O mod (30 - 15))%Z = 20%Z)
    by (unfold drop; cbn [Nat.add]; rewrite H1; reflexivity).
  assert (Hc : candidate g 10 (drop 1 (drop 1 rng)) 0 = (310%Z, 110%Z)).
  { unfold candidate, drop. cbn [Nat.add Nat.mul].
    rewrite H2, H3, HW, HH. reflexivity. }
  erewrite (create_enemy_accept _ _ 4 _ _ _ _ 10%Z);
    [ | rewrite Hsz; reflexivity | reflexivity | rewrite Hsz; reflexivity
      | rewrite HW; lia | rewrite HH; lia
      | rewrite Hc; apply accepted_true; rewrite Hp, ?Hh;
        [unfold in_square |]; cbn; lra ].
  rewrite Hc. reflexivity.
Qed.

(** What [create_enemy()] does on two further draws: a camping enemy of
    size 22 on the top-left corner of its patrol. *)
Lemma sample_create_camping (g : Game) (rng : RNG) :
  same_view g ->
  rng 0%nat = 2%Z -> rng 1%nat = 7%Z ->
  create_enemy sample_env sample_generator 5 None g rng
  = Ok (add_element
          (ECamping
             (mkCampingEnemy
                (mkEnemy (700 - 20 / 2 * 5) (250 - 20 / 2 * 5) 22 "#ff0000")
                3 moving_right (20 / 2 * 5)))
          g,
        drop 2 rng).
Proof.
  intros (Hp & Hh & HW & HH) H0 H1.
  rewrite (create_enemy_choice _ _ _ _ _ CampingEnemy_class)
    by (apply (choice_sample_generator rng 2); [exact H0 | reflexivity]).
  rewrite create_enemy_camping.
  unfold drop at 1 2 3. cbn [Nat.add]. rewrite H1.
  unfold CampingEnemy_init. rewrite Hh. reflexivity.
Qed.

Lemma same_view_sample_game : same_view sample_game.
Proof. repeat split. Qed.

(** In [sample_game] the first candidate lies in the safe zone and the
    second in [home_area]: the enemy is put on the third one. *)
Lemma create_enemy_placement_witness :
  accepted sample_game (70, 270)%Z = false
  /\ accepted sample_game (700, 250)%Z = false
  /\ exists (el : Element) (rng' : RNG),
       create_enemy sample_env sample_generator 3 None sample_game resample_rng
       = Ok (add_element el sample_game, rng')
       /\ is_camping el = false
       /\ position (element_base el) = (310, 110)
       /\ safe_area sample_game (x (element_base el)) (y (element_base el)) = false
       /\ home_area sample_game (x (element_base el)) (y (element_base el)) = false.
Proof.
  assert (H0 : accepted sample_game (70, 270)%Z = false).
  { apply accepted_false. left. unfold in_square. cbn. lra. }
  assert (H1 : accepted sample_game (700, 250)%Z = false).
  { apply accepted_false. right. cbn. lra. }
  split; [exact H0 |]. split; [exact H1 |].
  destruct (create_enemy_placement sample_env sample_generator 3 None
              sample_game resample_rng) as [Hsound Hresample].
  destruct (Hresample RandomMovingEnemy_class (drop 1 resample_rng) 20%Z
              (drop 2 resample_rng) 2%nat)
    as (el & rng' & Hrun & Hcamp & Hpos & _).
  - reflexivity.
  - discriminate.
  - reflexivity.
  - cbn. lia.
  - cbn. lia.
  - intros [|[|j]] Hj; [exact H0 | exact H1 | lia].
  - apply accepted_true; [unfold in_square |]; cbn; lra.
  - lia.
  - exists el, rng'.
    split; [exact Hrun |]. split; [exact Hcamp |]. split; [exact Hpos |].
    destruct (Hsound _ _ Hrun) as (el' & Hel & Hok).
    cbn [add_element set_elements elements] in Hel.
    apply app_inj_tail in Hel. destruct Hel as [_ <-].
    destruct (Hok Hcamp) as (Hsa & Hha & _).
    split; [exact Hsa | exact Hha].
Defined.

(** ** Default arguments *)

Lemma place_default_speed (env : Env) (el : Element) (a b : R) :
  default_speed env el -> default_speed env (place el a b).
Proof. destruct el; intros H; exact H. Qed.

Lemma construct_default_speed (env : Env) (g : Game) (ty : EnemyType) (sz : R)
    (el : Element) :
  construct env g ty sz = Ok el -> default_speed env el.
Proof.
  destruct ty; cbn [construct]; intros H;
    try (injection H as <-; exact I).
  - injection H as <-. reflexivity.
  - apply bind_Ok in H. destruct H as (t & _ & H). injection H as <-. exact I.
Qed.

Lemma Forall_add (env : Env) (el : Element) (g : Game) :
  Forall (default_speed env) (elements g) -> default_speed env el ->
  Forall (default_speed env) (elements (add_element el g)).
Proof.
  intros Hg Hel. cbn [add_element set_elements elements].
  apply Forall_app. split; [exact Hg |]. constructor; [exact Hel | constructor].
Qed.

(** Whatever the random source gives when an enemy is created, a camping
    enemy gets the default speed. *)
Lemma create_enemy_default_speed (env : Env) (gen : EnemyGenerator)
    (fuel : nat) (ty : option EnemyType) (g : Game) (rng : RNG)
    (g' : Game) (rng' : RNG) :
  Forall (default_speed env) (elements g) ->
  create_enemy env gen fuel ty g rng = Ok (g', rng') ->
  Forall (default_speed env) (elements g').
Proof.
  intros Hg H. unfold create_enemy in H.
  apply bind_Ok in H. destruct H as ([ty0 rng1] & _ & H).
  apply bind_Ok in H. destruct H as ([sz rng2] & _ & H).
  apply bind_Ok in H. destruct H as (el & Hel & H).
  apply construct_default_speed in Hel.
  destruct el;
    try (apply bind_Ok in H; destruct H as ([[tx ty1] rng3] & _ & H));
    injection H as <- _;
    apply Forall_add; try exact Hg;
    first [exact I | exact Hel | apply place_default_speed; exact Hel].
Qed.

Lemma create_enemies_default_speed (env : Env) (gen : EnemyGenerator)
    (fuel : nat) (tys : list (option EnemyType)) :
  forall (g : Game) (rng : RNG) (g' : Game) (rng' : RNG),
    Forall (default_speed env) (elements g) ->
    create_enemies env gen fuel tys g rng = Ok (g', rng') ->
    Forall (default_speed env) (elements g').
Proof.
  induction tys as [|ty tys IH]; intros g rng g' rng' Hg H.
  - injection H as <- _. exact Hg.
  - cbn [create_enemies] in H.
    apply bind_Ok in H. destruct H as ([g1 rng1] & H1 & H).
    apply (IH g1 rng1 g' rng'); [| exact H].
    apply (create_enemy_default_speed _ _ _ _ _ _ _ _ Hg H1).
Qed.

Lemma spawn_more_default_speed (env : Env) (gen : EnemyGenerator)
    (fuel : nat) (g : Game) (rng : RNG) (g' : Game) (rng' : RNG) :
  Forall (default_speed env) (elements g) ->
  EnemyGenerator_spawn_more env gen fuel g rng = Ok (g', rng') ->
  Forall (default_speed env) (elements g').
Proof.
  intros Hg H. unfold EnemyGenerator_spawn_more in H.
  apply bind_Ok in H. destruct H as ([g1 rng1] & H1 & H).
  apply bind_Ok in H. destruct H as ([delay rng2] & _ & H).
  injection H as <- _.
  apply (create_enemies_default_speed _ _ _ _ _ _ _ _ Hg H1).
Qed.

Lemma init_game_default_speed (env : Env) (fuel : nat) (g : Game) (rng : RNG)
    (gen : EnemyGenerator) (g' : Game) (rng' : RNG) :
  Forall (default_speed env) (elements g) ->
  TurtleAdventureGame_init_game env fuel g rng = Ok (gen, g', rng') ->
  Forall (default_speed env) (elements g').
Proof.
  intros Hg H. unfold TurtleAdventureGame_init_game, EnemyGenerator_init in H.
  cbv zeta in H.
  apply bind_Ok in H. destruct H as ([g1 rng1] & H1 & H).
  apply bind_Ok in H. destruct H as ([delay rng2] & _ & H).
  injection H as _ <- _.
  unfold initial_enemies in H1.
  apply create_enemies_default_speed in H1; [exact H1 | exact Hg].
Qed.

(** An update leaves the speed of a camping enemy as it is. *)
Lemma CampingEnemy_update_speed (g : Game) (e : CampingEnemy) :
  ca_speed (fst (CampingEnemy_update g e)) = ca_speed e.
Proof.
  unfold CampingEnemy_update, CampingEnemy_call. cbn [fst].
  destruct (ca_state e);
    unfold CampingEnemy_moving_right, CampingEnemy_moving_down,
      CampingEnemy_moving_left, CampingEnemy_moving_up; cbv zeta;
    match goal with |- context [if ?c then _ else _] => destruct c end;
    reflexivity.
Qed.

Lemma lose_elements (g : Game) (hit : bool) :
  elements (if hit then game_over_lose g else g) = elements g.
Proof. destruct hit; reflexivity. Qed.

Lemma Forall_firstn {A : Type} (P : A -> Prop) (n : nat) (l : list A) :
  Forall P l -> Forall P (firstn n l).
Proof.
  revert l. induction n as [|n IH]; intros l H; [constructor |].
  destruct H; [constructor |]. cbn. constructor; [assumption | apply IH; assumption].
Qed.

Lemma Forall_skipn {A : Type} (P : A -> Prop) (n : nat) (l : list A) :
  Forall P l -> Forall P (skipn n l).
Proof.
  revert l. induction n as [|n IH]; intros l H; [exact H |].
  destruct H; [constructor |]. cbn. apply IH; assumption.
Qed.

Lemma Forall_store (env : Env) (i : nat) (el : Element) (g : Game) :
  Forall (default_speed env) (elements g) -> default_speed env el ->
  Forall (default_speed env) (elements (store i el g)).
Proof.
  intros Hg Hel. cbn [store set_elements elements].
  apply Forall_app. split; [apply Forall_firstn; exact Hg |].
  constructor; [exact Hel | apply Forall_skipn; exact Hg].
Qed.

Lemma Bullet_steps_elements (n : nat) :
  forall (g : Game) (b : Bullet),
    elements (snd (Bullet_steps n g b)) = elements g.
Proof.
  induction n as [|n IH]; intros g b; [reflexivity |].
  cbn [Bullet_steps]. cbv zeta. rewrite IH. apply lose_elements.
Qed.

Lemma Bullet_update_default_speed (env : Env) (i : nat) (g : Game)
    (b : Bullet) :
  Forall (default_speed env) (elements g) ->
  Forall (default_speed env) (elements (snd (Bullet_update i g b))).
Proof.
  intros Hg. unfold Bullet_update.
  pose proof (Bullet_steps_elements 10 g b) as Hs.
  generalize dependent (Bullet_steps 10 g b).
  intros [b1 g1] Hs. cbn [snd] in Hs.
  assert (Hg1 : Forall (default_speed env) (elements g1))
    by (rewrite Hs; exact Hg).
  destruct (Bullet_hits_border g1 b1); cbn [snd]; [| exact Hg1].
  cbn [delete_element set_elements elements].
  apply Forall_app.
  split; [apply Forall_firstn | apply Forall_skipn]; exact Hg1.
Qed.

Lemma Turret_update_default_speed (env : Env) (g : Game) (t t' : Turret)
    (g' : Game) :
  Forall (default_speed env) (elements g) ->
  Turret_update env g t = Ok (t', g') ->
  Forall (default_speed env) (elements g').
Proof.
  intros Hg Hu. unfold Turret_update in Hu.
  apply bind_Ok in Hu. destruct Hu as ([e2 g2] & Hsh & Hu).
  injection Hu as _ <-. rewrite lose_elements.
  unfold Turret_shoot in Hsh. cbv zeta in Hsh.
  match type of Hsh with
  | (if ?c then _ else _) = _ => destruct c
  end.
  - apply bind_Ok in Hsh. destruct Hsh as (b & _ & Hsh).
    injection Hsh as _ <-. apply Forall_add; [exact Hg | exact I].
  - injection Hsh as _ <-. exact Hg.
Qed.

Lemma RandomMovingEnemy_update_elements (g : Game) (e e' : RandomMovingEnemy)
    (rng : RNG) (g' : Game) (rng' : RNG) :
  RandomMovingEnemy_update g e rng = Ok (e', g', rng') ->
  elements g' = elements g.
Proof.
  intros Hu. unfold RandomMovingEnemy_update in Hu. cbv zeta in Hu.
  apply bind_Ok in Hu. destruct Hu as ([dx r1] & _ & Hu).
  apply bind_Ok in Hu. destruct Hu as ([dy r2] & _ & Hu).
  injection Hu as _ <- _. apply lose_elements.
Qed.

Lemma HomingEnemy_update_elements (g : Game) (e e' : HomingEnemy)
    (g' : Game) :
  HomingEnemy_update g e = Ok (e', g') -> elements g' = elements g.
Proof.
  intros Hu. unfold HomingEnemy_update in Hu.
  apply bind_Ok in Hu. destruct Hu as (e2 & _ & Hu).
  apply bind_Ok in Hu. destruct Hu as (e3 & _ & Hu).
  injection Hu as _ <-. apply lose_elements.
Qed.

Lemma Element_update_bullet (env : Env) (i : nat) (e : Bullet) (g : Game)
    (rng : RNG) :
  Element_update env i (EBullet e) g rng
  = (let (e1, g1) := Bullet_update i g e in
     if Bullet_hits_border g1 e1 then Ok (g1, false, rng)
     else Ok (store i (EBullet e1) g1, true, rng)).
Proof. reflexivity. Qed.

(** The update of an element changes the speed of no camping enemy of
    the collection. *)
Lemma Element_update_default_speed (env : Env) (i : nat) (el : Element)
    (g : Game) (rng : RNG) (g' : Game) (kept : bool) (rng' : RNG) :
  Forall (default_speed env) (elements g) ->
  nth_error (elements g) i = Some el ->
  Element_update env i el g rng = Ok (g', kept, rng') ->
  Forall (default_speed env) (elements g').
Proof.
  intros Hg Hi H.
  assert (Hel : default_speed env el).
  { apply nth_error_In in Hi. rewrite Forall_forall in Hg. apply Hg, Hi. }
  destruct el as [e | e | e | e | e | e];
    [cbn [Element_update] in H .. | rewrite Element_update_bullet in H
     | cbn [Element_update] in H].
  - apply bind_Ok in H. destruct H as ([[e1 g1] rng1] & Hu & H).
    injection H as <- _ _.
    apply RandomMovingEnemy_update_elements in Hu.
    apply Forall_store; [rewrite Hu; exact Hg | exact I].
  - unfold BouncingEnemy_update in H. cbv zeta in H.
    injection H as <- _ _.
    apply Forall_store; [rewrite lose_elements; exact Hg | exact I].
  - apply bind_Ok in H. destruct H as ([e1 g1] & Hu & H).
    injection H as <- _ _.
    apply HomingEnemy_update_elements in Hu.
    apply Forall_store; [rewrite Hu; exact Hg | exact I].
  - pose proof (CampingEnemy_update_speed g e) as Hs.
    assert (Hg1 : elements (snd (CampingEnemy_update g e)) = elements g)
      by apply lose_elements.
    destruct (CampingEnemy_update g e) as [e1 g1].
    cbn [fst snd] in Hs, Hg1.
    injection H as <- _ _.
    apply Forall_store; [rewrite Hg1; exact Hg |].
    cbn [default_speed] in *. rewrite Hs. exact Hel.
  - pose proof (Bullet_update_default_speed env i g e Hg) as Hb.
    generalize dependent (Bullet_update i g e).
    intros [b1 g1] H Hb. cbn [snd] in Hb.
    destruct (Bullet_hits_border g1 b1); injection H as <- _ _;
      [exact Hb | apply Forall_store; [exact Hb | exact I]].
  - apply bind_Ok in H. destruct H as ([e1 g1] & Hu & H).
    injection H as <- _ _.
    apply Forall_store; [| exact I].
    apply (Turret_update_default_speed _ _ _ _ _ Hg Hu).
Qed.

Lemma update_elements_default_speed (env : Env) (n : nat) :
  forall (i : nat) (g : Game) (rng : RNG) (g' : Game) (rng' : RNG),
    Forall (default_speed env) (elements g) ->
    update_elements env n i g rng = Ok (g', rng') ->
    Forall (default_speed env) (elements g').
Proof.
  induction n as [|n IH]; intros i g rng g' rng' Hg H.
  - injection H as <- _. exact Hg.
  - cbn [update_elements] in H.
    destruct (nth_error (elements g) i) as [el |] eqn:Hi.
    + apply bind_Ok in H. destruct H as ([[g1 kept] rng1] & Hu & H).
      apply (IH _ _ _ _ _ (Element_update_default_speed _ _ _ _ _ _ _ _ Hg Hi Hu) H).
    + injection H as <- _. exact Hg.
Qed.

Lemma Player_update_elements (g : Game) :
  elements (Player_update g) = elements g.
Proof.
  unfold Player_update. cbv zeta.
  destruct (Home_contains _ _ _); destruct (is_active _);
    try reflexivity;
    match goal with |- context [if ?c then _ else _] => destruct c end;
    reflexivity.
Qed.

Lemma fire_default_speed (env : Env) (gen : EnemyGenerator) (fuel : nat)
    (k : nat) (g : Game) (rng : RNG) (g' : Game) (rng' : RNG) :
  Forall (default_speed env) (elements g) ->
  fire env gen fuel k g rng = Ok (g', rng') ->
  Forall (default_speed env) (elements g').
Proof.
  intros Hg H. unfold fire in H.
  destruct (nth_error (timers g) k) as [[delay cb] |];
    [| injection H as <- _; exact Hg].
  cbv zeta in H.
  set (g1 := set_timers _ g) in H.
  assert (Hg1 : Forall (default_speed env) (elements g1)) by exact Hg.
  clearbody g1.
  destruct cb.
  - unfold Game_animate in H.
    destruct (is_running g1); [| injection H as <- _; exact Hg1].
    apply bind_Ok in H. destruct H as ([g2 rng2] & Hu & H).
    injection H as <- _.
    unfold Game_update in Hu. cbv zeta in Hu.
    apply update_elements_default_speed in Hu; [exact Hu |].
    rewrite Player_update_elements. exact Hg1.
  - apply (spawn_more_default_speed _ _ _ _ _ _ _ Hg1 H).
Qed.

Lemma session_default_speed (env : Env) (gen : EnemyGenerator) (fuel : nat)
    (ks : list nat) :
  forall (g : Game) (rng : RNG) (g' : Game) (rng' : RNG),
    Forall (default_speed env) (elements g) ->
    session env gen fuel ks g rng = Ok (g', rng') ->
    Forall (default_speed env) (elements g').
Proof.
  induction ks as [|k ks IH]; intros g rng g' rng' Hg H.
  - injection H as <- _. exact Hg.
  - cbn [session] in H.
    apply bind_Ok in H. destruct H as ([g1 rng1] & H1 & H).
    apply (IH g1 rng1 g' rng'); [| exact H].
    apply (fire_default_speed _ _ _ _ _ _ _ _ Hg H1).
Qed.

(** C10.  The default speed of a camping enemy is drawn once, when the
    module is loaded: loading takes one raw integer from the random
    source and the speed is 3 or 4 according to it.  Building a camping
    enemy without a [speed] argument draws nothing for its speed:
    [create_enemy] takes a single raw integer, for the size.  So every
    camping enemy of the process, whether [init_game] or a later run of
    [spawn_more] created it and however many ticks have passed, has that
    same speed. *)
Theorem CampingEnemy_default_speed (x0 y0 : R) (rng : RNG) :
  let v := (3 + rng O mod (5 - 3))%Z in
  let env := mkEnv (IZR v) x0 y0 in
  load_module x0 y0 rng = Ok (env, drop 1 rng)
  /\ (v = 3 \/ v = 4)%Z
  /\ (forall (g : Game) (sz : R) (col : string),
         ca_speed (CampingEnemy_init env g sz col None) = IZR v)
  /\ (forall (gen : EnemyGenerator) (fuel : nat) (g : Game) (rngc : RNG),
         exists c : CampingEnemy,
           create_enemy env gen fuel (Some CampingEnemy_class) g rngc
           = Ok (add_element (ECamping c) g, drop 1 rngc)
           /\ ca_speed c = IZR v)
  /\ (forall (fuel : nat) (ks : list nat) (g : Game) (gen : EnemyGenerator)
        (g1 : Game) (rng1 : RNG) (g2 : Game) (rng2 : RNG),
         elements g = [] ->
         TurtleAdventureGame_init_game env fuel g (drop 1 rng)
         = Ok (gen, g1, rng1) ->
         session env gen fuel ks g1 rng1 = Ok (g2, rng2) ->
         forall c : CampingEnemy,
           In (ECamping c) (elements g2) -> ca_speed c = IZR v).
Proof.
  intros v env.
  assert (Hv : (0 <= rng O mod (5 - 3) < 5 - 3)%Z)
    by (apply Z.mod_pos_bound; lia).
  split; [| split; [| split; [| split]]].
  - unfold load_module.
    destruct (randrange_ok 3 5 rng) as [-> _]; [lia |]. reflexivity.
  - unfold v. lia.
  - reflexivity.
  - intros gen fuel g rngc. rewrite create_enemy_camping. cbv zeta.
    eexists. split; reflexivity.
  - intros fuel ks g gen g1 rng1 g2 rng2 Hg Hinit Hrun c Hc.
    assert (Hall : Forall (default_speed env) (elements g2)).
    { apply (session_default_speed _ _ _ _ _ _ _ _) with (2 := Hrun).
      apply (init_game_default_speed _ _ _ _ _ _ _) with (2 := Hinit).
      rewrite Hg. constructor. }
    rewrite Forall_forall in Hall. exact (Hall _ Hc).
Qed.

(** ** The session after its end *)

Lemma Game_animate_stopped (env : Env) (g : Game) (rng : RNG) :
  is_running g = false -> Game_animate env g rng = Ok (g, rng).
Proof. intros H. unfold Game_animate. rewrite H. reflexivity. Qed.

Lemma game_over_stops (g : Game) :
  is_running (game_over_win g) = false /\ is_running (game_over_lose g) = false.
Proof. split; reflexivity. Qed.

Lemma same_view_add (el : Element) (g : Game) :
  same_view g -> same_view (add_element el g).
Proof. intros H. exact H. Qed.

Lemma py_int_level_1 : py_int (IZR 1 * (15 / 10)) = 1%Z.
Proof. apply py_int_nonneg; lra. Qed.

Lemma sample_init_game :
  exists (g0 : Game) (rng0 : RNG),
    TurtleAdventureGame_init_game sample_env 5 blank_game init_rng
    = Ok (sample_generator, g0, rng0)
    /\ same_view g0
    /\ is_running g0 = true
    /\ List.length (elements g0) = 5%nat
    /\ timers g0 = [(600%Z, spawn_more)]
    /\ forall n : nat, rng0 n = init_rng (14 + n)%nat.
Proof.
  change (TurtleAdventureGame_init_game sample_env 5 blank_game init_rng)
    with (EnemyGenerator_init sample_env 1 5 sample_game init_rng).
  unfold EnemyGenerator_init. cbv zeta. unfold initial_enemies.
  fold sample_generator.
  replace (List.concat _)
    with [Some RandomMovingEnemy_class; Some HomingEnemy_class;
          Some CampingEnemy_class; Some BouncingEnemy_class;
          Some Turret_class] by reflexivity.
  cbn [create_enemies].
  place_first 10%Z 310%Z 110%Z.
  place_first 7%Z 407%Z 57%Z.
  rewrite create_enemy_camping. cbn [bind].
  place_first 12%Z 212%Z 412%Z.
  place_first 9%Z 509%Z 39%Z.
  match goal with
  | |- context [randrange 500 1000 ?r] =>
      destruct (randrange_ok 500 1000 r) as [-> _]; [lia |]
  end.
  cbn [bind].
  eexists; eexists. split; [reflexivity |].
  repeat split.
Qed.

Lemma sample_spawn_more (g : Game) (rng : RNG) :
  same_view g ->
  rng 0%nat = 0%Z -> rng 1%nat = 5%Z -> rng 2%nat = 300%Z -> rng 3%nat = 100%Z ->
  rng 4%nat = 2%Z -> rng 5%nat = 7%Z -> rng 6%nat = 0%Z ->
  exists rng' : RNG,
    EnemyGenerator_spawn_more sample_env sample_generator 5 g rng
    = Ok (after 1000 spawn_more
            (add_element
               (ECamping
                  (mkCampingEnemy
                     (mkEnemy (700 - 20 / 2 * 5) (250 - 20 / 2 * 5) 22 "#ff0000")
                     3 moving_right (20 / 2 * 5)))
               (add_element
                  (ERandomMoving
                     (mkRandomMovingEnemy (mkEnemy 310 110 20 "#7e7e7e")))
                  g)),
          rng').
Proof.
  intros Hv H0 H1 H2 H3 H4 H5 H6.
  unfold EnemyGenerator_spawn_more.
  change (generator_level sample_generator) with 1%Z.
  rewrite py_int_level_1.
  change (repeat None (Z.to_nat (1 + 1))) with [@None EnemyType; None].
  cbn [create_enemies].
  rewrite (sample_create_random g rng Hv H0 H1 H2 H3). cbn [bind].
  rewrite (sample_create_camping _ (drop 4 rng) (same_view_add _ g Hv) H4 H5).
  cbn [bind].
  destruct (randrange_ok 1000 1500 (drop 2 (drop 4 rng))) as [-> _]; [lia |].
  cbn [bind].
  assert (Hd : drop 2 (drop 4 rng) O = 0%Z)
    by (unfold drop; cbn [Nat.add]; exact H6).
  rewrite Hd. eexists. reflexivity.
Qed.

(** C2, evaluated on the code.  [init_game] sets up a running session;
    once [game_over_lose] has stopped it, the timer service runs the
    pending [spawn_more]: the callback creates two enemies and schedules
    itself again although the session is over. *)
Theorem spawn_more_after_game_over :
  exists (gen : EnemyGenerator) (g0 : Game) (rng0 : RNG),
    TurtleAdventureGame_init_game sample_env 5 blank_game init_rng
    = Ok (gen, g0, rng0)
    /\ is_running g0 = true
    /\ is_running (game_over_lose g0) = false
    /\ exists (g' : Game) (rng' : RNG),
         fire sample_env gen 5 0 (game_over_lose g0) rng0 = Ok (g', rng')
         /\ is_running g' = false
         /\ elements g' =
            elements (game_over_lose g0)
            ++ [ERandomMoving
                  (mkRandomMovingEnemy (mkEnemy 310 110 20 "#7e7e7e"));
                ECamping
                  (mkCampingEnemy
                     (mkEnemy (700 - 20 / 2 * 5) (250 - 20 / 2 * 5) 22
                        "#ff0000")
                     3 moving_right (20 / 2 * 5))]
         /\ timers g' = [(1000%Z, spawn_more)].
Proof.
  destruct sample_init_game as (g0 & rng0 & Hinit & Hv & Hrun & _ & Ht & Hrng).
  exists sample_generator, g0, rng0.
  split; [exact Hinit |]. split; [exact Hrun |]. split; [reflexivity |].
  unfold fire.
  change (timers (game_over_lose g0)) with (timers g0). rewrite Ht.
  cbn [nth_error firstn skipn app].
  set (g1 := set_timers [] (game_over_lose g0)).
  destruct (sample_spawn_more g1 rng0) as (rng' & Hspawn);
    try (rewrite Hrng; reflexivity).
  { exact Hv. }
  exists (after 1000 spawn_more
            (add_element
               (ECamping
                  (mkCampingEnemy
                     (mkEnemy (700 - 20 / 2 * 5) (250 - 20 / 2 * 5) 22 "#ff0000")
                     3 moving_right (20 / 2 * 5)))
               (add_element
                  (ERandomMoving
                     (mkRandomMovingEnemy (mkEnemy 310 110 20 "#7e7e7e")))
                  g1))), rng'.
  split; [exact Hspawn |]. split; [reflexivity |]. split.
  - cbn. rewrite <- app_assoc. reflexivity.
  - reflexivity.
Qed.

(** ** A process from the loading of the module *)

(** [init_game] on the draws of [init_rng] creates a camping enemy. *)
Lemma sample_init_camping :
  exists (g0 : Game) (rng0 : RNG) (c : CampingEnemy),
    TurtleAdventureGame_init_game sample_env 5 blank_game init_rng
    = Ok (sample_generator, g0, rng0)
    /\ In (ECamping c) (elements g0).
Proof.
  change (TurtleAdventureGame_init_game sample_env 5 blank_game init_rng)
    with (EnemyGenerator_init sample_env 1 5 sample_game init_rng).
  unfold EnemyGenerator_init. cbv zeta. unfold initial_enemies.
  fold sample_generator.
  replace (List.concat _)
    with [Some RandomMovingEnemy_class; Some HomingEnemy_class;
          Some CampingEnemy_class; Some BouncingEnemy_class;
          Some Turret_class] by reflexivity.
  cbn [create_enemies].
  place_first 10%Z 310%Z 110%Z.
  place_first 7%Z 407%Z 57%Z.
  rewrite create_enemy_camping. cbn [bind].
  place_first 12%Z 212%Z 412%Z.
  place_first 9%Z 509%Z 39%Z.
  match goal with
  | |- context [randrange 500 1000 ?r] =>
      destruct (randrange_ok 500 1000 r) as [-> _]; [lia |]
  end.
  cbn [bind].
  eexists; eexists; eexists. split; [reflexivity |].
  cbn [after set_timers elements add_element set_elements app place In].
  right; right; left. reflexivity.
Qed.

(** A process whose first draw gives the default speed 3: [init_game]
    creates a camping enemy, and so does the first run of [spawn_more]. *)
Lemma sample_session :
  exists (g1 : Game) (rng1 : RNG) (g2 : Game) (rng2 : RNG)
         (c1 c2 : CampingEnemy),
    TurtleAdventureGame_init_game sample_env 5 blank_game init_rng
    = Ok (sample_generator, g1, rng1)
    /\ In (ECamping c1) (elements g1)
    /\ session sample_env sample_generator 5 [0%nat] g1 rng1 = Ok (g2, rng2)
    /\ elements g2
       = elements g1
         ++ [ERandomMoving (mkRandomMovingEnemy (mkEnemy 310 110 20 "#7e7e7e"));
             ECamping c2].
Proof.
  destruct sample_init_camping as (g1 & rng1 & c1 & Hinit & Hin).
  destruct sample_init_game as (g0 & rng0 & Hinit' & Hv & _ & _ & Ht & Hrng).
  rewrite Hinit in Hinit'. injection Hinit' as Eg Er. subst g0 rng0.
  set (g := set_timers [] g1).
  destruct (sample_spawn_more g rng1) as (rng' & Hspawn);
    try (rewrite Hrng; reflexivity).
  { exact Hv. }
  eexists g1, rng1, _, rng', c1, _.
  split; [exact Hinit |]. split; [exact Hin |]. split.
  - cbn [session]. unfold fire. rewrite Ht.
    cbn [nth_error firstn skipn app]. fold g. rewrite Hspawn. reflexivity.
  - cbn [after set_timers elements add_element set_elements].
    rewrite <- app_assoc. reflexivity.
Qed.

(** The camping enemy of [init_game] and the one [spawn_more] creates
    later both move at the speed drawn when the module was loaded. *)
Lemma CampingEnemy_default_speed_witness :
  exists (g1 : Game) (rng1 : RNG) (g2 : Game) (rng2 : RNG)
         (c1 c2 : CampingEnemy),
    load_module 0 0 load_rng = Ok (sample_env, init_rng)
    /\ TurtleAdventureGame_init_game sample_env 5 blank_game init_rng
       = Ok (sample_generator, g1, rng1)
    /\ session sample_env sample_generator 5 [0%nat] g1 rng1 = Ok (g2, rng2)
    /\ In (ECamping c1) (elements g1)
    /\ elements g2
       = elements g1
         ++ [ERandomMoving (mkRandomMovingEnemy (mkEnemy 310 110 20 "#7e7e7e"));
             ECamping c2]
    /\ ca_speed c1 = 3 /\ ca_speed c2 = 3.
Proof.
  destruct sample_session
    as (g1 & rng1 & g2 & rng2 & c1 & c2 & Hinit & Hin & Hrun & Hels).
  destruct (CampingEnemy_default_speed 0 0 load_rng)
    as (Hload & _ & _ & _ & Hsession).
  exists g1, rng1, g2, rng2, c1, c2.
  split; [exact Hload |]. split; [exact Hinit |]. split; [exact Hrun |].
  split; [exact Hin |]. split; [exact Hels |].
  split;
    apply (Hsession 5%nat [0%nat] blank_game sample_generator g1 rng1 g2 rng2
             eq_refl Hinit Hrun);
    rewrite Hels; apply in_or_app; [left; exact Hin | right; right; left; reflexivity].
Defined.

(** * Further properties of the code *)

(** ** The hit box *)

Lemma between_Rabs (c h a : R) : between (c - h) a (c + h) = true <-> Rabs (a - c) <= h.
Proof.
  rewrite between_true. unfold Rabs. destruct (Rcase_abs (a - c)); lra.
Qed.

(** X1.  [hits_player] answers true exactly when the player is within
    [max (size/2) 7] of the enemy on both axes: the two boxes are
    concentric and their union is the larger one. *)
Theorem hits_player_chebyshev (g : Game) (e : Enemy) :
  hits_player g e = true <->
  Rabs (player_x (player g) - x e) <= Rmax (size e / 2) 7
  /\ Rabs (player_y (player g) - y e) <= Rmax (size e / 2) 7.
Proof.
  unfold hits_player.
  rewrite orb_true_iff, !andb_true_iff, !between_Rabs.
  rewrite (Rabs_minus_sym (x e)), (Rabs_minus_sym (y e)).
  unfold Rmax. destruct (Rle_dec (size e / 2) 7); split; intros H;
    try tauto; destruct H as [[H1 H2] | [H1 H2]]; try (split; lra); tauto.
Qed.

(** ** Winning *)

Lemma Home_contains_iff (h : Home) (a b : R) :
  Home_contains h a b = true <->
  in_square (home_x h) (home_y h) (IZR (home_size h) / 2) a b.
Proof.
  unfold Home_contains, in_square. cbn zeta.
  rewrite andb_true_iff, !between_true. tauto.
Qed.

(** X2.  After [Player.update] the session is stopped exactly when it
    was stopped before or the player stood in the home square, edges
    included; the banner is added in the second case only, and the home
    and the collection are left alone. *)
Theorem Player_update_wins_iff (g : Game) :
  (is_running (Player_update g) = false <->
   is_running g = false
   \/ in_square (home_x (home g)) (home_y (home g))
                (IZR (home_size (home g)) / 2)
                (player_x (player g)) (player_y (player g)))
  /\ (texts (Player_update g) =
      if Home_contains (home g) (player_x (player g)) (player_y (player g))
      then texts g ++ ["You Win"%string] else texts g)
  /\ home (Player_update g) = home g
  /\ elements (Player_update g) = elements g.
Proof.
  destruct (Player_update_flags g) as [Hrun Htexts].
  rewrite Hrun, Htexts, <- Home_contains_iff. unfold after_home_test.
  assert (Hsame : home (Player_update g) = home g
                  /\ elements (Player_update g) = elements g).
  { unfold Player_update. fold (after_home_test g).
    assert (Hh : home (after_home_test g) = home g
                 /\ elements (after_home_test g) = elements g)
      by (unfold after_home_test; destruct Home_contains; split; reflexivity).
    destruct (is_active (waypoint (after_home_test g))); [| exact Hh].
    cbn zeta. destruct (_ <? _); exact Hh. }
  destruct (Home_contains _ _ _); cbn.
  - repeat split; try tauto; apply Hsame.
  - repeat split; try apply Hsame; intros H; [left; exact H |].
    destruct H as [H | H]; [exact H | discriminate].
Qed.

(** ** Walking to the waypoint *)

Lemma Player_update_keeps (g : Game) :
  waypoint_x (waypoint (Player_update g)) = waypoint_x (waypoint g)
  /\ waypoint_y (waypoint (Player_update g)) = waypoint_y (waypoint g)
  /\ player_speed (player (Player_update g)) = player_speed (player g).
Proof.
  destruct (is_active (waypoint g)) eqn:Hact.
  - destruct (Player_update_active g Hact) as [Hp Hw]. rewrite Hp, Hw.
    destruct (_ <? _); (split; [| split]); reflexivity.
  - unfold Player_update. fold (after_home_test g).
    rewrite after_home_test_waypoint, Hact.
    rewrite after_home_test_waypoint, after_home_test_player.
    (split; [| split]); reflexivity.
Qed.

Lemma Player_step_distance (g : Game) :
  is_active (waypoint g) = true ->
  (waypoint_x (waypoint g) <> player_x (player g)
   \/ waypoint_y (waypoint g) <> player_y (player g) ->
   waypoint_distance (Player_update g)
   = Rabs (waypoint_distance g - player_speed (player g)))
  /\ (waypoint_x (waypoint g) = player_x (player g) ->
      waypoint_y (waypoint g) = player_y (player g) ->
      waypoint_distance (Player_update g) = Rabs (player_speed (player g)))
  /\ is_active (waypoint (Player_update g))
     = negb (waypoint_distance (Player_update g) <? player_speed (player g)).
Proof.
  intros Hact.
  destruct (Player_update_keeps g) as (Hwx & Hwy & _).
  destruct (Player_update_active g Hact) as [Hp Hw].
  unfold waypoint_distance. rewrite Hwx, Hwy.
  unfold player_x, player_y. rewrite Hp. cbn.
  set (px := RawTurtle.xcor (turtle (player g))).
  set (py := RawTurtle.ycor (turtle (player g))).
  set (wx := waypoint_x (waypoint g)). set (wy := waypoint_y (waypoint g)).
  set (s := player_speed (player g)).
  set (h := RawTurtle.towards (turtle (player g)) wx wy).
  assert (Hunit : cos h * cos h + sin h * sin h = 1).
  { generalize (sin2_cos2 h). unfold Rsqr. lra. }
  split; [| split].
  - intros Hne.
    destruct (atan2_direction (wy - py) (wx - px)) as [Hc Hs].
    { destruct Hne; [left | right]; lra. }
    change (RawTurtle.atan2 (wy - py) (wx - px)) with h in Hc, Hs.
    unfold dist.
    set (d := sqrt ((wx - px) * (wx - px) + (wy - py) * (wy - py))) in *.
    replace ((wx - (px + s * cos h)) * (wx - (px + s * cos h))
             + (wy - (py + s * sin h)) * (wy - (py + s * sin h)))
      with (Rsqr (d - s)).
    + apply sqrt_Rsqr_abs.
    + unfold Rsqr.
      assert (HA : wx = px + cos h * d) by lra.
      assert (HB : wy = py + sin h * d) by lra.
      rewrite HA, HB.
      transitivity ((d - s) * (d - s) * (cos h * cos h + sin h * sin h));
        [rewrite Hunit; ring | ring].
  - intros Hx Hy. unfold dist. fold px in Hx. fold py in Hy.
    replace ((wx - (px + s * cos h)) * (wx - (px + s * cos h))
             + (wy - (py + s * sin h)) * (wy - (py + s * sin h)))
      with (Rsqr s).
    + apply sqrt_Rsqr_abs.
    + unfold Rsqr. rewrite Hx, Hy.
      transitivity (s * s * (cos h * cos h + sin h * sin h));
        [rewrite Hunit; ring | ring].
  - rewrite Hw. unfold RawTurtle.distance, dist. cbn.
    fold px py wx wy s h.
    destruct (_ <? _); [reflexivity | exact Hact].
Qed.

(** X3.  With the waypoint active, an update turns the distance [d] to
    the waypoint into [|d - speed|]; a player standing exactly on the
    waypoint steps off to distance [|speed|].  The waypoint stays active
    exactly when the new distance is not below [speed]. *)
Theorem Player_closes_in (g : Game) :
  is_active (waypoint g) = true ->
  (waypoint_x (waypoint g) <> player_x (player g)
   \/ waypoint_y (waypoint g) <> player_y (player g) ->
   waypoint_distance (Player_update g)
   = Rabs (waypoint_distance g - player_speed (player g)))
  /\ (waypoint_x (waypoint g) = player_x (player g) ->
      waypoint_y (waypoint g) = player_y (player g) ->
      waypoint_distance (Player_update g) = Rabs (player_speed (player g)))
  /\ is_active (waypoint (Player_update g))
     = negb (waypoint_distance (Player_update g) <? player_speed (player g)).
Proof. apply Player_step_distance. Qed.

Lemma dist_zero_iff (x1 y1 x2 y2 : R) :
  dist x1 y1 x2 y2 = 0 <-> x2 = x1 /\ y2 = y1.
Proof.
  unfold dist. split.
  - intros H.
    assert (Hx : 0 <= (x2 - x1) * (x2 - x1)) by apply Rle_0_sqr.
    assert (Hy : 0 <= (y2 - y1) * (y2 - y1)) by apply Rle_0_sqr.
    apply sqrt_eq_0 in H; [| lra].
    assert (Hx0 : (x2 - x1) * (x2 - x1) = 0) by lra.
    assert (Hy0 : (y2 - y1) * (y2 - y1) = 0) by lra.
    apply Rmult_integral in Hx0, Hy0. split; tauto || lra.
  - intros [-> ->].
    replace ((x1 - x1) * (x1 - x1) + (y1 - y1) * (y1 - y1)) with 0 by ring.
    apply sqrt_0.
Qed.

Lemma waypoint_distance_nonneg (g : Game) : 0 <= waypoint_distance g.
Proof. unfold waypoint_distance, dist. apply sqrt_pos. Qed.

(** From a positive distance: one tick per [speed] of distance. *)
Lemma Player_walk_from (n : nat) :
  forall g : Game,
    0 < player_speed (player g) ->
    is_active (waypoint g) = true ->
    0 < waypoint_distance g <= INR (S n) * player_speed (player g) ->
    exists k : nat,
      (0 < k <= S n)%nat
      /\ is_active (waypoint (Player_run k g)) = false
      /\ waypoint_distance (Player_run k g) < player_speed (player g)
      /\ forall j : nat, (j < k)%nat ->
           is_active (waypoint (Player_run j g)) = true.
Proof.
  induction n as [|n IH]; intros g Hs Hact [Hd0 Hd].
  - destruct (Player_step_distance g Hact) as (Hstep & _ & Hact').
    rewrite Hstep in Hact'.
    2:{ destruct (Req_dec (waypoint_x (waypoint g)) (player_x (player g)))
          as [Hx | Hx]; [| left; exact Hx].
        destruct (Req_dec (waypoint_y (waypoint g)) (player_y (player g)))
          as [Hy | Hy]; [| right; exact Hy].
        exfalso. unfold waypoint_distance in Hd0.
        rewrite (proj2 (dist_zero_iff _ _ _ _) (conj Hx Hy)) in Hd0. lra. }
    exists 1%nat. change (INR 1) with 1 in Hd.
    assert (Hlt : Rabs (waypoint_distance g - player_speed (player g))
                  < player_speed (player g))
      by (unfold Rabs; destruct (Rcase_abs _); lra).
    split; [lia |]. cbn [Player_run]. split.
    + rewrite Hact'. apply negb_false_iff. apply Rltb_true. exact Hlt.
    + split.
      * rewrite Hstep; [exact Hlt |].
        destruct (Req_dec (waypoint_x (waypoint g)) (player_x (player g)))
          as [Hx | Hx]; [| left; exact Hx].
        destruct (Req_dec (waypoint_y (waypoint g)) (player_y (player g)))
          as [Hy | Hy]; [| right; exact Hy].
        exfalso. unfold waypoint_distance in Hd0.
        rewrite (proj2 (dist_zero_iff _ _ _ _) (conj Hx Hy)) in Hd0. lra.
      * intros j Hj. assert (j = O) by lia. subst j. exact Hact.
  - assert (Hne : waypoint_x (waypoint g) <> player_x (player g)
                  \/ waypoint_y (waypoint g) <> player_y (player g)).
    { destruct (Req_dec (waypoint_x (waypoint g)) (player_x (player g)))
        as [Hx | Hx]; [| left; exact Hx].
      destruct (Req_dec (waypoint_y (waypoint g)) (player_y (player g)))
        as [Hy | Hy]; [| right; exact Hy].
      exfalso. unfold waypoint_distance in Hd0.
      rewrite (proj2 (dist_zero_iff _ _ _ _) (conj Hx Hy)) in Hd0. lra. }
    destruct (Player_step_distance g Hact) as (Hstep & _ & Hact').
    specialize (Hstep Hne). rewrite Hstep in Hact'.
    destruct (Player_update_keeps g) as (_ & _ & Hsp).
    destruct (Rlt_dec (waypoint_distance g) (2 * player_speed (player g)))
      as [Hnear | Hfar].
    + assert (Hlt : Rabs (waypoint_distance g - player_speed (player g))
                    < player_speed (player g))
        by (unfold Rabs; destruct (Rcase_abs _); lra).
      exists 1%nat. split; [lia |]. cbn [Player_run]. split.
      * rewrite Hact'. apply negb_false_iff. apply Rltb_true. exact Hlt.
      * split; [rewrite Hstep; exact Hlt |].
        intros j Hj. assert (j = O) by lia. subst j. exact Hact.
    + assert (Habs : Rabs (waypoint_distance g - player_speed (player g))
                     = waypoint_distance g - player_speed (player g))
        by (apply Rabs_right; lra).
      rewrite Habs in Hstep, Hact'.
      destruct (IH (Player_update g)) as (k & Hk & Hin & Hdist & Hj).
      * rewrite Hsp. exact Hs.
      * rewrite Hact'. apply negb_true_iff. apply Rltb_false. lra.
      * rewrite Hstep, Hsp. rewrite (S_INR (S n)) in Hd. lra.
      * exists (S k). split; [lia |]. cbn [Player_run].
        split; [exact Hin |]. split; [rewrite <- Hsp; exact Hdist |].
        intros j Hlt. destruct j as [|j]; [exact Hact |].
        cbn [Player_run]. apply Hj. lia.
Qed.

(** X4.  With a positive speed the player reaches an active waypoint:
    after some number of updates the waypoint is deactivated, the player
    being closer than [speed] to it, and it is active until then. *)
Theorem Player_arrives (g : Game) :
  0 < player_speed (player g) ->
  is_active (waypoint g) = true ->
  exists k : nat,
    (0 < k)%nat
    /\ is_active (waypoint (Player_run k g)) = false
    /\ waypoint_distance (Player_run k g) < player_speed (player g)
    /\ forall j : nat, (j < k)%nat ->
         is_active (waypoint (Player_run j g)) = true.
Proof.
  intros Hs Hact.
  destruct (Rle_lt_or_eq_dec _ _ (waypoint_distance_nonneg g)) as [Hpos | Hzero].
  - destruct (nat_above (waypoint_distance g / player_speed (player g)))
      as [n Hn].
    apply (Rmult_le_compat_r (player_speed (player g))) in Hn; [| lra].
    unfold Rdiv in Hn. rewrite Rmult_assoc, Rinv_l, Rmult_1_r in Hn by lra.
    destruct (Player_walk_from n g Hs Hact) as (k & Hk & Hrest).
    + rewrite S_INR. split; [exact Hpos | lra].
    + exists k. split; [lia | exact Hrest].
  - symmetry in Hzero. unfold waypoint_distance in Hzero.
    apply dist_zero_iff in Hzero. destruct Hzero as [Hx Hy].
    destruct (Player_step_distance g Hact) as (_ & Hstep & Hact').
    specialize (Hstep Hx Hy). rewrite Hstep, Rabs_right in Hact' by lra.
    rewrite Rabs_right in Hstep by lra.
    destruct (Player_update_keeps g) as (_ & _ & Hsp).
    destruct (Player_walk_from 0 (Player_update g)) as (k & Hk & Hin & Hd & Hj).
    + rewrite Hsp. exact Hs.
    + rewrite Hact'. apply negb_true_iff. apply Rltb_false. lra.
    + rewrite Hstep, Hsp. change (INR 1) with 1. lra.
    + exists (S k). split; [lia |]. cbn [Player_run].
      split; [exact Hin |]. split; [rewrite <- Hsp; exact Hd |].
      intros j Hlt. destruct j as [|j]; [exact Hact |].
      cbn [Player_run]. apply Hj. lia.
Qed.

(** ** Enemies and the edges of the field *)

Lemma BouncingEnemy_update_bouncing (g : Game) (e : BouncingEnemy) :
  0 <= bo_xspeed e -> 0 <= bo_yspeed e ->
  (0 < canvas_winfo_width g)%Z -> (0 < canvas_winfo_height g)%Z ->
  bouncing g e ->
  let e' := fst (BouncingEnemy_update g e) in
  bouncing g e'
  /\ bo_xspeed e' = bo_xspeed e /\ bo_yspeed e' = bo_yspeed e.
Proof.
  intros Hxs Hys HW HH [Hx Hy]. apply IZR_lt in HW, HH.
  destruct e as [[ex ey es ec] xs ys xst yst]. cbn in *.
  unfold BouncingEnemy_update, bouncing.
  destruct Hx as [[-> Hx] | [-> Hx]], Hy as [[-> Hy] | [-> Hy]];
    cbn; unfold BouncingEnemy_moving_right, BouncingEnemy_moving_left,
           BouncingEnemy_moving_down, BouncingEnemy_moving_up; cbn;
    repeat match goal with
           | |- context [?a >=? ?b] =>
               let E := fresh "E" in
               destruct (a >=? b) eqn:E;
               [apply Rgeb_true in E | apply Rgeb_false in E]
           | |- context [?a <=? ?b] =>
               let E := fresh "E" in
               destruct (a <=? b) eqn:E;
               [apply Rleb_true in E | apply Rleb_false in E]
           end; cbn;
    (split; [split; [first [left; split; [reflexivity | lra]
                           | right; split; [reflexivity | lra]]
                    | first [left; split; [reflexivity | lra]
                            | right; split; [reflexivity | lra]]]
            | split; reflexivity]).
Qed.

Lemma bouncing_within (g : Game) (e : BouncingEnemy) :
  0 <= bo_xspeed e -> 0 <= bo_yspeed e ->
  bouncing g e ->
  within (canvas_winfo_width g) (canvas_winfo_height g)
         (bo_xspeed e) (bo_yspeed e) (bo_base e).
Proof.
  intros Hxs Hys [[[_ Hx] | [_ Hx]] [[_ Hy] | [_ Hy]]];
    unfold within; split; lra.
Qed.

(** X5.  A bouncing enemy of non-negative speeds, once it heads for an
    edge from inside the canvas or heads back from at most one step
    beyond it, does so after every number of updates: it is never more
    than one step outside the canvas. *)
Theorem BouncingEnemy_stays_near_field (n : nat) (g : Game)
    (e : BouncingEnemy) :
  0 <= bo_xspeed e -> 0 <= bo_yspeed e ->
  (0 < canvas_winfo_width g)%Z -> (0 < canvas_winfo_height g)%Z ->
  bouncing g e ->
  bouncing g (BouncingEnemy_run n g e)
  /\ within (canvas_winfo_width g) (canvas_winfo_height g)
            (bo_xspeed e) (bo_yspeed e)
            (bo_base (BouncingEnemy_run n g e)).
Proof.
  intros Hxs Hys HW HH. revert e Hxs Hys.
  induction n as [|n IH]; intros e Hxs Hys Hb.
  - split; [exact Hb | apply bouncing_within; assumption].
  - destruct (BouncingEnemy_update_bouncing g e Hxs Hys HW HH Hb)
      as (Hb' & Hx' & Hy').
    cbn [BouncingEnemy_run]. rewrite <- Hx', <- Hy'.
    apply IH; [rewrite Hx' | rewrite Hy' |]; assumption.
Qed.

(** An enemy as [create_enemy] places it is bouncing. *)
Lemma BouncingEnemy_init_bouncing (env : Env) (g : Game) (sz : R)
    (col : string) (xs ys a b : R) :
  0 <= xs -> 0 <= ys ->
  0 <= a < IZR (canvas_winfo_width g) ->
  0 <= b < IZR (canvas_winfo_height g) ->
  bouncing g
    (let e := BouncingEnemy_init env sz col xs ys in
     mkBouncingEnemy (set_y (set_x (bo_base e) a) b)
       (bo_xspeed e) (bo_yspeed e) (bo_xstate e) (bo_ystate e)).
Proof.
  intros Hxs Hys Ha Hb. unfold bouncing. cbn.
  split; left; split; try reflexivity; lra.
Qed.

(** X6.  In a field of positive extent an update of a random enemy
    never raises, moves each coordinate by at most 15, and keeps an
    enemy that is within 15 of the field within 15 of the field. *)
Theorem RandomMovingEnemy_stays_near_field (g : Game)
    (e : RandomMovingEnemy) (rng : RNG) :
  (0 < winfo_width g)%Z -> (0 < winfo_height g)%Z ->
  within (winfo_width g) (winfo_height g) 15 15 (rm_base e) ->
  exists (e' : RandomMovingEnemy) (g' : Game) (rng' : RNG),
    RandomMovingEnemy_update g e rng = Ok (e', g', rng')
    /\ within (winfo_width g) (winfo_height g) 15 15 (rm_base e')
    /\ Rabs (x (rm_base e') - x (rm_base e)) <= 15
    /\ Rabs (y (rm_base e') - y (rm_base e)) <= 15.
Proof.
  intros HW HH [Hx Hy].
  destruct (RandomMovingEnemy_update_drawn g e rng HW HH)
    as (dx & dy & g' & Hup & (Hx0 & HxW & Hxm) & (Hy0 & HyH & Hym)).
  exists (jittered e dx dy), g', (drop 2 rng).
  split; [exact Hup |]. cbn.
  apply IZR_lt in HW, HH.
  assert (Hdx : -15 <= IZR dx <= 15 /\
                (x (rm_base e) <= 0 -> 0 <= IZR dx) /\
                (IZR (winfo_width g) <= x (rm_base e) -> IZR dx <= 0)).
  { destruct (Rle_dec (x (rm_base e)) 0) as [H0 | H0].
    - destruct (Hx0 H0) as [Ha Hb]. apply IZR_le in Ha. apply IZR_lt in Hb.
      repeat split; intros; lra.
    - destruct (Rle_dec (IZR (winfo_width g)) (x (rm_base e))) as [H1 | H1].
      + destruct (HxW H1) as [Ha Hb]. apply IZR_le in Ha. apply IZR_lt in Hb.
        repeat split; intros; lra.
      + destruct (Hxm ltac:(lra)) as [Ha Hb].
        apply IZR_le in Ha. apply IZR_lt in Hb.
        repeat split; intros; lra. }
  assert (Hdy : -15 <= IZR dy <= 15 /\
                (y (rm_base e) <= 0 -> 0 <= IZR dy) /\
                (IZR (winfo_height g) <= y (rm_base e) -> IZR dy <= 0)).
  { destruct (Rle_dec (y (rm_base e)) 0) as [H0 | H0].
    - destruct (Hy0 H0) as [Ha Hb]. apply IZR_le in Ha. apply IZR_lt in Hb.
      repeat split; intros; lra.
    - destruct (Rle_dec (IZR (winfo_height g)) (y (rm_base e))) as [H1 | H1].
      + destruct (HyH H1) as [Ha Hb]. apply IZR_le in Ha. apply IZR_lt in Hb.
        repeat split; intros; lra.
      + destruct (Hym ltac:(lra)) as [Ha Hb].
        apply IZR_le in Ha. apply IZR_lt in Hb.
        repeat split; intros; lra. }
  destruct Hdx as (Hdx & Hdx0 & HdxW), Hdy as (Hdy & Hdy0 & HdyH).
  unfold within. cbn.
  split; [| split].
  - split.
    + destruct (Rle_dec (x (rm_base e)) 0) as [H0 | H0];
        [specialize (Hdx0 H0) |]; lra.
    + destruct (Rle_dec (y (rm_base e)) 0) as [H0 | H0];
        [specialize (Hdy0 H0) |]; lra.
  - unfold Rabs. destruct (Rcase_abs _); lra.
  - unfold Rabs. destruct (Rcase_abs _); lra.
Qed.

(** ** The patrol of a camping enemy *)

Lemma CampingEnemy_update_on_patrol (g : Game) (e : CampingEnemy) :
  0 <= ca_speed e -> 0 <= multiplier e ->
  on_patrol g e ->
  let e' := fst (CampingEnemy_update g e) in
  on_patrol g e' /\ ca_speed e' = ca_speed e /\ multiplier e' = multiplier e.
Proof.
  intros Hs Hm Hon.
  destruct e as [[ex ey es ec] sp st m]. cbn in *.
  unfold on_patrol in *. cbn in *.
  unfold CampingEnemy_update, CampingEnemy_call.
  destruct st; cbn in *;
    unfold CampingEnemy_moving_right, CampingEnemy_moving_down,
      CampingEnemy_moving_left, CampingEnemy_moving_up; cbn;
    match goal with
    | |- context [?a >=? ?b] =>
        let E := fresh "E" in
        destruct (a >=? b) eqn:E;
        [apply Rgeb_true in E | apply Rgeb_false in E]
    | |- context [?a <=? ?b] =>
        let E := fresh "E" in
        destruct (a <=? b) eqn:E;
        [apply Rleb_true in E | apply Rleb_false in E]
    end; cbn; repeat split; lra.
Qed.

(** X7.  With a non-negative speed and half side, a camping enemy that
    is on the side its mode walks is still on such a side after every
    number of updates, hence inside the patrol square. *)
Theorem CampingEnemy_stays_on_patrol (n : nat) (g : Game) (e : CampingEnemy) :
  0 <= ca_speed e -> 0 <= multiplier e ->
  on_patrol g e ->
  on_patrol g (CampingEnemy_run n g e)
  /\ in_square (home_x (home g)) (home_y (home g)) (multiplier e)
       (x (ca_base (CampingEnemy_run n g e)))
       (y (ca_base (CampingEnemy_run n g e))).
Proof.
  revert e. induction n as [|n IH]; intros e Hs Hm Hon.
  - split; [exact Hon |]. cbn [CampingEnemy_run].
    unfold on_patrol in Hon. unfold in_square.
    destruct (ca_state e); cbn zeta in Hon; lra.
  - destruct (CampingEnemy_update_on_patrol g e Hs Hm Hon) as (Hon' & Hs' & Hm').
    cbn [CampingEnemy_run]. rewrite <- Hm'.
    apply IH; [rewrite Hs' | rewrite Hm' |]; assumption.
Qed.

(** ** The flight of a bullet *)

Lemma hits_player_ext (g g' : Game) (e e' : Enemy) :
  player g' = player g ->
  x e' = x e -> y e' = y e -> size e' = size e ->
  hits_player g' e' = hits_player g e.
Proof.
  intros Hp Hx Hy Hs. unfold hits_player. rewrite Hp, Hx, Hy, Hs. reflexivity.
Qed.

Lemma Bullet_steps_spec (n : nat) :
  forall (g : Game) (b : Bullet),
    let b' := fst (Bullet_steps n g b) in
    let g' := snd (Bullet_steps n g b) in
    x (bu_base b') = x (bu_base b) + INR n * (bu_xspeed b / 10)
    /\ y (bu_base b') = y (bu_base b) + INR n * (bu_yspeed b / 10)
    /\ size (bu_base b') = size (bu_base b)
    /\ color (bu_base b') = color (bu_base b)
    /\ bu_xspeed b' = bu_xspeed b /\ bu_yspeed b' = bu_yspeed b
    /\ player g' = player g /\ elements g' = elements g
    /\ winfo_width g' = winfo_width g /\ winfo_height g' = winfo_height g
    /\ (is_running g' = false <->
        is_running g = false
        \/ exists k : nat, (1 <= k <= n)%nat
                           /\ hits_player g (Bullet_at b k) = true).
Proof.
  induction n as [|n IH]; intros g b.
  - cbn. repeat split; try ring.
    + intros H. left. exact H.
    + intros [H | (k & Hk & _)]; [exact H | lia].
  - cbn [Bullet_steps].
    set (b1 := mkBullet _ (bu_xspeed b) (bu_yspeed b)).
    set (g1 := if hits_player g (bu_base b1) then game_over_lose g else g).
    destruct (IH g1 b1)
      as (Hx & Hy & Hs & Hc & Hxs & Hys & Hp & He & HW & HH & Hrun).
    assert (Hg1 : player g1 = player g /\ elements g1 = elements g
                  /\ winfo_width g1 = winfo_width g
                  /\ winfo_height g1 = winfo_height g)
      by (subst g1; destruct (hits_player _ _); repeat split).
    destruct Hg1 as (Hp1 & He1 & HW1 & HH1).
    assert (Hfirst : hits_player g (bu_base b1) = hits_player g (Bullet_at b 1)).
    { apply hits_player_ext; cbn; try reflexivity; ring. }
    assert (Hshift : forall k, hits_player g1 (Bullet_at b1 k)
                               = hits_player g (Bullet_at b (S k))).
    { intros k. apply hits_player_ext; [exact Hp1 | | | reflexivity];
        cbn [Bullet_at x y bu_base b1 bu_xspeed bu_yspeed set_x set_y];
        rewrite S_INR; ring. }
    cbn zeta. rewrite Hx, Hy, Hs, Hc, Hxs, Hys, Hp, He, HW, HH, Hrun.
    rewrite Hp1, He1, HW1, HH1.
    repeat split; try reflexivity;
      try (cbn [x y bu_base b1 bu_xspeed bu_yspeed set_x set_y];
           rewrite (S_INR n); ring).
    + intros [H | (k & Hk & Hk')].
      * subst g1. destruct (hits_player g (bu_base b1)) eqn:Hh.
        -- right. exists 1%nat. split; [lia | congruence].
        -- left. exact H.
      * right. exists (S k). split; [lia |]. rewrite <- Hshift. exact Hk'.
    + intros [H | (k & Hk & Hk')].
      * left. subst g1. destruct (hits_player g (bu_base b1)) eqn:Hh;
          [reflexivity | exact H].
      * destruct k as [|k]; [lia |]. destruct k as [|k].
        -- left. subst g1. rewrite Hfirst, Hk'. reflexivity.
        -- right. exists (S k). split; [lia |]. rewrite Hshift. exact Hk'.
Qed.

(** X8.  An update moves a bullet by exactly its velocity, which it
    keeps.  The session is stopped afterwards exactly when it was stopped
    before or one of the ten intermediate positions hits the player.  The
    bullet leaves the collection exactly when its new position is on or
    beyond the border. *)
Theorem Bullet_update_flight (self : nat) (g : Game) (b : Bullet) :
  let b' := fst (Bullet_update self g b) in
  let g' := snd (Bullet_update self g b) in
  x (bu_base b') = x (bu_base b) + bu_xspeed b
  /\ y (bu_base b') = y (bu_base b) + bu_yspeed b
  /\ bu_xspeed b' = bu_xspeed b /\ bu_yspeed b' = bu_yspeed b
  /\ size (bu_base b') = size (bu_base b)
  /\ (is_running g' = false <->
      is_running g = false
      \/ exists k : nat, (1 <= k <= 10)%nat
                         /\ hits_player g (Bullet_at b k) = true)
  /\ elements g' =
     if Bullet_hits_border g b'
     then firstn self (elements g) ++ skipn (S self) (elements g)
     else elements g.
Proof.
  unfold Bullet_update.
  destruct (Bullet_steps_spec 10 g b)
    as (Hx & Hy & Hs & Hc & Hxs & Hys & Hp & He & HW & HH & Hrun).
  destruct (Bullet_steps 10 g b) as [b1 g1] eqn:Hsteps. cbn [fst snd] in *.
  assert (Hborder : Bullet_hits_border g1 b1 = Bullet_hits_border g b1)
    by (unfold Bullet_hits_border; rewrite HW, HH; reflexivity).
  rewrite Hborder.
  assert (H10 : INR 10 = 10) by (simpl; lra).
  rewrite H10 in Hx, Hy.
  destruct (Bullet_hits_border g b1) eqn:Hb; cbn [fst snd]; rewrite Hb;
    (split; [rewrite Hx; field |]); (split; [rewrite Hy; field |]);
    (split; [exact Hxs |]); (split; [exact Hys |]); (split; [exact Hs |]);
    (split; [| cbn; rewrite ?He; reflexivity]); exact Hrun.
Qed.

(** ** The rhythm of a turret *)

Lemma Turret_shoot_total (env : Env) (g : Game) (t : Turret) :
  exists (t' : Turret) (g' : Game),
    Turret_shoot env g t = Ok (t', g')
    /\ tu_base t' = tu_base t /\ bullet_size t' = bullet_size t
    /\ velocity t' = velocity t /\ tu_fire_rate t' = tu_fire_rate t
    /\ (timer t' = (timer t + 33)%Z /\ IZR (timer t') < tu_fire_rate t
        /\ g' = g
        \/ timer t' = 0%Z /\ tu_fire_rate t <= IZR (timer t + 33)
           /\ exists b, g' = add_element (EBullet b) g).
Proof.
  destruct (Rlt_dec (IZR (timer t + 33)) (tu_fire_rate t)) as [Hlt | Hge].
  - rewrite (Turret_shoot_wait env g t Hlt).
    eexists; eexists. split; [reflexivity |].
    repeat (split; [reflexivity |]). left. repeat split. exact Hlt.
  - destruct (Turret_shoot_fire env g t) as (b & -> & _); [lra |].
    eexists; eexists. split; [reflexivity |].
    repeat (split; [reflexivity |]). right.
    split; [reflexivity |]. split; [lra |]. exists b. reflexivity.
Qed.

(** X9.  An update of a turret never raises and changes nothing of the
    turret but its timer, which stays non-negative and, for a positive
    period, below the period; the collection gains one bullet at most. *)
Theorem Turret_update_stationary (env : Env) (g : Game) (t : Turret) :
  exists (t' : Turret) (g' : Game),
    Turret_update env g t = Ok (t', g')
    /\ tu_base t' = tu_base t
    /\ bullet_size t' = bullet_size t /\ velocity t' = velocity t
    /\ tu_fire_rate t' = tu_fire_rate t
    /\ ((0 <= timer t)%Z -> (0 <= timer t')%Z)
    /\ (0 < tu_fire_rate t -> IZR (timer t') < tu_fire_rate t)
    /\ (elements g' = elements g
        \/ exists b, elements g' = elements g ++ [EBullet b]).
Proof.
  unfold Turret_update.
  destruct (Turret_shoot_total env g t)
    as (t' & g1 & -> & Hb & Hbs & Hv & Hf & Hcase).
  cbn [bind]. eexists; eexists. split; [reflexivity |].
  repeat (split; [assumption |]).
  assert (Hel : forall g2, elements (if hits_player g1 (tu_base t')
                                     then game_over_lose g2 else g2)
                           = elements g2)
    by (intros g2; destruct (hits_player _ _); reflexivity).
  rewrite Hel.
  destruct Hcase as [(Ht & Hlt & ->) | (Ht & Hge & b & ->)].
  - split; [lia |]. split; [intros _; exact Hlt |]. left. reflexivity.
  - split; [lia |]. split; [intros Hp; rewrite Ht; exact Hp |].
    right. exists b. reflexivity.
Qed.

(** X10.  A turret whose timer is 0 and whose period is above [33k] and
    at most [33(k+1)] adds nothing during its first [k] updates, the timer
    counting 33 per update, and adds one bullet, at its own position, on
    update [k+1], the timer going back to 0. *)
Theorem Turret_first_shot (env : Env) (g : Game) (t : Turret) (k : nat) :
  timer t = 0%Z ->
  IZR (33 * Z.of_nat k) < tu_fire_rate t <= IZR (33 * Z.of_nat (S k)) ->
  (forall j : nat, (j <= k)%nat ->
     exists g', Turret_run env j g t = Ok (with_timer t (33 * Z.of_nat j), g')
                /\ elements g' = elements g)
  /\ exists (g' : Game) (b : Bullet),
       Turret_run env (S k) g t = Ok (with_timer t 0, g')
       /\ elements g' = elements g ++ [EBullet b]
       /\ position (bu_base b) = position (tu_base t).
Proof.
  intros Ht [Hlo Hhi].
  assert (Hwait : forall j : nat, (j <= k)%nat ->
            exists g', Turret_run env j g t
                       = Ok (with_timer t (33 * Z.of_nat j), g')
                       /\ elements g' = elements g /\ player g' = player g).
  { intros j Hj.
    destruct (Turret_run_wait env j g t) as (g' & Hrun & Hel & Hpl).
    - rewrite Ht. cbn [Z.add].
      eapply Rle_lt_trans; [| exact Hlo]. apply IZR_le. lia.
    - exists g'. rewrite Ht in Hrun. cbn [Z.add] in Hrun.
      repeat split; assumption. }
  split.
  - intros j Hj. destruct (Hwait j Hj) as (g' & Hrun & Hel & _).
    exists g'. split; assumption.
  - destruct (Hwait k (le_n k)) as (gk & Hrun & Hel & _).
    replace (S k) with (k + 1)%nat by lia.
    rewrite Turret_run_add, Hrun. cbn [bind Turret_run].
    destruct (Turret_shoot_fire env gk (with_timer t (33 * Z.of_nat k)))
      as (b & Hs & Hpos & _).
    { unfold with_timer; cbn [timer tu_fire_rate].
      eapply Rle_trans; [exact Hhi |]. apply IZR_le. lia. }
    unfold Turret_update. rewrite Hs. cbn [bind].
    eexists; exists b. split; [reflexivity |]. split.
    + destruct (hits_player _ _); cbn; rewrite Hel; reflexivity.
    + exact Hpos.
Qed.

(** ** The step of a homing enemy *)

Lemma homing_split (dx dy : R) :
  dx <> 0 ->
  let q := Rabs dy / Rabs dx in
  let d := sqrt (dx * dx + dy * dy) in
  py_div (Rabs dy) (Rabs dx) = Ok q
  /\ cos (atan q) * d = Rabs dx
  /\ sin (atan q) * d = Rabs dy
  /\ 0 < cos (atan q)
  /\ 0 < d.
Proof.
  intros Hdx q d.
  assert (Ha : Rabs dx <> 0) by (apply Rabs_no_R0; exact Hdx).
  assert (Hd : sqrt (Rabs dx * Rabs dx + Rabs dy * Rabs dy) = d).
  { unfold d. f_equal. unfold Rabs.
    destruct (Rcase_abs dx), (Rcase_abs dy); ring. }
  assert (Hc := cos_atan_ratio (Rabs dx) (Rabs dy) Ha).
  assert (Hs := sin_atan_ratio (Rabs dx) (Rabs dy) Ha).
  rewrite Hd, Rabs_Rabsolu in Hc, Hs. fold q in Hc, Hs.
  assert (Hdpos : 0 < d).
  { unfold d. apply sqrt_lt_R0.
    assert (0 < dx * dx) by (destruct (Rtotal_order dx 0) as [H | [H | H]]; nra).
    assert (0 <= dy * dy) by apply Rle_0_sqr. lra. }
  assert (Hapos : 0 < Rabs dx) by (apply Rabs_pos_lt; exact Hdx).
  split; [apply py_div_ok; exact Ha |].
  split; [exact Hc |].
  split; [rewrite Hs; unfold q; field; exact Ha |].
  split; [| exact Hdpos].
  apply (Rmult_lt_reg_r d); [exact Hdpos |]. rewrite Hc. lra.
Qed.

(** X11.  Off the player's column the four movement methods of a homing
    enemy return; the horizontal ones change [x] only, by
    [speed * |dx| / d] to the right or to the left, the vertical ones
    change [y] only, by [speed * |dy| / d], where [d] is the distance to
    the player: the two components taken at one position make a step of
    length [speed]. *)
Theorem HomingEnemy_step_split (g : Game) (e : HomingEnemy) :
  let dx := player_x (player g) - x (ho_base e) in
  let dy := player_y (player g) - y (ho_base e) in
  let d := sqrt (dx * dx + dy * dy) in
  dx <> 0 ->
  exists er el ed eu : HomingEnemy,
    HomingEnemy_moving_right g e = Ok er
    /\ HomingEnemy_moving_left g e = Ok el
    /\ HomingEnemy_moving_down g e = Ok ed
    /\ HomingEnemy_moving_up g e = Ok eu
    /\ (x (ho_base er) - x (ho_base e)) * d = ho_speed e * Rabs dx
    /\ (x (ho_base el) - x (ho_base e)) * d = - (ho_speed e * Rabs dx)
    /\ (y (ho_base ed) - y (ho_base e)) * d = ho_speed e * Rabs dy
    /\ (y (ho_base eu) - y (ho_base e)) * d = - (ho_speed e * Rabs dy)
    /\ y (ho_base er) = y (ho_base e) /\ y (ho_base el) = y (ho_base e)
    /\ x (ho_base ed) = x (ho_base e) /\ x (ho_base eu) = x (ho_base e)
    /\ (x (ho_base er) - x (ho_base e)) * (x (ho_base er) - x (ho_base e))
       + (y (ho_base ed) - y (ho_base e)) * (y (ho_base ed) - y (ho_base e))
       = ho_speed e * ho_speed e.
Proof.
  intros dx dy d Hdx.
  destruct (homing_split dx dy Hdx) as (Hq & Hc & Hs & _ & Hd).
  fold d in Hc, Hs, Hd.
  assert (E : (dx =? 0) = false) by (apply Reqb_false; exact Hdx).
  unfold HomingEnemy_moving_right, HomingEnemy_moving_left,
    HomingEnemy_moving_down, HomingEnemy_moving_up.
  fold dx dy. rewrite E, Hq. cbn [bind].
  set (q := Rabs dy / Rabs dx) in *.
  set (C := cos (atan q)) in *. set (S := sin (atan q)) in *.
  assert (Hunit : C * C + S * S = 1).
  { generalize (sin2_cos2 (atan q)). unfold Rsqr. fold C S. lra. }
  assert (HvC := f_equal (Rmult (ho_speed e)) Hc).
  assert (HvS := f_equal (Rmult (ho_speed e)) Hs).
  assert (HvU := f_equal (Rmult (ho_speed e * ho_speed e)) Hunit).
  do 4 eexists. do 4 (split; [reflexivity |]).
  cbn [ho_base x y set_x set_y].
  repeat split; lra.
Qed.

(** X12.  The constructor of a homing enemy runs before [create_enemy]
    assigns the position: the first modes compare the player with the
    default position of a new element, not with the place, outside the
    safe zone, where the enemy is then put. *)
Theorem create_enemy_homing_modes (env : Env) (gen : EnemyGenerator)
    (fuel : nat) (g : Game) (rng : RNG) (g' : Game) (rng' : RNG) :
  create_enemy env gen fuel (Some HomingEnemy_class) g rng = Ok (g', rng') ->
  exists h : HomingEnemy,
    elements g' = elements g ++ [EHoming h]
    /\ ho_speed h = 38 / 10
    /\ ho_xstate h =
       (if player_x (player g) <=? element_x0 env
        then moving_left else moving_right)
    /\ ho_ystate h =
       (if player_y (player g) <=? element_y0 env
        then moving_up else moving_down)
    /\ ~ in_square (player_x (player g)) (player_y (player g)) 100
                   (x (ho_base h)) (y (ho_base h)).
Proof.
  intros H. unfold create_enemy in H. cbn [bind] in H.
  apply bind_Ok in H. destruct H as ([sz rng2] & _ & H).
  cbn [construct bind] in H.
  apply bind_Ok in H. destruct H as ([[tx ty] rng3] & Hs & H).
  injection H as <- _.
  apply sample_position_sound in Hs. destruct Hs as (Hsafe & _).
  eexists. split; [reflexivity |].
  cbn. repeat split. apply safe_area_false. exact Hsafe.
Qed.

(** X13.  [moving_right] does not ask on which side the player is: with
    a positive speed an enemy right of the player moves further right and
    the mode becomes [moving_left]. *)
Theorem HomingEnemy_moving_right_away (g : Game) (e : HomingEnemy) :
  0 < ho_speed e ->
  player_x (player g) < x (ho_base e) ->
  exists e' : HomingEnemy,
    HomingEnemy_moving_right g e = Ok e'
    /\ x (ho_base e) < x (ho_base e')
    /\ ho_xstate e' = moving_left.
Proof.
  intros Hs Hlt.
  destruct (homing_split (player_x (player g) - x (ho_base e))
              (player_y (player g) - y (ho_base e)) ltac:(lra))
    as (Hq & _ & _ & Hc & _).
  unfold HomingEnemy_moving_right.
  assert (E : (player_x (player g) - x (ho_base e) =? 0) = false)
    by (apply Reqb_false; lra).
  rewrite E, Hq. cbn [bind].
  eexists. split; [reflexivity |]. cbn [ho_base x set_x ho_xstate].
  set (C := cos (atan _)) in *.
  assert (0 < ho_speed e * C) by (apply Rmult_lt_0_compat; assumption).
  split; [lra |].
  destruct (_ <=? _) eqn:E'; [reflexivity |].
  apply Rleb_false in E'. lra.
Qed.

(** ** What the generator adds *)

Lemma class_of_place (el : Element) (a b : R) :
  class_of (place el a b) = class_of el.
Proof. destruct el; reflexivity. Qed.

Lemma class_of_construct (env : Env) (g : Game) (ty : EnemyType) (sz : R)
    (el : Element) :
  construct env g ty sz = Ok el -> class_of el = Some ty.
Proof.
  destruct ty; cbn [construct]; rewrite ?Turret_init_default; cbn [bind];
    intros H; injection H as <-; reflexivity.
Qed.

Lemma choice_In {A : Type} (l : list A) (rng : RNG) (a : A) (rng' : RNG) :
  choice l rng = Ok (a, rng') -> In a l.
Proof.
  destruct l as [|d l]; [discriminate |].
  intros H.
  assert (Hn : nth (Z.to_nat (rng O mod Z.of_nat (List.length (d :: l))))
                   (d :: l) d = a)
    by (unfold choice, draw in H; congruence).
  rewrite <- Hn. apply nth_In.
  pose proof (Z.mod_pos_bound (rng O) (Z.of_nat (List.length (d :: l)))
                ltac:(cbn [List.length]; lia)) as Hb.
  lia.
Qed.

Lemma create_enemy_answers (env : Env) (gen : EnemyGenerator) (fuel : nat)
    (ty : option EnemyType) (g : Game) (rng : RNG) (g' : Game) (rng' : RNG) :
  create_enemy env gen fuel ty g rng = Ok (g', rng') ->
  exists el : Element, g' = add_element el g /\ answers gen ty el.
Proof.
  intros H.
  destruct (create_enemy_added _ _ _ _ _ _ _ _ H) as (el & sz & Hg & _).
  exists el. split; [exact Hg |].
  assert (Hel : elements g' = elements g ++ [el]) by (rewrite Hg; reflexivity).
  unfold create_enemy in H.
  apply bind_Ok in H. destruct H as ([ty0 rng1] & Hty & H).
  apply bind_Ok in H. destruct H as ([sz0 rng2] & _ & H).
  apply bind_Ok in H. destruct H as (el0 & Hc & H).
  apply class_of_construct in Hc.
  assert (Hel' : exists a b, elements g' = elements g ++ [place el0 a b]).
  { destruct el0;
      try (apply bind_Ok in H; destruct H as ([[tx ty1] rng3] & _ & H));
      injection H as <- _; eexists; eexists; reflexivity. }
  destruct Hel' as (a & b & Hel').
  rewrite Hel in Hel'. apply app_inv_head in Hel'. injection Hel' as ->.
  unfold answers. rewrite class_of_place.
  destruct ty as [c |]; cbn in Hty.
  - injection Hty as <- _. exact Hc.
  - exists ty0. split; [eapply choice_In; exact Hty | exact Hc].
Qed.

Lemma same_but_elements_add (el : Element) (g : Game) :
  same_but_elements g (add_element el g).
Proof. repeat split. Qed.

Lemma same_but_elements_trans (g1 g2 g3 : Game) :
  same_but_elements g1 g2 -> same_but_elements g2 g3 ->
  same_but_elements g1 g3.
Proof.
  unfold same_but_elements. intros H1 H2.
  decompose [and] H1. decompose [and] H2. repeat split; congruence.
Qed.

Lemma create_enemies_answer (env : Env) (gen : EnemyGenerator) (fuel : nat)
    (tys : list (option EnemyType)) :
  forall (g : Game) (rng : RNG) (g' : Game) (rng' : RNG),
    create_enemies env gen fuel tys g rng = Ok (g', rng') ->
    exists els : list Element,
      elements g' = elements g ++ els
      /\ Forall2 (answers gen) tys els
      /\ same_but_elements g g'.
Proof.
  induction tys as [|ty tys IH]; intros g rng g' rng' H.
  - injection H as <- _. exists []. rewrite app_nil_r.
    split; [reflexivity |]. split; [constructor | repeat split].
  - cbn [create_enemies] in H.
    apply bind_Ok in H. destruct H as ([g1 rng1] & H1 & H).
    destruct (create_enemy_answers _ _ _ _ _ _ _ _ H1) as (el & -> & Hans).
    destruct (IH _ _ _ _ H) as (els & Hel & Hall & Hsame).
    exists (el :: els). split.
    + rewrite Hel. cbn. rewrite <- app_assoc. reflexivity.
    + split; [constructor; assumption |].
      eapply same_but_elements_trans; [apply same_but_elements_add | exact Hsame].
Qed.

Lemma Forall2_Some_map (gen : EnemyGenerator) (cs : list EnemyType)
    (els : list Element) :
  Forall2 (answers gen) (map Some cs) els -> map class_of els = map Some cs.
Proof.
  revert els. induction cs as [|c cs IH]; intros els H; inversion H; subst.
  - reflexivity.
  - cbn. f_equal; [assumption | apply IH; assumption].
Qed.

Lemma concat_repeat_map {A B : Type} (f : A -> B) (l : list A) (n : nat) :
  List.concat (repeat (map f l) n) = map f (List.concat (repeat l n)).
Proof.
  induction n as [|n IH]; [reflexivity |].
  cbn. rewrite IH, map_app. reflexivity.
Qed.

Lemma initial_enemies_added (env : Env) (gen : EnemyGenerator)
    (fuel : nat) (g : Game) (rng : RNG) (g' : Game) (rng' : RNG) :
  initial_enemies env gen fuel g rng = Ok (g', rng') ->
  exists els : list Element,
    elements g' = elements g ++ els
    /\ map class_of els
       = map Some (List.concat (repeat (enemies gen)
                                       (Z.to_nat (generator_level gen))))
    /\ List.length els
       = (Z.to_nat (generator_level gen) * List.length (enemies gen))%nat
    /\ same_but_elements g g'.
Proof.
  intros H. unfold initial_enemies in H.
  rewrite concat_repeat_map in H.
  destruct (create_enemies_answer _ _ _ _ _ _ _ _ H) as (els & Hel & Hall & Hs).
  exists els. split; [exact Hel |].
  apply Forall2_Some_map in Hall.
  split; [exact Hall |]. split; [| exact Hs].
  rewrite <- (length_map class_of), Hall, length_map.
  clear. induction (Z.to_nat (generator_level gen)) as [|n IH];
    [reflexivity |].
  cbn. rewrite length_app, IH. reflexivity.
Qed.

Lemma py_int_three_halves (l : Z) :
  (0 <= l)%Z -> py_int (IZR l * (15 / 10)) = (3 * l / 2)%Z.
Proof.
  intros Hl.
  pose proof (Z.div_mod (3 * l) 2 ltac:(lia)) as Hdm.
  pose proof (Z.mod_pos_bound (3 * l) 2 ltac:(lia)) as Hm.
  assert (Hq : (2 * (3 * l / 2) <= 3 * l < 2 * (3 * l / 2) + 2)%Z) by lia.
  destruct Hq as [Hq1 Hq2]. apply IZR_le in Hq1. apply IZR_lt in Hq2.
  rewrite mult_IZR in Hq1. rewrite plus_IZR, mult_IZR in Hq2.
  rewrite mult_IZR in Hq1, Hq2.
  apply IZR_le in Hl.
  apply py_int_nonneg; lra.
Qed.

(** X15.  For a level that is not negative, when [spawn_more] returns it
    has appended [3 * level / 2 + 1] enemies of the generator's classes,
    queued itself once more with a delay of [1000, 1500), and left the
    running flag, the player and the home alone. *)
Theorem spawn_more_population (env : Env) (gen : EnemyGenerator)
    (fuel : nat) (g : Game) (rng : RNG) (g' : Game) (rng' : RNG) :
  (0 <= generator_level gen)%Z ->
  EnemyGenerator_spawn_more env gen fuel g rng = Ok (g', rng') ->
  exists (els : list Element) (delay : Z),
    elements g' = elements g ++ els
    /\ List.length els = Z.to_nat (3 * generator_level gen / 2 + 1)
    /\ Forall (fun el => exists c, In c (enemies gen) /\ class_of el = Some c)
              els
    /\ timers g' = timers g ++ [(delay, spawn_more)]
    /\ (1000 <= delay < 1500)%Z
    /\ is_running g' = is_running g
    /\ player g' = player g /\ home g' = home g.
Proof.
  intros Hl H. unfold EnemyGenerator_spawn_more in H.
  rewrite py_int_three_halves in H by exact Hl.
  apply bind_Ok in H. destruct H as ([g1 rng1] & Hc & H).
  apply bind_Ok in H. destruct H as ([delay rng2] & Hd & H).
  injection H as <- _.
  apply randrange_inv in Hd.
  destruct (create_enemies_answer _ _ _ _ _ _ _ _ Hc) as (els & Hel & Hall & Hs).
  destruct Hs as (Hr & _ & Ht & _ & _ & _ & _ & Hh & Hp).
  exists els, delay.
  split; [exact Hel |]. split.
  - apply Forall2_length in Hall. rewrite repeat_length in Hall.
    symmetry. exact Hall.
  - split.
    + clear - Hall. remember (repeat None _) as tys eqn:Htys.
      assert (Hnone : Forall (fun ty => ty = @None EnemyType) tys).
      { subst tys. apply Forall_forall. intros ty Hin.
        apply repeat_spec in Hin. exact Hin. }
      clear Htys. induction Hall as [| ty el tys els Hans _ IH];
        [constructor |].
      inversion Hnone; subst. constructor; [exact Hans | apply IH; assumption].
    + cbn. rewrite Ht. repeat split; try assumption; lia.
Qed.

(** X14.  When [initial_enemies] returns it has appended, for each level
    in turn, one enemy of each class of the generator in the order of the
    list, and has changed nothing else of the game. *)
Theorem initial_enemies_population (env : Env) (gen : EnemyGenerator)
    (fuel : nat) (g : Game) (rng : RNG) (g' : Game) (rng' : RNG) :
  initial_enemies env gen fuel g rng = Ok (g', rng') ->
  exists els : list Element,
    elements g' = elements g ++ els
    /\ map class_of els
       = map Some (List.concat (repeat (enemies gen)
                                       (Z.to_nat (generator_level gen))))
    /\ List.length els
       = (Z.to_nat (generator_level gen) * List.length (enemies gen))%nat
    /\ same_but_elements g g'.
Proof. apply initial_enemies_added. Qed.

(** X16.  When [init_game] returns the waypoint is inactive, the home of
    size 20 is at [(screen_width - 100, screen_height // 2)], the player
    of speed 5 at [(50, screen_height // 2)], five enemies per level have
    been added, one of each class in order, and [spawn_more] is queued
    once with a delay of [500, 1000). *)
Theorem init_game_state (env : Env) (fuel : nat) (g : Game) (rng : RNG)
    (gen : EnemyGenerator) (g' : Game) (rng' : RNG) :
  TurtleAdventureGame_init_game env fuel g rng = Ok (gen, g', rng') ->
  waypoint g' = Waypoint_init
  /\ home g' = mkHome (IZR (screen_width g - 100)) (IZR (screen_height g / 2)) 20
  /\ player_x (player g') = 50
  /\ player_y (player g') = IZR (screen_height g / 2)
  /\ player_speed (player g') = 5
  /\ generator_level gen = level g
  /\ is_running g' = is_running g
  /\ exists (els : list Element) (delay : Z),
       elements g' = elements g ++ els
       /\ map class_of els
          = map Some
              (List.concat
                 (repeat [RandomMovingEnemy_class; HomingEnemy_class;
                          CampingEnemy_class; BouncingEnemy_class;
                          Turret_class]
                         (Z.to_nat (level g))))
       /\ List.length els = (Z.to_nat (level g) * 5)%nat
       /\ timers g' = timers g ++ [(delay, spawn_more)]
       /\ (500 <= delay < 1000)%Z.
Proof.
  intros H. unfold TurtleAdventureGame_init_game, EnemyGenerator_init in H.
  cbv zeta in H.
  apply bind_Ok in H. destruct H as ([g1 rng1] & Hi & H).
  apply bind_Ok in H. destruct H as ([delay rng2] & Hd & H).
  injection H as <- <- _.
  apply randrange_inv in Hd.
  destruct (initial_enemies_added _ _ _ _ _ _ _ Hi)
    as (els & Hel & Hcl & Hlen & Hs).
  destruct Hs as (Hr & _ & Ht & _ & _ & _ & Hw & Hh & Hp).
  cbn [waypoint home player after set_timers timers elements is_running
       generator_level] in *.
  rewrite Hw, Hh, Hp, Hr, Ht, Hel.
  repeat (split; [reflexivity |]).
  exists els, delay. repeat split; try assumption; lia.
Qed.

(** ** When no place can be found *)

Lemma sample_position_starved (g : Game) (sz : R) (lo : Z) :
  py_int (sz / 2) = lo ->
  (0 + lo < winfo_width g - lo)%Z -> (0 + lo < winfo_height g - lo)%Z ->
  (forall a b : Z,
      (lo <= a < winfo_width g - lo)%Z -> (lo <= b < winfo_height g - lo)%Z ->
      accepted g (a, b) = false) ->
  forall (fuel : nat) (rng : RNG), sample_position fuel g sz rng = Timeout.
Proof.
  intros Hlo HW HH Hrej. induction fuel as [|fuel IH]; intros rng;
    [reflexivity |].
  rewrite (sample_position_step fuel g sz rng lo Hlo HW HH).
  assert (Hc : accepted g (candidate g lo rng 0) = false).
  2:{ rewrite Hc. apply IH. }
  unfold candidate. apply Hrej.
  - pose proof (Z.mod_pos_bound (rng (2 * 0)%nat) (winfo_width g - lo - (0 + lo))).
    lia.
  - pose proof (Z.mod_pos_bound (rng (2 * 0 + 1)%nat)
                  (winfo_height g - lo - (0 + lo))).
    lia.
Qed.

Lemma sample_position_no_raise (g : Game) (sz : R) (lo : Z) :
  py_int (sz / 2) = lo ->
  (0 + lo < winfo_width g - lo)%Z -> (0 + lo < winfo_height g - lo)%Z ->
  forall (fuel : nat) (rng : RNG) (e : exn),
    sample_position fuel g sz rng <> Raise e.
Proof.
  intros Hlo HW HH. induction fuel as [|fuel IH]; intros rng e;
    [discriminate |].
  rewrite (sample_position_step fuel g sz rng lo Hlo HW HH).
  destruct (accepted _ _); [discriminate | apply IH].
Qed.

Lemma sample_position_empty (fuel : nat) (g : Game) (sz : R) (lo : Z)
    (rng : RNG) :
  py_int (sz / 2) = lo ->
  (winfo_width g <= 2 * lo)%Z \/ (winfo_height g <= 2 * lo)%Z ->
  sample_position (S fuel) g sz rng = Raise ValueError.
Proof.
  intros Hlo Hsmall. cbn [sample_position]. rewrite Hlo.
  destruct (Z_lt_dec (0 + lo) (winfo_width g - lo)) as [HW | HW].
  - destruct (randrange_ok (0 + lo) (winfo_width g - lo) rng HW) as [-> _].
    cbn [bind]. unfold randrange.
    destruct (0 + lo <? winfo_height g - lo)%Z eqn:E; [| reflexivity].
    apply Z.ltb_lt in E. lia.
  - unfold randrange at 1.
    destruct (0 + lo <? winfo_width g - lo)%Z eqn:E; [| reflexivity].
    apply Z.ltb_lt in E. lia.
Qed.

(** What [create_enemy] does for a class other than [CampingEnemy], in
    terms of the loop. *)
Lemma create_enemy_sampled (env : Env) (gen : EnemyGenerator) (fuel : nat)
    (ty : EnemyType) (g : Game) (rng : RNG) :
  ty <> CampingEnemy_class ->
  let sz := (15 + rng O mod (30 - 15))%Z in
  exists el : Element,
    construct env g ty (IZR sz) = Ok el
    /\ create_enemy env gen fuel (Some ty) g rng
       = ('(tempx, tempy, rng3) <-
            sample_position fuel g (IZR sz) (drop 1 rng) ;;
          Ok (add_element (place el (IZR tempx) (IZR tempy)) g, rng3)).
Proof.
  intros Hty sz.
  destruct (construct_ok env g ty (IZR sz)) as (el & Hel & Hsize & Hcamp).
  exists el. split; [exact Hel |].
  unfold create_enemy. cbn [bind].
  destruct (randrange_ok 15 30 rng) as [-> _]; [lia |].
  fold sz. cbn [bind]. rewrite Hel. cbn [bind]. rewrite Hsize.
  destruct el; try reflexivity.
  exfalso. apply Hty. apply Hcamp. reflexivity.
Qed.

(** X17.  For a class other than [CampingEnemy], [create_enemy] raises
    [ValueError] exactly when the width or the height of the field is at
    most twice the margin [int(size/2)] of the size drawn: the range of
    [randrange] is then empty. *)
Theorem create_enemy_value_error (env : Env) (gen : EnemyGenerator)
    (fuel : nat) (ty : EnemyType) (g : Game) (rng : RNG) :
  ty <> CampingEnemy_class ->
  let margin := ((15 + rng O mod (30 - 15)) / 2)%Z in
  create_enemy env gen (S fuel) (Some ty) g rng = Raise ValueError
  <-> (winfo_width g <= 2 * margin)%Z \/ (winfo_height g <= 2 * margin)%Z.
Proof.
  intros Hty margin.
  destruct (create_enemy_sampled env gen (S fuel) ty g rng Hty)
    as (el & _ & ->).
  assert (Hlo : py_int (IZR (15 + rng O mod (30 - 15)) / 2) = margin).
  { apply py_int_half.
    pose proof (Z.mod_pos_bound (rng O) (30 - 15)). lia. }
  split.
  - intros H.
    destruct (Z_le_dec (winfo_width g) (2 * margin)) as [HW | HW];
      [left; exact HW |].
    destruct (Z_le_dec (winfo_height g) (2 * margin)) as [HH | HH];
      [right; exact HH |].
    exfalso.
    pose proof (sample_position_no_raise g _ margin Hlo ltac:(lia) ltac:(lia)
                  (S fuel) (drop 1 rng) ValueError) as Hno.
    destruct (sample_position (S fuel) g _ (drop 1 rng)) as [[[a b] r] | e |];
      cbn [bind] in H; [discriminate | | discriminate].
    injection H as ->. apply Hno. reflexivity.
  - intros Hsmall.
    rewrite (sample_position_empty fuel g _ margin (drop 1 rng) Hlo Hsmall).
    reflexivity.
Qed.

(** X18.  When the whole field lies in the safe zone of the player, the
    loop of [create_enemy] rejects every candidate: for a class other
    than [CampingEnemy] the call does not return, whatever the budget of
    candidates and the random source. *)
Theorem create_enemy_never_returns (env : Env) (gen : EnemyGenerator)
    (ty : EnemyType) (g : Game) (rng : RNG) :
  ty <> CampingEnemy_class ->
  (28 < winfo_width g)%Z -> (28 < winfo_height g)%Z ->
  player_x (player g) - 100 <= 0 ->
  IZR (winfo_width g) <= player_x (player g) + 100 ->
  player_y (player g) - 100 <= 0 ->
  IZR (winfo_height g) <= player_y (player g) + 100 ->
  forall fuel : nat,
    create_enemy env gen fuel (Some ty) g rng = Timeout.
Proof.
  intros Hty HW HH Hx0 Hx1 Hy0 Hy1 fuel.
  destruct (create_enemy_sampled env gen fuel ty g rng Hty) as (el & _ & ->).
  pose proof (Z.mod_pos_bound (rng O) (30 - 15) ltac:(lia)) as Hm.
  set (sz := (15 + rng O mod (30 - 15))%Z) in *.
  assert (Hsz : (15 <= sz < 30)%Z) by (subst sz; lia).
  clearbody sz.
  assert (Hlo : py_int (IZR sz / 2) = (sz / 2)%Z) by (apply py_int_half; lia).
  assert (Hlo7 : (7 <= sz / 2 <= 14)%Z).
  { split; [apply Z.div_le_lower_bound; lia |].
    assert (sz / 2 < 15)%Z by (apply Z.div_lt_upper_bound; lia). lia. }
  rewrite (sample_position_starved g (IZR sz) (sz / 2)%Z Hlo); try lia;
    [reflexivity |].
  intros a b Ha Hb. unfold accepted. cbn [fst snd].
  assert (Hs : safe_area g (IZR a) (IZR b) = true).
  { unfold safe_area. apply andb_true_iff.
    assert (0 <= IZR a < IZR (winfo_width g))
      by (split; [apply IZR_le | apply IZR_lt]; lia).
    assert (0 <= IZR b < IZR (winfo_height g))
      by (split; [apply IZR_le | apply IZR_lt]; lia).
    split; apply between_true; lra. }
  rewrite Hs. reflexivity.
Qed.

Lemma hits_player_close (g : Game) (e : Enemy) :
  size e <= 200 ->
  hits_player g e = true ->
  in_square (player_x (player g)) (player_y (player g)) 100 (x e) (y e).
Proof.
  intros Hs H. unfold hits_player in H.
  apply orb_true_iff in H. rewrite !andb_true_iff, !between_true in H.
  unfold in_square. destruct H as [[H1 H2] | [H1 H2]]; lra.
Qed.

(** X19.  An enemy added by [create_enemy] has a size of [15, 30), and
    unless it is a camping enemy it does not hit the player where it is
    put. *)
Theorem create_enemy_clear_of_player (env : Env) (gen : EnemyGenerator)
    (fuel : nat) (ty : option EnemyType) (g : Game) (rng : RNG)
    (g' : Game) (rng' : RNG) :
  create_enemy env gen fuel ty g rng = Ok (g', rng') ->
  exists el : Element,
    elements g' = elements g ++ [el]
    /\ 15 <= size (element_base el) < 30
    /\ (is_camping el = false -> hits_player g' (element_base el) = false).
Proof.
  intros H.
  destruct (create_enemy_added _ _ _ _ _ _ _ _ H)
    as (el & sz & -> & Hsz & Hsize & Hpos).
  exists el. split; [reflexivity |]. split.
  - rewrite Hsize. destruct Hsz as [H1 H2].
    apply IZR_le in H1. apply IZR_lt in H2. lra.
  - intros Hc. destruct (Hpos Hc) as (tx & ty1 & Hp & Hsafe & _).
    apply not_true_is_false. intros Hhit.
    apply hits_player_close in Hhit.
    + apply safe_area_false in Hsafe. apply Hsafe.
      unfold position in Hp. injection Hp as <- <-. exact Hhit.
    + rewrite Hsize. destruct Hsz as [_ H2]. apply IZR_lt in H2. lra.
Qed.

(** X20.  [home_area] takes its [y] bound around the player: once the
    player is more than twice the half side away from the home in [y],
    no point of the patrol square is in [home_area]. *)
Theorem home_area_misses_patrol (g : Game) (a b : R) :
  let dist := IZR (home_size (home g)) / 2 * 5 in
  in_square (home_x (home g)) (home_y (home g)) dist a b ->
  2 * dist < Rabs (player_y (player g) - home_y (home g)) ->
  home_area g a b = false.
Proof.
  intros dist [_ Hb] Hfar. apply home_area_false. fold dist.
  intros [_ Hb']. unfold Rabs in Hfar. destruct (Rcase_abs _); lra.
Qed.

(** X21.  [create_enemy] always returns for the class [CampingEnemy]:
    the enemy, of a size of [15, 30) and of the default speed, is in mode
    [moving_right] on the top-left corner of its patrol square. *)
Theorem create_enemy_camping_on_patrol (env : Env) (gen : EnemyGenerator)
    (fuel : nat) (g : Game) (rng : RNG) :
  exists (c : CampingEnemy) (rng' : RNG),
    create_enemy env gen fuel (Some CampingEnemy_class) g rng
    = Ok (add_element (ECamping c) g, rng')
    /\ multiplier c = IZR (home_size (home g)) / 2 * 5
    /\ position (ca_base c) = top_left g (multiplier c)
    /\ ca_state c = moving_right
    /\ ca_speed c = CampingEnemy_speed_default env
    /\ 15 <= size (ca_base c) < 30
    /\ ((0 <= home_size (home g))%Z -> on_patrol g c).
Proof.
  rewrite create_enemy_camping.
  eexists; eexists. split; [reflexivity |].
  cbn [place CampingEnemy_init multiplier ca_base ca_state ca_speed
       set_x set_y x y size Enemy_init].
  repeat (split; [reflexivity |]).
  pose proof (Z.mod_pos_bound (rng O) (30 - 15) ltac:(lia)) as Hm.
  split.
  - split; [apply IZR_le | apply IZR_lt]; lia.
  - intros Hh. apply IZR_le in Hh. unfold on_patrol. cbn. lra.
Qed.

(** ** Losing *)

Lemma lose_if_hit (g : Game) (hit : bool) :
  let g' := if hit then game_over_lose g else g in
  (is_running g' = false <-> is_running g = false \/ hit = true)
  /\ player g' = player g /\ home g' = home g /\ waypoint g' = waypoint g
  /\ elements g' = elements g.
Proof.
  destruct hit; cbn; repeat split; auto.
  intros [H | H]; [exact H | discriminate].
Qed.

(** X22.  After the update of a random, bouncing, homing or camping
    enemy or of a turret the session is stopped exactly when it was
    stopped before or the enemy hits the player from where the update
    left it; the player is not moved. *)
Theorem enemy_update_loses_iff (env : Env) (g : Game) :
  (forall (e : RandomMovingEnemy) (rng : RNG) e' g' rng',
      RandomMovingEnemy_update g e rng = Ok (e', g', rng') ->
      (is_running g' = false <->
       is_running g = false \/ hits_player g (rm_base e') = true)
      /\ player g' = player g /\ elements g' = elements g)
  /\ (forall e : BouncingEnemy,
        let e' := fst (BouncingEnemy_update g e) in
        let g' := snd (BouncingEnemy_update g e) in
        (is_running g' = false <->
         is_running g = false \/ hits_player g (bo_base e') = true)
        /\ player g' = player g /\ elements g' = elements g)
  /\ (forall (e : HomingEnemy) e' g',
        HomingEnemy_update g e = Ok (e', g') ->
        (is_running g' = false <->
         is_running g = false \/ hits_player g (ho_base e') = true)
        /\ player g' = player g /\ elements g' = elements g)
  /\ (forall e : CampingEnemy,
        let e' := fst (CampingEnemy_update g e) in
        let g' := snd (CampingEnemy_update g e) in
        (is_running g' = false <->
         is_running g = false \/ hits_player g (ca_base e') = true)
        /\ player g' = player g /\ elements g' = elements g)
  /\ (forall (t : Turret) t' g',
        Turret_update env g t = Ok (t', g') ->
        (is_running g' = false <->
         is_running g = false \/ hits_player g (tu_base t) = true)
        /\ player g' = player g).
Proof.
  split; [| split; [| split; [| split]]].
  - intros e rng e' g' rng' H. unfold RandomMovingEnemy_update in H.
    apply bind_Ok in H. destruct H as ([dx rng1] & _ & H).
    apply bind_Ok in H. destruct H as ([dy rng2] & _ & H).
    injection H as <- <- _. cbn [rm_base].
    destruct (lose_if_hit g (hits_player g
      (set_y (set_x (rm_base e) (x (rm_base e) + IZR dx))
             (y (set_x (rm_base e) (x (rm_base e) + IZR dx)) + IZR dy))))
      as (Hr & Hp & _ & _ & He).
    split; [exact Hr |]. split; assumption.
  - intros e. unfold BouncingEnemy_update. cbn [fst snd].
    destruct (lose_if_hit g (hits_player g (bo_base
      (BouncingEnemy_call (bo_ystate (BouncingEnemy_call (bo_xstate e) g e)) g
         (BouncingEnemy_call (bo_xstate e) g e)))))
      as (Hr & Hp & _ & _ & He).
    split; [exact Hr |]. split; assumption.
  - intros e e' g' H. unfold HomingEnemy_update in H.
    apply bind_Ok in H. destruct H as (e1 & _ & H).
    apply bind_Ok in H. destruct H as (e2 & _ & H).
    injection H as <- <-.
    destruct (lose_if_hit g (hits_player g (ho_base e2)))
      as (Hr & Hp & _ & _ & He).
    split; [exact Hr |]. split; assumption.
  - intros e. unfold CampingEnemy_update. cbn [fst snd].
    destruct (lose_if_hit g (hits_player g (ca_base
      (CampingEnemy_call (ca_state e) g e)))) as (Hr & Hp & _ & _ & He).
    split; [exact Hr |]. split; assumption.
  - intros t t' g' H. unfold Turret_update in H.
    destruct (Turret_shoot_total env g t)
      as (t1 & g1 & Hs & Hb & _ & _ & _ & Hcase).
    rewrite Hs in H. cbn [bind] in H. injection H as <- <-.
    assert (Hg1 : player g1 = player g /\ is_running g1 = is_running g).
    { destruct Hcase as [(_ & _ & ->) | (_ & _ & b & ->)]; split; reflexivity. }
    destruct Hg1 as [Hp1 Hr1].
    destruct (lose_if_hit g1 (hits_player g1 (tu_base t1)))
      as (Hr & Hp & _).
    rewrite Hp, Hp1. split; [| reflexivity].
    rewrite Hr, Hr1, Hb.
    rewrite (hits_player_ext g g1 (tu_base t) (tu_base t) Hp1
               eq_refl eq_refl eq_refl).
    tauto.
Qed.

(** ** Sample runs *)

Lemma Player_closes_in_witness :
  waypoint_distance (Player_update arrival_game)
  = Rabs (waypoint_distance arrival_game - 5).
Proof.
  destruct (Player_closes_in arrival_game eq_refl) as (Hstep & _).
  apply Hstep. left. cbn. lra.
Defined.

Lemma Player_arrives_witness :
  exists k : nat,
    (0 < k)%nat
    /\ is_active (waypoint (Player_run k arrival_game)) = false
    /\ waypoint_distance (Player_run k arrival_game) < 5
    /\ forall j : nat, (j < k)%nat ->
         is_active (waypoint (Player_run j arrival_game)) = true.
Proof.
  apply (Player_arrives arrival_game); [cbn; lra | reflexivity].
Defined.

Lemma sample_bouncing : bouncing sample_game sample_bouncing_enemy.
Proof. unfold bouncing. cbn. split; left; split; try reflexivity; lra. Qed.

Lemma BouncingEnemy_stays_near_field_witness :
  bouncing sample_game (BouncingEnemy_run 1000 sample_game sample_bouncing_enemy)
  /\ within 800 500 5 5
       (bo_base (BouncingEnemy_run 1000 sample_game sample_bouncing_enemy)).
Proof.
  apply (BouncingEnemy_stays_near_field 1000 sample_game sample_bouncing_enemy);
    try (cbn; lra); try reflexivity.
  exact sample_bouncing.
Defined.

Lemma RandomMovingEnemy_stays_near_field_witness :
  exists (e' : RandomMovingEnemy) (g' : Game) (rng' : RNG),
    RandomMovingEnemy_update sample_game sample_random_enemy sample_rng
    = Ok (e', g', rng')
    /\ within 800 500 15 15 (rm_base e')
    /\ Rabs (x (rm_base e') - 100) <= 15
    /\ Rabs (y (rm_base e') - 100) <= 15.
Proof.
  apply (RandomMovingEnemy_stays_near_field sample_game sample_random_enemy
           sample_rng); try reflexivity.
  unfold within. cbn. lra.
Defined.

Lemma CampingEnemy_stays_on_patrol_witness :
  let start :=
    camping_at sample_camping_enemy
      (top_left sample_game (multiplier sample_camping_enemy)) moving_right in
  on_patrol sample_game (CampingEnemy_run 1000 sample_game start)
  /\ in_square 700 250 (20 / 2 * 5)
       (x (ca_base (CampingEnemy_run 1000 sample_game start)))
       (y (ca_base (CampingEnemy_run 1000 sample_game start))).
Proof.
  intros start.
  apply (CampingEnemy_stays_on_patrol 1000 sample_game start).
  - cbn. lra.
  - cbn. lra.
  - unfold on_patrol. cbn. lra.
Defined.

Lemma Turret_first_shot_witness :
  exists (g' : Game) (b : Bullet),
    Turret_run sample_env 24 sample_game sample_turret
    = Ok (with_timer sample_turret 0, g')
    /\ elements g' = elements sample_game ++ [EBullet b]
    /\ position (bu_base b) = position (tu_base sample_turret).
Proof.
  destruct (Turret_first_shot sample_env sample_game sample_turret 23 eq_refl)
    as [_ Hfire]; [| exact Hfire].
  cbn [tu_fire_rate sample_turret]. split.
  - apply Rle_lt_trans with (IZR 759); [apply IZR_le; lia | lra].
  - apply Rle_trans with (IZR 792); [lra | apply IZR_le; lia].
Defined.

Lemma HomingEnemy_step_split_witness :
  exists er ed : HomingEnemy,
    HomingEnemy_moving_right sample_game sample_placed_homing = Ok er
    /\ HomingEnemy_moving_down sample_game sample_placed_homing = Ok ed
    /\ (x (ho_base er) - 407) * (x (ho_base er) - 407)
       + (y (ho_base ed) - 57) * (y (ho_base ed) - 57)
       = 38 / 10 * (38 / 10).
Proof.
  destruct (HomingEnemy_step_split sample_game sample_placed_homing)
    as (er & el & ed & eu & Hr & _ & Hd & _ & _ & _ & _ & _ & _ & _ & _ & _ & Hn).
  - cbn. lra.
  - exists er, ed. split; [exact Hr |]. split; [exact Hd | exact Hn].
Defined.

Lemma HomingEnemy_moving_right_away_witness :
  exists e' : HomingEnemy,
    HomingEnemy_moving_right sample_game sample_placed_homing = Ok e'
    /\ 407 < x (ho_base e')
    /\ ho_xstate e' = moving_left.
Proof.
  apply (HomingEnemy_moving_right_away sample_game sample_placed_homing);
    cbn; lra.
Defined.

Lemma sample_create_homing :
  create_enemy sample_env sample_generator 5 (Some HomingEnemy_class)
    sample_game homing_rng
  = Ok (add_element
          (EHoming
             (mkHomingEnemy (mkEnemy 407 57 15 "#42ffbf") (38 / 10)
                (if 50 <=? 0 then moving_left else moving_right)
                (if 250 <=? 0 then moving_up else moving_down)))
          sample_game,
        drop 3 homing_rng).
Proof.
  erewrite (create_enemy_accept _ _ 4 _ _ _ _ 7%Z);
    [ | reflexivity | reflexivity | reflexivity | cbn; lia | cbn; lia
      | change (candidate _ _ _ _) with (407%Z, 57%Z);
        apply accepted_true; [unfold in_square |]; cbn; lra ].
  reflexivity.
Qed.

Lemma create_enemy_homing_modes_witness :
  exists h : HomingEnemy,
    elements
      (add_element
         (EHoming
            (mkHomingEnemy (mkEnemy 407 57 15 "#42ffbf") (38 / 10)
               (if 50 <=? 0 then moving_left else moving_right)
               (if 250 <=? 0 then moving_up else moving_down)))
         sample_game)
    = elements sample_game ++ [EHoming h]
    /\ ho_speed h = 38 / 10
    /\ ho_xstate h =
       (if player_x (player sample_game) <=? element_x0 sample_env
        then moving_left else moving_right)
    /\ ho_ystate h =
       (if player_y (player sample_game) <=? element_y0 sample_env
        then moving_up else moving_down)
    /\ ~ in_square (player_x (player sample_game))
                   (player_y (player sample_game)) 100
                   (x (ho_base h)) (y (ho_base h)).
Proof.
  apply (create_enemy_homing_modes sample_env sample_generator 5 sample_game
           homing_rng _ (drop 3 homing_rng)).
  exact sample_create_homing.
Defined.

Lemma initial_enemies_population_witness :
  exists (g' : Game) (rng' : RNG) (els : list Element),
    initial_enemies sample_env sample_generator 5 sample_game init_rng
    = Ok (g', rng')
    /\ elements g' = elements sample_game ++ els
    /\ List.length els = 5%nat.
Proof.
  destruct sample_init_game as (g0 & rng0 & Hinit & _).
  change (TurtleAdventureGame_init_game sample_env 5 blank_game init_rng)
    with (EnemyGenerator_init sample_env 1 5 sample_game init_rng) in Hinit.
  unfold EnemyGenerator_init in Hinit. cbv zeta in Hinit.
  apply bind_Ok in Hinit. destruct Hinit as ([g1 rng1] & Hi & _).
  fold sample_generator in Hi.
  destruct (initial_enemies_population _ _ _ _ _ _ _ Hi)
    as (els & Hel & _ & Hlen & _).
  exists g1, rng1, els. split; [exact Hi |]. split; [exact Hel | exact Hlen].
Defined.

Lemma init_game_state_witness :
  exists (g' : Game) (rng' : RNG),
    TurtleAdventureGame_init_game sample_env 5 blank_game init_rng
    = Ok (sample_generator, g', rng')
    /\ home g' = mkHome 700 250 20
    /\ player_x (player g') = 50 /\ player_y (player g') = 250
    /\ List.length (elements g') = 5%nat.
Proof.
  destruct sample_init_game as (g0 & rng0 & Hinit & _ & _ & Hlen & _).
  destruct (init_game_state _ _ _ _ _ _ _ Hinit)
    as (_ & Hh & Hx & Hy & _).
  exists g0, rng0. split; [exact Hinit |].
  split; [exact Hh |]. split; [exact Hx |]. split; [exact Hy | exact Hlen].
Defined.

Lemma spawn_more_population_witness :
  exists (g' : Game) (rng' : RNG) (els : list Element) (delay : Z),
    EnemyGenerator_spawn_more sample_env sample_generator 5 sample_game
      sample_rng = Ok (g', rng')
    /\ elements g' = elements sample_game ++ els
    /\ List.length els = 2%nat
    /\ timers g' = timers sample_game ++ [(delay, spawn_more)].
Proof.
  destruct (sample_spawn_more sample_game sample_rng same_view_sample_game)
    as (rng' & Hspawn); try reflexivity.
  destruct (spawn_more_population sample_env sample_generator 5 sample_game
              sample_rng _ _ Z.le_0_1 Hspawn)
    as (els & delay & Hel & Hlen & _ & Ht & _).
  eexists; exists rng', els, delay.
  split; [exact Hspawn |]. split; [exact Hel |]. split; [exact Hlen | exact Ht].
Defined.

Lemma create_enemy_value_error_witness :
  create_enemy sample_env sample_generator 5 (Some Turret_class)
    narrow_game sample_rng = Raise ValueError.
Proof.
  apply (create_enemy_value_error sample_env sample_generator 4 Turret_class
           narrow_game sample_rng); [discriminate |].
  left. cbn. lia.
Defined.

Lemma create_enemy_never_returns_witness :
  create_enemy sample_env sample_generator 1000 (Some RandomMovingEnemy_class)
    tiny_game sample_rng = Timeout.
Proof.
  apply (create_enemy_never_returns sample_env sample_generator
           RandomMovingEnemy_class tiny_game sample_rng);
    try discriminate; try reflexivity; cbn; lra.
Defined.

Lemma create_enemy_clear_of_player_witness :
  exists el : Element,
    elements
      (add_element
         (ERandomMoving (mkRandomMovingEnemy (mkEnemy 310 110 20 "#7e7e7e")))
         sample_game)
    = elements sample_game ++ [el]
    /\ 15 <= size (element_base el) < 30
    /\ (is_camping el = false ->
        hits_player
          (add_element
             (ERandomMoving
                (mkRandomMovingEnemy (mkEnemy 310 110 20 "#7e7e7e")))
             sample_game)
          (element_base el) = false).
Proof.
  apply (create_enemy_clear_of_player sample_env sample_generator 5 None
           sample_game sample_rng _ (drop 4 sample_rng)).
  apply (sample_create_random sample_game sample_rng same_view_sample_game);
    reflexivity.
Defined.

Lemma home_area_misses_patrol_witness : home_area far_game 700 250 = false.
Proof.
  apply (home_area_misses_patrol far_game 700 250).
  - unfold in_square. cbn. lra.
  - cbn. unfold Rabs. destruct (Rcase_abs _); lra.
Defined.

Lemma Turret_update_stationary_witness :
  exists (t' : Turret) (g' : Game),
    Turret_update sample_env sample_game sample_turret = Ok (t', g')
    /\ tu_base t' = tu_base sample_turret
    /\ (0 <= timer t')%Z
    /\ IZR (timer t') < 1000 / (13 / 10).
Proof.
  destruct (Turret_update_stationary sample_env sample_game sample_turret)
    as (t' & g' & Hup & Hb & _ & _ & _ & Ht & Hlt & _).
  exists t', g'. split; [exact Hup |]. split; [exact Hb |]. split.
  - apply Ht. cbn. lia.
  - apply Hlt. cbn. lra.
Defined.

Lemma create_enemy_camping_on_patrol_witness :
  exists (c : CampingEnemy) (rng' : RNG),
    create_enemy sample_env sample_generator 5 (Some CampingEnemy_class)
      sample_game sample_rng
    = Ok (add_element (ECamping c) sample_game, rng')
    /\ on_patrol sample_game c.
Proof.
  destruct (create_enemy_camping_on_patrol sample_env sample_generator 5
              sample_game sample_rng)
    as (c & rng' & Hc & _ & _ & _ & _ & _ & Hon).
  exists c, rng'. split; [exact Hc |]. apply Hon. cbn. lia.
Defined.

Lemma enemy_update_loses_iff_witness :
  exists (e' : HomingEnemy) (g' : Game),
    HomingEnemy_update sample_game sample_placed_homing = Ok (e', g')
    /\ (is_running g' = false <->
        is_running sample_game = false
        \/ hits_player sample_game (ho_base e') = true).
Proof.
  destruct (HomingEnemy_update_ok sample_game sample_placed_homing)
    as (e' & g' & Hup).
  destruct (enemy_update_loses_iff sample_env sample_game)
    as (_ & _ & Hhoming & _).
  exists e', g'. split; [exact Hup |].
  apply (Hhoming sample_placed_homing e' g' Hup).
Defined.
